(** * GhosttyBot: the extension lifecycle and the lazy resource cache

    A shallow embedding of [src/app/bot.py].  The bot is a Python object
    whose methods mutate it and talk to three collaborators: the module
    system ([importlib], [commands.Bot.load_extension]), the gateway's live
    cache (guilds, channels, emojis) and the logger.  The embedding threads
    one record, [Bot], through a state-and-exception monad; everything the
    code says to a collaborator is appended to [events], so that "logged",
    "sent" and "dispatched" are facts about that list. *)

From Stdlib Require Import Ascii.
From stdpp Require Import gmap strings list fin_maps.

Set Warnings "-register-all,-clear-no-such-hyp".
Local Open Scope string_scope.
Local Open Scope Z_scope.

(** ** Exceptions *)

(** The exception classes the code raises, catches or lets through.
    [ExtensionFailed] wraps the exception raised by the module;
    [ModuleError] stands for whatever a module's own code raises. *)
Inductive PyError : Type :=
  | ExtensionAlreadyLoaded (name : string)
  | ExtensionNotLoaded (name : string)
  | ExtensionNotFound (name : string)
  | NoEntryPointError (name : string)
  | ExtensionFailed (name : string) (original : PyError)
  | ModuleNotFoundError (name : string)
  | ModuleError (detail : string)
  | TypeError (msg : string)
  | AssertionError
  | IndexError
  | KeyError (key : string)
  | ValueError (msg : string)
  | HTTPException (status : Z)
  | CancelledError
  | ExceptionGroup (msg : string) (errors : list PyError).

(** [isinstance(e, commands.ExtensionFailed)] *)
Definition is_ExtensionFailed (e : PyError) : bool :=
  match e with ExtensionFailed _ _ => true | _ => false end.

(** [isinstance(e, commands.ExtensionError)]: the five classes of
    discord.py's extension errors. *)
Definition is_ExtensionError (e : PyError) : bool :=
  match e with
  | ExtensionAlreadyLoaded _ | ExtensionNotLoaded _ | ExtensionNotFound _
  | NoEntryPointError _ | ExtensionFailed _ _ => true
  | _ => false
  end.

(** [str(error)], for the extension errors after discord.py's wording. *)
Definition str_error (e : PyError) : string :=
  match e with
  | ExtensionAlreadyLoaded n => "Extension '" +:+ n +:+ "' is already loaded."
  | ExtensionNotLoaded n => "Extension '" +:+ n +:+ "' has not been loaded."
  | ExtensionNotFound n => "Extension '" +:+ n +:+ "' could not be loaded or found."
  | NoEntryPointError n => "Extension '" +:+ n +:+ "' has no 'setup' function."
  | ExtensionFailed n _ => "Extension '" +:+ n +:+ "' raised an error"
  | ModuleNotFoundError n => "No module named '" +:+ n +:+ "'"
  | ModuleError d => d
  | TypeError m => m
  | AssertionError => ""
  | IndexError => "list index out of range"
  | KeyError k => "'" +:+ k +:+ "'"
  | ValueError m => m
  | HTTPException _ => "HTTP error"
  | CancelledError => ""
  | ExceptionGroup m _ => m
  end.

(** ** Platform objects *)

Inductive ChannelKind : Type :=
  | TextChannel | ForumChannel | VoiceChannel | CategoryChannel | DMChannel.

Global Instance ChannelKind_eq_dec : EqDecision ChannelKind.
Proof. solve_decision. Defined.

Record Channel : Type := {
  channel_id : Z;
  channel_kind : ChannelKind;
}.

Global Instance Channel_eq_dec : EqDecision Channel.
Proof. solve_decision. Defined.

Record Emoji : Type := {
  emoji_id : Z;
  emoji_name : string;
}.

Global Instance Emoji_eq_dec : EqDecision Emoji.
Proof. solve_decision. Defined.

(** The state of one [dc.Guild] object: [guild_channels] is discord.py's
    [Guild._channels] dictionary, [guild_emojis] the tuple [Guild.emojis]. *)
Record Guild : Type := {
  guild_id : Z;
  guild_name : string;
  guild_channels : gmap Z Channel;
  guild_emojis : list Emoji;
}.

(** A [dc.Guild] is a mutable object that the gateway keeps up to date and
    the bot holds on to: the bot has a reference, the gateway the state. *)
Definition GuildRef : Type := nat.

(** What the client has cached: the guild objects by identity,
    [Client.guilds] in order, the private channels, which
    [Client.get_channel] looks at first, and whether the platform refuses
    to deliver a message ([send_error]). *)
Record Gateway : Type := {
  guild_objects : GuildRef → Guild;
  guilds : list GuildRef;
  private_channels : gmap Z Channel;
  send_error : option PyError;
}.

Record Account : Type := {
  account_id : Z;
  account_name : string;
  account_bot : bool;
}.

(** [dc.Message]: [message_type] is the integer of [dc.MessageType],
    [message_guild] the id of [message.guild] or [None] in a direct
    message. *)
Record Message : Type := {
  message_id : Z;
  message_author : Account;
  message_type : Z;
  message_guild : option Z;
  message_content : string;
}.

(** Modelled from the spec: [app.config.Config], which is imported for type
    checking only and is not in the source tree: "guild id, named-channel
    ids, a mapping of webhook-feed-type -> channel id".  The mapping keeps
    the insertion order of the Python dict; feed types are strings. *)
Record Config : Type := {
  guild_id_cfg : option Z;
  log_channel_id : Z;
  help_channel_id : Z;
  webhook_channel_ids : list (string * Z);
}.

(** Modelled from the spec: the [MessageFilter] cog, which lives in a
    component that is not in the source tree: "a named, optionally-absent
    component exposing check(message) -> bool (true = message should be
    suppressed/filtered)". *)
Record Cog : Type := {
  check : Message → bool;
}.

(** ** The module system *)

(** The [setup] attribute of a module: absent, present but not callable, or
    a coroutine function that yields to the event loop [suspends] times and
    then returns ([None]) or raises ([Some e]). *)
Inductive SetupAttr : Type :=
  | NoSetup
  | SetupNotCallable
  | SetupCallable (suspends : nat) (outcome : option PyError).

(** A module the import machinery can locate: [mod_exec] is what running
    its top-level code raises, if anything. *)
Record PyModule : Type := {
  mod_exec : option PyError;
  mod_setup : SetupAttr;
}.

(** [callable(getattr(module, "setup", None))] *)
Definition has_callable_setup (m : PyModule) : bool :=
  match mod_setup m with SetupCallable _ _ => true | _ => false end.

(** ** Events *)

Inductive LogLevel : Type := TRACE | DEBUG | INFO | WARNING | ERROR.

Inductive LogArg : Type :=
  | AStr (s : string)
  | AInt (n : Z).

(** What the bot tells its collaborators.  A log record keeps the message
    and the positional arguments as the call site has them (the logger does
    the formatting) and the exception attached with
    [logger.opt(exception=...)], if any. *)
Inductive Event : Type :=
  | Log (level : LogLevel) (message : string) (args : list LogArg)
        (exception : option PyError)
  | SentrySpan (op name : string)
  | SentryTransaction (op name : string)
  | LoadGitData
  | GetGuild (id : Z)
  | GetGuilds
  | GetChannel (id : Z)
  | GuildGetChannel (guild : GuildRef) (id : Z)
  | GuildEmojis (guild : GuildRef)
  | ChannelSend (channel : Z) (content : string)
  | DirectMessage (user : Z) (content : string)
  | FilterCheck (message : Message)
  | Dispatch (event : string) (message : Message).

(** ** The bot *)

(** The cached value of an emoji label: a platform emoji, or the string
    that [load_emojis] stores for a missing one (the dictionary is
    annotated [dict[EmojiName, dc.Emoji]], the code stores a [str]). *)
Inductive EmojiValue : Type :=
  | RealEmoji (e : Emoji)
  | Glyph (s : string).

(** The state of a [GhosttyBot] and of the process around it.  The four
    [_cache] fields are the slots that [dc.utils.cached_property] fills in
    the instance dictionary.  [logger_min_level] is loguru's
    [core.min_level], the least level number among the handlers of the
    logger: 10 with the default handler, which takes [DEBUG]. *)
Record Bot : Type := {
  config : Config;
  gateway : Gateway;
  component_names : list string;
  modtree : gmap string PyModule;
  sys_modules : gset string;
  extensions : gset string;
  cogs : gmap string Cog;
  _ghostty_emojis : gmap string EmojiValue;
  ghostty_guild_cache : option GuildRef;
  log_channel_cache : option Channel;
  help_channel_cache : option Channel;
  webhook_channels_cache : option (gmap string Channel);
  events : list Event;
  logger_min_level : Z;
}.

Definition set_gateway (gw : Gateway) (b : Bot) : Bot :=
  {| config := config b; gateway := gw;
     component_names := component_names b; modtree := modtree b;
     sys_modules := sys_modules b; extensions := extensions b;
     cogs := cogs b; _ghostty_emojis := _ghostty_emojis b;
     ghostty_guild_cache := ghostty_guild_cache b;
     log_channel_cache := log_channel_cache b;
     help_channel_cache := help_channel_cache b;
     webhook_channels_cache := webhook_channels_cache b;
     events := events b;
     logger_min_level := logger_min_level b |}.

Definition set_sys_modules (s : gset string) (b : Bot) : Bot :=
  {| config := config b; gateway := gateway b;
     component_names := component_names b; modtree := modtree b;
     sys_modules := s; extensions := extensions b;
     cogs := cogs b; _ghostty_emojis := _ghostty_emojis b;
     ghostty_guild_cache := ghostty_guild_cache b;
     log_channel_cache := log_channel_cache b;
     help_channel_cache := help_channel_cache b;
     webhook_channels_cache := webhook_channels_cache b;
     events := events b;
     logger_min_level := logger_min_level b |}.

Definition set_extensions (s : gset string) (b : Bot) : Bot :=
  {| config := config b; gateway := gateway b;
     component_names := component_names b; modtree := modtree b;
     sys_modules := sys_modules b; extensions := s;
     cogs := cogs b; _ghostty_emojis := _ghostty_emojis b;
     ghostty_guild_cache := ghostty_guild_cache b;
     log_channel_cache := log_channel_cache b;
     help_channel_cache := help_channel_cache b;
     webhook_channels_cache := webhook_channels_cache b;
     events := events b;
     logger_min_level := logger_min_level b |}.

Definition set_ghostty_emojis (m : gmap string EmojiValue) (b : Bot) : Bot :=
  {| config := config b; gateway := gateway b;
     component_names := component_names b; modtree := modtree b;
     sys_modules := sys_modules b; extensions := extensions b;
     cogs := cogs b; _ghostty_emojis := m;
     ghostty_guild_cache := ghostty_guild_cache b;
     log_channel_cache := log_channel_cache b;
     help_channel_cache := help_channel_cache b;
     webhook_channels_cache := webhook_channels_cache b;
     events := events b;
     logger_min_level := logger_min_level b |}.

Definition set_ghostty_guild_cache (g : option GuildRef) (b : Bot) : Bot :=
  {| config := config b; gateway := gateway b;
     component_names := component_names b; modtree := modtree b;
     sys_modules := sys_modules b; extensions := extensions b;
     cogs := cogs b; _ghostty_emojis := _ghostty_emojis b;
     ghostty_guild_cache := g;
     log_channel_cache := log_channel_cache b;
     help_channel_cache := help_channel_cache b;
     webhook_channels_cache := webhook_channels_cache b;
     events := events b;
     logger_min_level := logger_min_level b |}.

Definition set_log_channel_cache (c : option Channel) (b : Bot) : Bot :=
  {| config := config b; gateway := gateway b;
     component_names := component_names b; modtree := modtree b;
     sys_modules := sys_modules b; extensions := extensions b;
     cogs := cogs b; _ghostty_emojis := _ghostty_emojis b;
     ghostty_guild_cache := ghostty_guild_cache b;
     log_channel_cache := c;
     help_channel_cache := help_channel_cache b;
     webhook_channels_cache := webhook_channels_cache b;
     events := events b;
     logger_min_level := logger_min_level b |}.

Definition set_help_channel_cache (c : option Channel) (b : Bot) : Bot :=
  {| config := config b; gateway := gateway b;
     component_names := component_names b; modtree := modtree b;
     sys_modules := sys_modules b; extensions := extensions b;
     cogs := cogs b; _ghostty_emojis := _ghostty_emojis b;
     ghostty_guild_cache := ghostty_guild_cache b;
     log_channel_cache := log_channel_cache b;
     help_channel_cache := c;
     webhook_channels_cache := webhook_channels_cache b;
     events := events b;
     logger_min_level := logger_min_level b |}.

Definition set_webhook_channels_cache
    (m : option (gmap string Channel)) (b : Bot) : Bot :=
  {| config := config b; gateway := gateway b;
     component_names := component_names b; modtree := modtree b;
     sys_modules := sys_modules b; extensions := extensions b;
     cogs := cogs b; _ghostty_emojis := _ghostty_emojis b;
     ghostty_guild_cache := ghostty_guild_cache b;
     log_channel_cache := log_channel_cache b;
     help_channel_cache := help_channel_cache b;
     webhook_channels_cache := m;
     events := events b;
     logger_min_level := logger_min_level b |}.

Definition set_events (l : list Event) (b : Bot) : Bot :=
  {| config := config b; gateway := gateway b;
     component_names := component_names b; modtree := modtree b;
     sys_modules := sys_modules b; extensions := extensions b;
     cogs := cogs b; _ghostty_emojis := _ghostty_emojis b;
     ghostty_guild_cache := ghostty_guild_cache b;
     log_channel_cache := log_channel_cache b;
     help_channel_cache := help_channel_cache b;
     webhook_channels_cache := webhook_channels_cache b;
     events := l;
     logger_min_level := logger_min_level b |}.

Definition set_logger_min_level (level : Z) (b : Bot) : Bot :=
  {| config := config b; gateway := gateway b;
     component_names := component_names b; modtree := modtree b;
     sys_modules := sys_modules b; extensions := extensions b;
     cogs := cogs b; _ghostty_emojis := _ghostty_emojis b;
     ghostty_guild_cache := ghostty_guild_cache b;
     log_channel_cache := log_channel_cache b;
     help_channel_cache := help_channel_cache b;
     webhook_channels_cache := webhook_channels_cache b;
     events := events b;
     logger_min_level := level |}.

(** ** The monad: state of the bot, and Python exceptions *)

Inductive Outcome (A : Type) : Type :=
  | Return (a : A)
  | Raise (e : PyError).
Arguments Return {A} a.
Arguments Raise {A} e.

Definition M (A : Type) : Type := Bot → Outcome A * Bot.

Global Instance M_ret : MRet M := λ A a b, (Return a, b).

Global Instance M_bind : MBind M := λ A B f m b,
  match m b with
  | (Return a, b') => f a b'
  | (Raise e, b') => (Raise e, b')
  end.

Definition raise {A} (e : PyError) : M A := λ b, (Raise e, b).
Definition get_bot : M Bot := λ b, (Return b, b).
Definition update (f : Bot → Bot) : M unit := λ b, (Return tt, f b).

(** Append one event to the record of what the bot did. *)
Definition emit (ev : Event) : M unit :=
  update (λ b : Bot, set_events (events b ++ [ev]) b).

(** [try: body except <classes h accepts>: handler]: [h] returns the
    handler of the first matching [except] clause, [None] when no clause
    matches and the exception goes on. *)
Definition try_except {A} (body : M A) (h : PyError → option (M A)) : M A :=
  λ b, match body b with
       | (Return a, b') => (Return a, b')
       | (Raise e, b') =>
           match h e with
           | Some handler => handler b'
           | None => (Raise e, b')
           end
       end.

(** ** The logger *)

(** loguru's level numbers. *)
Definition level_no (level : LogLevel) : Z :=
  match level with
  | TRACE => 5 | DEBUG => 10 | INFO => 20 | WARNING => 30 | ERROR => 40
  end.

(** A handler of the logger takes the records of [level]. *)
Definition handles (b : Bot) (level : LogLevel) : Prop :=
  logger_min_level b ≤ level_no level.

Global Instance handles_dec b level : Decision (handles b level).
Proof. unfold handles. apply _. Defined.

(** [str.format] of the message with the arguments of the call, which
    loguru evaluates for a record that a
    handler takes when the call has arguments.  Only the exception matters
    here.  The scan goes through the message once: doubled braces are
    literal, a field ends at its closing brace, and the first field that
    cannot be filled decides. *)
Inductive Scan : Type :=
  | InText
  | AfterOpen
  | InField (field : string)
  | AfterClose.

(** Whether the fields so far were numbered by the format itself ("{}")
    or by hand ("{0}"). *)
Inductive Numbering : Type :=
  | NoField
  | Automatic (next : nat)
  | Manual.

Definition is_digit (a : Ascii.ascii) : bool :=
  (48 <=? Ascii.nat_of_ascii a)%nat && (Ascii.nat_of_ascii a <=? 57)%nat.

Fixpoint is_digits (s : string) : bool :=
  match s with
  | EmptyString => true
  | String a r => is_digit a && is_digits r
  end.

Fixpoint index_of_digits (s : string) (acc : nat) : nat :=
  match s with
  | EmptyString => acc
  | String a r => index_of_digits r (10 * acc + (Ascii.nat_of_ascii a - 48))
  end.

(** The name or number of the argument that a field asks for: the field
    up to an attribute, an index, a conversion or a format specification. *)
Fixpoint arg_name (field : string) : string :=
  match field with
  | EmptyString => EmptyString
  | String a r =>
      if Ascii.eqb a "."%char || Ascii.eqb a "["%char
         || Ascii.eqb a "!"%char || Ascii.eqb a ":"%char
      then EmptyString
      else String a (arg_name r)
  end.

(** What looking up the argument of one field raises, with [nargs]
    positional arguments and no keyword arguments. *)
Definition field_error (field : string) (num : Numbering) (nargs : nat)
  : option PyError * Numbering :=
  let arg := arg_name field in
  if String.eqb arg "" then
    match num with
    | Manual =>
        (Some (ValueError ("cannot switch from manual field specification "
                           +:+ "to automatic field numbering")), num)
    | NoField => (if (0 <? nargs)%nat then None else Some IndexError,
                  Automatic 1)
    | Automatic i => (if (i <? nargs)%nat then None else Some IndexError,
                      Automatic (S i))
    end
  else if is_digits arg then
    match num with
    | Automatic _ =>
        (Some (ValueError ("cannot switch from automatic field numbering "
                           +:+ "to manual field specification")), num)
    | _ => (if (index_of_digits arg 0 <? nargs)%nat then None
            else Some IndexError, Manual)
    end
  else (Some (KeyError arg), num).

Fixpoint format_scan (s : string) (st : Scan) (num : Numbering) (nargs : nat)
  : option PyError :=
  match s with
  | EmptyString =>
      match st with
      | InText => None
      | AfterOpen => Some (ValueError "Single '{' encountered in format string")
      | InField _ => Some (ValueError "expected '}' before end of string")
      | AfterClose =>
          Some (ValueError "Single '}' encountered in format string")
      end
  | String a r =>
      match st with
      | InText =>
          if Ascii.eqb a "{"%char then format_scan r AfterOpen num nargs
          else if Ascii.eqb a "}"%char then format_scan r AfterClose num nargs
          else format_scan r InText num nargs
      | AfterOpen =>
          if Ascii.eqb a "{"%char then format_scan r InText num nargs
          else if Ascii.eqb a "}"%char then
            match field_error "" num nargs with
            | (Some e, _) => Some e
            | (None, num') => format_scan r InText num' nargs
            end
          else format_scan r (InField (String a "")) num nargs
      | InField field =>
          if Ascii.eqb a "}"%char then
            match field_error field num nargs with
            | (Some e, _) => Some e
            | (None, num') => format_scan r InText num' nargs
            end
          else format_scan r (InField (field +:+ String a "")) num nargs
      | AfterClose =>
          if Ascii.eqb a "}"%char then format_scan r InText num nargs
          else Some (ValueError "Single '}' encountered in format string")
      end
  end.

Definition format_error (message : string) (nargs : nat) : option PyError :=
  format_scan message InText NoField nargs.

(** A call of the logger.  The event is the call as it is written.  loguru
    returns at once when no handler takes the level; otherwise, when the
    call has arguments, it formats the message with them, and an exception
    of [str.format] goes to the caller.  Both tests are pure, so the one
    on the message comes first here: a call whose message can be
    formatted does not depend on the handlers. *)
Definition logger (level : LogLevel) (message : string) (args : list LogArg)
  : M unit :=
  emit (Log level message args None);;
  match args with
  | [] => mret tt
  | _ :: _ =>
      match format_error message (length args) with
      | None => mret tt
      | Some e =>
          b ← get_bot;
          if bool_decide (handles b level) then raise e else mret tt
      end
  end.

(** ** Extension discovery (lines 194-211) *)

Definition components_prefix : string := "app.components.".

(** [str.startswith] *)
Definition startswith (s p : string) : bool := String.prefix p s.

(** [str.removeprefix] *)
Definition removeprefix (s p : string) : string :=
  if String.prefix p s
  then String.substring (String.length p)
         (String.length s - String.length p) s
  else s.

(** [importlib.util.find_spec]: the module tree is what the import
    machinery can locate; the parent package of a candidate is taken to be
    importable. *)
Definition find_spec (name : string) : M (option PyModule) :=
  b ← get_bot; mret (modtree b !! name).

(** [importlib.import_module]: a module already in [sys.modules] is
    returned as it is; otherwise its top-level code runs, and the module is
    entered in [sys.modules] when that code does not raise. *)
Definition import_module (name : string) : M PyModule :=
  b ← get_bot;
  match modtree b !! name with
  | None => raise (ModuleNotFoundError name)
  | Some m =>
      if bool_decide (name ∈ sys_modules b) then mret m
      else match mod_exec m with
           | Some e => raise e
           | None =>
               update (set_sys_modules ({[name]} ∪ sys_modules b));;
               mret m
           end
  end.

(** [GhosttyBot.is_valid_extension]: the three conjuncts of the source,
    with Python's short-circuit [and]. *)
Definition is_valid_extension (extension : string) : M bool :=
  if startswith extension components_prefix then
    spec ← find_spec extension;
    if bool_decide (is_Some spec) then
      module ← import_module extension;
      mret (has_callable_setup module)
    else mret false
  else mret false.

(** [pkgutil.walk_packages([.../components], "app.components.")]: the
    names the scan of the components directory yields, each with the
    prefix.  [component_names] lists them relative to the directory. *)
Definition walk_packages (b : Bot) : list string :=
  (λ n, components_prefix +:+ n) <$> component_names b.

(** The [for] loop of [get_component_extension_names] over the names still
    to be visited, with the set [modules] built so far. *)
Fixpoint discover_from (names : list string) (modules : gset string)
  : M (gset string) :=
  match names with
  | [] => mret modules
  | name :: rest =>
      valid ← is_valid_extension name;
      discover_from rest (if valid : bool then {[name]} ∪ modules else modules)
  end.

(** [GhosttyBot.get_component_extension_names] *)
Definition get_component_extension_names : M (gset string) :=
  b ← get_bot; discover_from (walk_packages b) ∅.

(** ** The extension loader (lines 68-110) *)

(** [except Exception]: everything but [CancelledError], which derives
    from [BaseException]. *)
Definition is_Exception (e : PyError) : bool :=
  match e with CancelledError => false | _ => true end.

Definition del_sys_module (name : string) : M unit :=
  update (λ b : Bot, set_sys_modules (sys_modules b ∖ {[name]}) b).

(** [commands.Bot.load_extension] up to the point where the coroutine
    [setup(bot)] starts to run: the registry check, [find_spec], the
    execution of the module and the lookup of [setup].  The result is what
    is left of the activation: how often [setup] yields, and how it ends. *)
Definition super_load_extension_begin (name : string)
  : M (nat * option PyError) :=
  b ← get_bot;
  if bool_decide (name ∈ extensions b) then raise (ExtensionAlreadyLoaded name)
  else
    spec ← find_spec name;
    match spec with
    | None => raise (ExtensionNotFound name)
    | Some lib =>
        update (λ b : Bot, set_sys_modules ({[name]} ∪ sys_modules b) b);;
        match mod_exec lib with
        | Some e =>
            if is_Exception e
            then del_sys_module name;; raise (ExtensionFailed name e)
            else raise e
        | None =>
            match mod_setup lib with
            | NoSetup => del_sys_module name;; raise (NoEntryPointError name)
            | SetupNotCallable =>
                mret (0%nat, Some (TypeError "object is not callable"))
            | SetupCallable suspends outcome => mret (suspends, outcome)
            end
        end
    end.

(** The end of [commands.Bot.load_extension]: [setup] has run to its end
    with [outcome].  A failure is wrapped and the module forgotten; a
    success enters the name in the registry of active extensions. *)
Definition super_load_extension_finish (name : string)
    (outcome : option PyError) : M unit :=
  match outcome with
  | Some e =>
      if is_Exception e
      then del_sys_module name;; raise (ExtensionFailed name e)
      else raise e
  | None => update (λ b : Bot, set_extensions ({[name]} ∪ extensions b) b)
  end.

(** The head of [GhosttyBot.load_extension] (lines 70-73): the debug
    record, the tracing span, then the library's loader. *)
Definition load_extension_begin (name : string) : M (nat * option PyError) :=
  let short_name := removeprefix name components_prefix in
  logger DEBUG "loading extension {}" [AStr short_name];;
  emit (SentrySpan "bot.load_extension" short_name);;
  super_load_extension_begin name.

(** [GhosttyBot.load_extension], awaited to its end. *)
Definition load_extension (name : string) : M unit :=
  coro ← load_extension_begin name;
  super_load_extension_finish name coro.2.

(** [commands.Bot.unload_extension], which the class inherits: a name
    that is not active raises; otherwise the module is torn down and leaves
    the registry and [sys.modules]. *)
Definition unload_extension (name : string) : M unit :=
  b ← get_bot;
  if bool_decide (name ∈ extensions b) then
    update (λ b : Bot, set_extensions (extensions b ∖ {[name]}) b);;
    del_sys_module name
  else raise (ExtensionNotLoaded name).

Inductive Operation : Type := load | unload.

Definition operation_str (operation : Operation) : string :=
  match operation with load => "load" | unload => "unload" end.

(** [try: body / except ...: handlers / else: orelse] *)
Definition try_except_else {A B} (body : M A) (h : PyError → option (M B))
    (orelse : A → M B) : M B :=
  λ b, match body b with
       | (Return a, b') => orelse a b'
       | (Raise e, b') =>
           match h e with
           | Some handler => handler b'
           | None => (Raise e, b')
           end
       end.

Section Loader.
(** [app.utils.pretty_print_account] and [str()] of an account: neither
    is in the source tree, and the loader only prints with them. *)
Variable pretty_print_account : Account → string.
Variable str_account : Account → string.

Definition extension_operation (operation : Operation)
  : string → M unit :=
  match operation with
  | load => load_extension
  | unload => unload_extension
  end.

(** The record of the [except commands.ExtensionFailed] clause. *)
Definition failed_record (operation : Operation) (name : string)
    (user : option Account) (error : PyError) : Event :=
  Log ERROR
    (match user with Some u => pretty_print_account u +:+ " " | None => "" end
     +:+ "failed to " +:+ operation_str operation +:+ " `" +:+ name +:+ "`")
    [] (Some error).

(** The record of the [except commands.ExtensionError] clause. *)
Definition warning_record (operation : Operation) (name : string)
    (user : option Account) (error : PyError) : Event :=
  Log WARNING
    (match user with Some u => str_account u +:+ " " | None => "" end
     +:+ "failed to " +:+ operation_str operation +:+ " `" +:+ name +:+ "`: "
     +:+ str_error error)
    [] None.

(** [GhosttyBot._try_extension] *)
Definition _try_extension (operation : Operation) (name : string)
    (user : option Account) : M bool :=
  try_except_else (extension_operation operation name)
    (λ error,
       if is_ExtensionFailed error then
         Some (emit (failed_record operation name user error);; mret false)
       else if is_ExtensionError error then
         Some (emit (warning_record operation name user error);; mret false)
       else None)
    (λ _, mret true).

Definition try_load_extension (name : string) (user : option Account)
  : M bool := _try_extension load name user.

Definition try_unload_extension (name : string) (user : option Account)
  : M bool := _try_extension unload name user.
End Loader.

(** ** The resource cache (lines 126-168) *)

(** What [Client.get_guild] finds in the cache [gw]: the guild with this
    id. *)
Definition cached_guild (gw : Gateway) (id : Z) : option GuildRef :=
  List.find (λ r, bool_decide (guild_id (guild_objects gw r) = id))
    (guilds gw).

(** [Client.get_guild] *)
Definition get_guild (id : Z) : M (option GuildRef) :=
  emit (GetGuild id);;
  b ← get_bot;
  mret (cached_guild (gateway b) id).

(** [Client.guilds[i]] *)
Definition guilds_item (i : nat) : M GuildRef :=
  emit GetGuilds;;
  b ← get_bot;
  match guilds (gateway b) !! i with
  | Some r => mret r
  | None => raise IndexError
  end.

(** The first guild of [gs] that has a channel [id]. *)
Fixpoint resolve_channel (gw : Gateway) (id : Z) (gs : list GuildRef)
  : option Channel :=
  match gs with
  | [] => None
  | r :: rest =>
      match guild_channels (guild_objects gw r) !! id with
      | Some c => Some c
      | None => resolve_channel gw id rest
      end
  end.

(** What [Client.get_channel] finds in the cache [gw]: a private channel,
    else the channel with this id of the first guild that has one. *)
Definition cached_channel (gw : Gateway) (id : Z) : option Channel :=
  match private_channels gw !! id with
  | Some c => Some c
  | None => resolve_channel gw id (guilds gw)
  end.

(** [Client.get_channel] *)
Definition get_channel (id : Z) : M (option Channel) :=
  emit (GetChannel id);;
  b ← get_bot;
  mret (cached_channel (gateway b) id).

(** [Guild.get_channel] on the guild object [guild]. *)
Definition guild_get_channel (guild : GuildRef) (id : Z) : M (option Channel) :=
  emit (GuildGetChannel guild id);;
  b ← get_bot;
  mret (guild_channels (guild_objects (gateway b) guild) !! id).

(** [Guild.emojis] on the guild object [guild]. *)
Definition guild_emojis_of (guild : GuildRef) : M (list Emoji) :=
  emit (GuildEmojis guild);;
  b ← get_bot;
  mret (guild_emojis (guild_objects (gateway b) guild)).

Definition guild_name_of (guild : GuildRef) : M string :=
  b ← get_bot; mret (guild_name (guild_objects (gateway b) guild)).

Definition guild_id_of (guild : GuildRef) : M Z :=
  b ← get_bot; mret (guild_id (guild_objects (gateway b) guild)).

(** [dc.utils.cached_property]: the first access that returns stores the
    value in the instance; afterwards the stored value shadows the
    property and [function] is not called. *)
Definition cached_property {A} (slot : Bot → option A)
    (store : option A → Bot → Bot) (function : M A) : M A :=
  b ← get_bot;
  match slot b with
  | Some value => mret value
  | None =>
      value ← function;
      update (store (Some value));;
      mret value
  end.

(** The message of the fallback record of lines 132-137. *)
Definition fallback_message : string :=
  "BOT_GUILD_ID unset or specified guild not found; using bot's first guild: "
  +:+ "{} (ID: {})".

(** The body of [GhosttyBot.ghostty_guild] (lines 128-138).  A guild id of
    [None] or [0] is false for [and]; the arguments of the fallback record
    are evaluated before it is logged. *)
Definition ghostty_guild_body : M GuildRef :=
  logger DEBUG "fetching ghostty guild" [];;
  b ← get_bot;
  guild ← match guild_id_cfg (config b) with
          | Some id => if bool_decide (id = 0) then mret None else get_guild id
          | None => mret None
          end;
  match guild with
  | Some guild => logger TRACE "found ghostty guild" [];; mret guild
  | None =>
      g0 ← guilds_item 0;
      name ← guild_name_of g0;
      g0' ← guilds_item 0;
      id ← guild_id_of g0';
      logger INFO fallback_message [AStr name; AInt id];;
      guilds_item 0
  end.

Definition ghostty_guild : M GuildRef :=
  cached_property ghostty_guild_cache set_ghostty_guild_cache
    ghostty_guild_body.

(** [assert isinstance(channel, kind)] on the result of a lookup. *)
Definition assert_isinstance (channel : option Channel) (kind : ChannelKind)
  : M Channel :=
  match channel with
  | Some c =>
      if bool_decide (channel_kind c = kind) then mret c
      else raise AssertionError
  | None => raise AssertionError
  end.

Definition log_channel_body : M Channel :=
  logger DEBUG "fetching log channel" [];;
  b ← get_bot;
  channel ← get_channel (log_channel_id (config b));
  assert_isinstance channel TextChannel.

Definition log_channel : M Channel :=
  cached_property log_channel_cache set_log_channel_cache log_channel_body.

Definition help_channel_body : M Channel :=
  logger DEBUG "fetching help channel" [];;
  b ← get_bot;
  channel ← get_channel (help_channel_id (config b));
  assert_isinstance channel ForumChannel.

Definition help_channel : M Channel :=
  cached_property help_channel_cache set_help_channel_cache help_channel_body.

(** The two messages of line 161-165, formatted with the feed type. *)
Definition webhook_error (channel : option Channel) (feed_type : string)
  : PyError :=
  TypeError
    (match channel with
     | Some _ =>
         "expected " +:+ feed_type +:+ " webhook channel to be a text channel"
     | None => "failed to find " +:+ feed_type +:+ " webhook channel"
     end).

(** The [for] loop of [webhook_channels] over the items still to be
    visited, with the dictionary [channels] built so far. *)
Fixpoint webhook_channels_from (items : list (string * Z))
    (channels : gmap string Channel) : M (gmap string Channel) :=
  match items with
  | [] => mret channels
  | (feed_type, id_) :: rest =>
      logger DEBUG "fetching {feed_type} webhook channel" [AStr feed_type];;
      guild ← ghostty_guild;
      channel ← guild_get_channel guild id_;
      match channel with
      | Some c =>
          if bool_decide (channel_kind c = TextChannel)
          then webhook_channels_from rest (<[feed_type := c]> channels)
          else raise (webhook_error channel feed_type)
      | None => raise (webhook_error channel feed_type)
      end
  end.

Definition webhook_channels_body : M (gmap string Channel) :=
  b ← get_bot;
  webhook_channels_from (webhook_channel_ids (config b)) ∅.

Definition webhook_channels : M (gmap string Channel) :=
  cached_property webhook_channels_cache set_webhook_channels_cache
    webhook_channels_body.

(** ** The emoji cache (lines 28-41, 61-62, 213-224) *)

(** [get_args(EmojiName)]: the twelve labels of the [Literal]. *)
Definition EmojiName : list string :=
  [ "commit"; "discussion"; "discussion_answered"; "discussion_duplicate";
    "discussion_outdated"; "issue_closed_completed"; "issue_closed_unplanned";
    "issue_open"; "pull_closed"; "pull_draft"; "pull_merged"; "pull_open" ].

(** The string stored for a label that the guild has no emoji for. *)
Definition placeholder : string := "❓".

(** [self.ghostty_emojis[label]]: the [MappingProxyType] view reads the
    dictionary it wraps. *)
Definition ghostty_emojis (b : Bot) (label : string) : option EmojiValue :=
  _ghostty_emojis b !! label.

(** The [for] loop of lines 216-218 over the guild's emojis. *)
Definition store_emojis (valid_emoji_names : gset string)
    (emojis : list Emoji) (cache : gmap string EmojiValue)
  : gmap string EmojiValue :=
  foldl (λ cache emoji,
           if bool_decide (emoji_name emoji ∈ valid_emoji_names)
           then <[emoji_name emoji := RealEmoji emoji]> cache
           else cache)
        cache emojis.

(** [TextChannel.send]: the platform delivers the message or refuses. *)
Definition channel_send (channel : Channel) (content : string) : M unit :=
  b ← get_bot;
  match send_error (gateway b) with
  | Some e => raise e
  | None => emit (ChannelSend (channel_id channel) content)
  end.

(** The text of the consolidated warning of line 222. *)
Definition missing_message (missing_emojis : gset string) : string :=
  "Failed to load the following emojis: "
  +:+ String.concat ", " (elements missing_emojis).

(** [GhosttyBot.load_emojis] for a set of expected labels. *)
Definition load_emojis_for (valid_emoji_names : gset string) : M unit :=
  guild ← ghostty_guild;
  emojis ← guild_emojis_of guild;
  update (λ b : Bot,
    set_ghostty_emojis
      (store_emojis valid_emoji_names emojis (_ghostty_emojis b)) b);;
  b ← get_bot;
  let missing_emojis := valid_emoji_names ∖ dom (_ghostty_emojis b) in
  if bool_decide (missing_emojis = ∅) then mret tt
  else
    channel ← log_channel;
    channel_send channel (missing_message missing_emojis);;
    update (λ b : Bot,
      set_ghostty_emojis
        (gset_to_gmap (Glyph placeholder) missing_emojis ∪ _ghostty_emojis b)
        b).

(** [GhosttyBot.load_emojis]: the expected labels are
    [frozenset(get_args(EmojiName))]. *)
Definition load_emojis : M unit := load_emojis_for (list_to_set EmojiName).

(** ** The message gate (lines 174-192) *)

(** [Bot.get_cog] *)
Definition get_cog (name : string) : M (option Cog) :=
  b ← get_bot; mret (cogs b !! name).

(** [GhosttyBot._fails_message_filters]: [check] runs only when the cog is
    there. *)
Definition _fails_message_filters (message : Message) : M bool :=
  message_filter ← get_cog "MessageFilter";
  match message_filter with
  | Some cog => emit (FilterCheck message);; mret (check cog message)
  | None => mret false
  end.

(** Modelled from the spec: [app.utils.try_dm], which is not in the source
    tree: the direct message "triggers a fixed reply". *)
Definition try_dm (account : Account) (content : string) : M unit :=
  emit (DirectMessage (account_id account) content).

(** [Bot.dispatch] *)
Definition dispatch (event : string) (message : Message) : M unit :=
  emit (Dispatch event message).

Section MessageGate.
(** [app.utils.REGULAR_MESSAGE_TYPES] and [pretty_print_account] are
    imported from a module that is not in the source tree. *)
Variable REGULAR_MESSAGE_TYPES : gset Z.
Variable pretty_print_account : Account → string.

(** [GhosttyBot.on_message] *)
Definition on_message (message : Message) : M unit :=
  if account_bot (message_author message)
     || negb (bool_decide (message_type message ∈ REGULAR_MESSAGE_TYPES))
  then mret tt
  else if bool_decide (message_guild message = None)
          && String.eqb (message_content message) "ping"
  then
    logger DEBUG "ping sent by {}"
      [AStr (pretty_print_account (message_author message))];;
    try_dm (message_author message) "pong"
  else
    fails ← _fails_message_filters message;
    if fails : bool then mret tt
    else dispatch "message_filter_passed" message.
End MessageGate.

(** ** The bootstrap (lines 112-119) *)

(** [setup_hook] hands one coroutine [self.load_extension(extension)] per
    discovered name to an [asyncio.TaskGroup].  A task has not started yet,
    is suspended inside [setup] with [remaining] further yields to come, or
    is done with a result ([None]: it returned). *)
Inductive TaskState : Type :=
  | Created
  | Suspended (remaining : nat) (outcome : option PyError)
  | Done (result : option PyError).

(** [must_cancel]: [Task.cancel()] was called and the next step throws
    [CancelledError] into the coroutine; [in_group]: the task is still in
    the group's set of unfinished tasks. *)
Record Task : Type := {
  task_name : string;
  task_state : TaskState;
  must_cancel : bool;
  in_group : bool;
}.

(** What the event loop has in its queue: the next step of task [i], or
    the group's done callback for task [i]. *)
Inductive Callback : Type :=
  | Step (i : nat)
  | OnTaskDone (i : nat).

Global Instance Callback_eq_dec : EqDecision Callback.
Proof. solve_decision. Defined.

Record Loop : Type := {
  loop_tasks : list Task;
  loop_ready : list Callback;
  group_errors : list PyError;
  group_aborting : bool;
  loop_bot : Bot;
}.

Definition set_task_state (s : TaskState) (t : Task) : Task :=
  {| task_name := task_name t; task_state := s;
     must_cancel := must_cancel t; in_group := in_group t |}.

(** The state of a task whose coroutine ran to its end. *)
Definition finished (r : Outcome unit * Bot) : TaskState * Bot :=
  match r with
  | (Return _, b) => (Done None, b)
  | (Raise e, b) => (Done (Some e), b)
  end.

(** One step of a task, up to its next yield or its end.  A cancelled
    task gets [CancelledError] thrown in where it waits; nothing of
    [load_extension] catches it. *)
Definition task_step (t : Task) (b : Bot) : TaskState * Bot :=
  match task_state t with
  | Done r => (Done r, b)
  | Created =>
      if must_cancel t then (Done (Some CancelledError), b)
      else
        match load_extension_begin (task_name t) b with
        | (Raise e, b') => (Done (Some e), b')
        | (Return (O, outcome), b') =>
            finished (super_load_extension_finish (task_name t) outcome b')
        | (Return (S k, outcome), b') => (Suspended k outcome, b')
        end
  | Suspended remaining outcome =>
      if must_cancel t then (Done (Some CancelledError), b)
      else
        match remaining with
        | O => finished (super_load_extension_finish (task_name t) outcome b)
        | S k => (Suspended k outcome, b)
        end
  end.

Definition is_done (s : TaskState) : bool :=
  match s with Done _ => true | _ => false end.

(** [Task.cancel()] as [TaskGroup._abort] calls it on the tasks of the
    group that are not done. *)
Definition cancel (t : Task) : Task :=
  if in_group t && negb (is_done (task_state t))
  then {| task_name := task_name t; task_state := task_state t;
          must_cancel := true; in_group := in_group t |}
  else t.

Definition leave_group (t : Task) : Task :=
  {| task_name := task_name t; task_state := task_state t;
     must_cancel := must_cancel t; in_group := false |}.

Definition set_ready (r : list Callback) (l : Loop) : Loop :=
  {| loop_tasks := loop_tasks l; loop_ready := r;
     group_errors := group_errors l; group_aborting := group_aborting l;
     loop_bot := loop_bot l |}.

(** [Task.__step] for task [i]; the loop then has the task's next step or
    the done callback at the end of its queue. *)
Definition run_step (i : nat) (l : Loop) : Loop :=
  match loop_tasks l !! i with
  | None => l
  | Some t =>
      if is_done (task_state t) then l
      else
        let '(s, b) := task_step t (loop_bot l) in
        {| loop_tasks := <[i := set_task_state s t]> (loop_tasks l);
           loop_ready :=
             loop_ready l ++ [if is_done s then OnTaskDone i else Step i];
           group_errors := group_errors l;
           group_aborting := group_aborting l;
           loop_bot := b |}
  end.

(** [TaskGroup._on_task_done] for task [i]: the task leaves the group; a
    cancelled task or one that returned is done with; the exception of any
    other is kept, and the first one aborts the group. *)
Definition run_on_task_done (i : nat) (l : Loop) : Loop :=
  match loop_tasks l !! i with
  | None => l
  | Some t =>
      let tasks := <[i := leave_group t]> (loop_tasks l) in
      match task_state t with
      | Done (Some e) =>
          if is_Exception e then
            {| loop_tasks :=
                 if group_aborting l then tasks else cancel <$> tasks;
               loop_ready := loop_ready l;
               group_errors := group_errors l ++ [e];
               group_aborting := true;
               loop_bot := loop_bot l |}
          else
            {| loop_tasks := tasks; loop_ready := loop_ready l;
               group_errors := group_errors l;
               group_aborting := group_aborting l; loop_bot := loop_bot l |}
      | _ =>
          {| loop_tasks := tasks; loop_ready := loop_ready l;
             group_errors := group_errors l;
             group_aborting := group_aborting l; loop_bot := loop_bot l |}
      end
  end.

Definition run_callback (cb : Callback) (l : Loop) : Loop :=
  match cb with
  | Step i => run_step i l
  | OnTaskDone i => run_on_task_done i l
  end.

(** One iteration of the event loop.  asyncio runs its queue in order;
    which suspended task is woken first depends on what it waits for, so
    the callback that runs next is the [choice]-th of the queue, for an
    arbitrary [choice]. *)
Definition loop_iteration (choice : nat) (l : Loop) : Loop :=
  let n := (choice `mod` length (loop_ready l))%nat in
  match loop_ready l !! n with
  | None => l
  | Some cb => run_callback cb (set_ready (delete n (loop_ready l)) l)
  end.

(** The event loop until the queue is empty, which is when
    [TaskGroup.__aexit__] has all its tasks done; [None] when [fuel]
    iterations do not get there.  [sched] gives the choices, the loop runs
    in queue order once it is used up. *)
Fixpoint run_loop (sched : list nat) (fuel : nat) (l : Loop) : option Loop :=
  match loop_ready l with
  | [] => Some l
  | _ :: _ =>
      match fuel with
      | O => None
      | S fuel' =>
          run_loop (tail sched) fuel' (loop_iteration (hd 0%nat sched) l)
      end
  end.

(** [group.create_task(...)] for every name, before any task runs. *)
Definition create_tasks (names : list string) (b : Bot) : Loop :=
  {| loop_tasks :=
       (λ n, {| task_name := n; task_state := Created;
                must_cancel := false; in_group := true |}) <$> names;
     loop_ready := Step <$> seq 0 (length names);
     group_errors := [];
     group_aborting := false;
     loop_bot := b |}.

(** The head of [setup_hook]: the transaction, the status collaborator,
    and the discovery whose result the [for] loop iterates. *)
Definition setup_hook_head : M (gset string) :=
  emit (SentryTransaction "bot.setup" "Initial load");;
  emit LoadGitData;;
  get_component_extension_names.

(** The end of [setup_hook]: the group raises what its tasks raised, all
    in one [ExceptionGroup]; without errors the count is logged. *)
Definition setup_hook_tail (l : Loop) : Outcome unit * Bot :=
  match group_errors l with
  | [] =>
      logger INFO "loaded {} extensions"
        [AInt (Z.of_nat (size (extensions (loop_bot l))))] (loop_bot l)
  | _ :: _ =>
      (Raise (ExceptionGroup "unhandled errors in a TaskGroup"
                (group_errors l)),
       loop_bot l)
  end.

(** [GhosttyBot.setup_hook].  Of the head only the discovery can raise;
    it is evaluated inside the [async with] block, and the group wraps
    the exception of its body like those of its tasks. *)
Definition setup_hook (sched : list nat) (fuel : nat) (b : Bot)
  : option (Outcome unit * Bot) :=
  match setup_hook_head b with
  | (Raise e, b1) =>
      Some (Raise (if is_Exception e
                   then ExceptionGroup "unhandled errors in a TaskGroup" [e]
                   else e), b1)
  | (Return names, b1) =>
      setup_hook_tail <$> run_loop sched fuel (create_tasks (elements names) b1)
  end.

(** ** Login (lines 121-124) *)

(** The bot with the two collaborators that [on_ready] touches: the
    status object, of which the login time is what [on_ready] writes, and
    [Client.user]. *)
Record Session : Type := {
  session_bot : Bot;
  last_login_time : option Z;
  client_user : option Account;
}.

Definition set_session_bot (b : Bot) (s : Session) : Session :=
  {| session_bot := b; last_login_time := last_login_time s;
     client_user := client_user s |}.

Definition set_last_login_time (t : option Z) (s : Session) : Session :=
  {| session_bot := session_bot s; last_login_time := t;
     client_user := client_user s |}.

Section Login.
(** [str()] of an account, which is not in the source tree. *)
Variable str_account : Account → string.

(** The argument of the login record: [self.user], which is [None]
    before the client has logged in. *)
Definition user_arg (s : Session) : LogArg :=
  AStr match client_user s with
       | Some u => str_account u
       | None => "None"
       end.

(** [GhosttyBot.on_ready], with [now] the reading of the clock. *)
Definition on_ready (now : Z) (s : Session) : Outcome unit * Session :=
  let s1 := set_last_login_time (Some now) s in
  match load_emojis (session_bot s1) with
  | (Raise e, b') => (Raise e, set_session_bot b' s1)
  | (Return _, b') =>
      let '(r, b'') := logger INFO "logged in as {}" [user_arg s1] b' in
      (r, set_session_bot b'' s1)
  end.
End Login.

(** ** Vocabulary of the statements *)

(** What importing [name] raises in state [b]: the exception of the
    module's top-level code, unless the module is already imported. *)
Definition import_error (b : Bot) (name : string) : option PyError :=
  match modtree b !! name with
  | Some m => if bool_decide (name ∈ sys_modules b) then None else mod_exec m
  | None => None
  end.

(** The module system resolves [name] to a module with a callable
    [setup]. *)
Definition exposes_setup (b : Bot) (name : string) : bool :=
  match modtree b !! name with
  | Some m => has_callable_setup m
  | None => false
  end.

(** What the bot told its collaborators between the states [b] and
    [b']. *)
Definition emitted (b b' : Bot) : list Event :=
  drop (length (events b)) (events b').

(** The record of the fallback to the first guild. *)
Definition fallback_record (g : Guild) : Event :=
  Log INFO fallback_message [AStr (guild_name g); AInt (guild_id g)] None.

(** An accessor is memoized in [slot]: an access that returns leaves its
    value in the slot, and an access with the value in the slot returns it
    and does nothing else, whatever the rest of the state is. *)
Definition memoized {A} (slot : Bot → option A) (accessor : M A) : Prop :=
  ∀ b v b1, accessor b = (Return v, b1) →
    slot b1 = Some v
    ∧ ∀ b2, slot b2 = Some v → accessor b2 = (Return v, b2).

(** What the loop of [webhook_channels] comes to on the guild state [g]:
    the exception of the first feed type whose channel is missing or not a
    text channel, else the finished dictionary. *)
Fixpoint webhook_outcome (g : Guild) (items : list (string * Z))
    (channels : gmap string Channel) : Outcome (gmap string Channel) :=
  match items with
  | [] => Return channels
  | (feed_type, id_) :: rest =>
      match guild_channels g !! id_ with
      | Some c =>
          if bool_decide (channel_kind c = TextChannel)
          then webhook_outcome g rest (<[feed_type := c]> channels)
          else Raise (webhook_error (Some c) feed_type)
      | None => Raise (webhook_error None feed_type)
      end
  end.

(** The feed type [feed_type] is configured with a channel that the guild
    [g] does not have, or has with another type than text. *)
Definition misconfigured_feed (g : Guild) (item : string * Z) : Prop :=
  match guild_channels g !! item.2 with
  | Some c => channel_kind c ≠ TextChannel
  | None => True
  end.

(** The emoji of the list that a label gets: the last one with that
    name, since a later emoji overwrites an earlier one in the loop. *)
Definition named_emoji (emojis : list Emoji) (label : string) : option Emoji :=
  last (filter (λ e, emoji_name e = label) emojis).

(** The channel messages among some events, each with its channel. *)
Definition sends (l : list Event) : list (Z * string) :=
  omap (λ ev, match ev with
              | ChannelSend channel content => Some (channel, content)
              | _ => None
              end) l.

(** How often the [setup] of the module [name] yields to the event loop. *)
Definition suspends_of (b : Bot) (name : string) : nat :=
  match modtree b !! name with
  | Some m =>
      match mod_setup m with
      | SetupCallable suspends _ => suspends
      | _ => 0%nat
      end
  | None => 0%nat
  end.

(** A bound on the steps that a task still takes. *)
Definition steps_left (b : Bot) (t : Task) : nat :=
  match task_state t with
  | Created => 2 + suspends_of b (task_name t)
  | Suspended remaining _ => 1 + remaining
  | Done _ => 0
  end.

(** The measure that every iteration of the event loop decreases: one for
    each callback of the queue, and the steps that are left of the task of
    a [Step]. *)
Definition callback_weight (l : Loop) (cb : Callback) : nat :=
  match cb with
  | Step i =>
      match loop_tasks l !! i with
      | Some t => 1 + steps_left (loop_bot l) t
      | None => 1
      end
  | OnTaskDone _ => 1
  end.

Definition loop_weight (l : Loop) : nat :=
  sum_list (callback_weight l <$> loop_ready l).

(** Iterations of the event loop that are enough for the bootstrap of the
    extensions [names]. *)
Definition bootstrap_fuel (b : Bot) (names : list string) : nat :=
  sum_list ((λ name, 3 + suspends_of b name)%nat <$> names).

(** The activation of [name], awaited on its own in state [b], returns. *)
Definition activates (b : Bot) (name : string) : Prop :=
  ∃ b', load_extension name b = (Return tt, b').


(** The records of a failed load or unload: those at [WARNING] and at
    [ERROR]. *)
Definition is_failure_record (ev : Event) : bool :=
  match ev with
  | Log WARNING _ _ _ | Log ERROR _ _ _ => true
  | _ => false
  end.

(** The queue agrees with the tasks: a task that is not done has its next
    step queued and is in the group; a done task that is still in the
    group has its done callback queued; and a done callback is queued
    only for a done task. *)
Definition consistent (l : Loop) : Prop :=
  (∀ i t, loop_tasks l !! i = Some t →
     (is_done (task_state t) = false →
        Step i ∈ loop_ready l ∧ in_group t = true)
     ∧ (is_done (task_state t) = true → in_group t = true →
        OnTaskDone i ∈ loop_ready l))
  ∧ (∀ i, OnTaskDone i ∈ loop_ready l →
       ∃ t, loop_tasks l !! i = Some t ∧ is_done (task_state t) = true).

(** The bookkeeping of the group: the exception of a task that has left
    the group is among the errors, every error is an extension error, the
    group aborts only with an error, only an aborting group cancels, and
    a task ends with an extension error if it ends with an [Exception]. *)
Definition errors_kept (l : Loop) : Prop :=
  (∀ i t e, loop_tasks l !! i = Some t →
     task_state t = Done (Some e) → is_Exception e = true →
     in_group t = false → e ∈ group_errors l)
  ∧ Forall (λ e, is_ExtensionError e = true) (group_errors l)
  ∧ (group_aborting l = true → group_errors l ≠ [])
  ∧ (∀ i t, loop_tasks l !! i = Some t → must_cancel t = true →
       group_aborting l = true)
  ∧ (∀ i t e, loop_tasks l !! i = Some t →
       task_state t = Done (Some e) → is_Exception e = true →
       is_ExtensionError e = true).

(** The activation of [name] cannot succeed in state [b], and fails with
    an extension error unless it is cancelled first. *)
Definition doomed (b : Bot) (name : string) : Prop :=
  name ∈ extensions b
  ∨ (match modtree b !! name with
     | None => True
     | Some m =>
         match mod_exec m with
         | Some e => is_Exception e = true
         | None =>
             match mod_setup m with
             | SetupCallable _ (Some e) => is_Exception e = true
             | SetupCallable _ None => False
             | _ => True
             end
         end
     end).

(** The activation of [name] succeeds in state [b] unless it is
    cancelled. *)
Definition healthy (b : Bot) (name : string) : Prop :=
  (name ∉ extensions b)
  ∧ ∃ m suspends, modtree b !! name = Some m ∧ mod_exec m = None
                  ∧ mod_setup m = SetupCallable suspends None.

(** A task that cannot return: it is not started and doomed, or it is
    suspended in a [setup] that will raise, or it is done with an
    exception: its own, or the one of its cancellation. *)
Definition failing (b : Bot) (t : Task) : Prop :=
  match task_state t with
  | Created => doomed b (task_name t)
  | Suspended _ outcome => ∃ e, outcome = Some e ∧ is_Exception e = true
  | Done r => ∃ e, r = Some e ∧ (is_Exception e = true ∨ must_cancel t = true)
  end.


(** The registry of active extensions is the one of the start, [ext0],
    and the names of the tasks that returned. *)
Definition registry_tracked (ext0 : gset string) (l : Loop) : Prop :=
  ∀ name, name ∈ extensions (loop_bot l) ↔
    name ∈ ext0
    ∨ ∃ i t, loop_tasks l !! i = Some t ∧ task_name t = name
             ∧ task_state t = Done None.

(** What the loop keeps of the state [b1] in which the tasks were
    created: the registry is tracked, the tasks are those of [names], the
    modules are the same, and the records logged since are no failure
    records. *)
Definition loop_frame (b1 : Bot) (names : list string) (l : Loop) : Prop :=
  registry_tracked (extensions b1) l
  ∧ task_name <$> loop_tasks l = names
  ∧ modtree (loop_bot l) = modtree b1
  ∧ ∃ evs, events (loop_bot l) = (events b1 ++ evs)%list
           ∧ Forall (λ ev, is_failure_record ev = false) evs.


(** Task [k] of the loop cannot return. *)
Definition task_failing (k : nat) (l : Loop) : Prop :=
  ∃ t, loop_tasks l !! k = Some t ∧ failing (loop_bot l) t.

Definition is_step (cb : Callback) : bool :=
  match cb with Step _ => true | OnTaskDone _ => false end.

(** The loop runs its queue in order and no [setup] has waited: the first
    steps that are still queued come before the done callbacks, no task
    has been cancelled, and a task either has not started or is done,
    having returned exactly if its extension was healthy in [b1]. *)
Definition in_queue_order (b1 : Bot) (l : Loop) : Prop :=
  (∃ steps dones,
     loop_ready l = (steps ++ dones)%list
     ∧ Forall (λ cb, is_step cb = true) steps
     ∧ Forall (λ cb, is_step cb = false) dones)
  ∧ ∀ i t, loop_tasks l !! i = Some t →
      must_cancel t = false
      ∧ match task_state t with
        | Created => True
        | Suspended _ _ => False
        | Done r => r = None ↔ healthy b1 (task_name t)
        end.

(** The record that [on_ready] logs at its end. *)
Definition is_login_record (ev : Event) : bool :=
  match ev with
  | Log INFO message _ _ => String.eqb message "logged in as {}"
  | _ => false
  end.

(** A task is on its way to return, or has returned, only if its
    extension was healthy in [b1]. *)
Definition returns_only_healthy (b1 : Bot) (l : Loop) : Prop :=
  ∀ i t, loop_tasks l !! i = Some t →
    match task_state t with
    | Created => True
    | Suspended _ outcome => outcome = None → healthy b1 (task_name t)
    | Done r => r = None → healthy b1 (task_name t)
    end.

(** ** A small bot

    One guild with a text and a forum channel and two emojis, and a
    components directory with five modules: [good] and [slow] activate,
    [bad] has a [setup] that raises, [broken] raises when imported,
    [plain] has no [setup]. *)
Module Sample.
Definition text_channel : Channel :=
  {| channel_id := 100; channel_kind := TextChannel |}.
Definition forum_channel : Channel :=
  {| channel_id := 101; channel_kind := ForumChannel |}.
Definition commit_emoji : Emoji :=
  {| emoji_id := 1; emoji_name := "commit" |}.
Definition other_emoji : Emoji :=
  {| emoji_id := 2; emoji_name := "party" |}.

Definition guild : Guild :=
  {| guild_id := 10; guild_name := "ghostty";
     guild_channels := {[ 100 := text_channel; 101 := forum_channel ]};
     guild_emojis := [commit_emoji; other_emoji] |}.

Definition gw : Gateway :=
  {| guild_objects := λ _, guild; guilds := [0%nat];
     private_channels := ∅; send_error := None |}.

Definition cfg : Config :=
  {| guild_id_cfg := Some 10; log_channel_id := 100;
     help_channel_id := 101;
     webhook_channel_ids := [("main", 100); ("discussions", 101)] |}.

Definition good : PyModule :=
  {| mod_exec := None; mod_setup := SetupCallable 0 None |}.
Definition slow : PyModule :=
  {| mod_exec := None; mod_setup := SetupCallable 1 None |}.
Definition bad : PyModule :=
  {| mod_exec := None;
     mod_setup := SetupCallable 0 (Some (ModuleError "boom")) |}.
Definition broken : PyModule :=
  {| mod_exec := Some (ModuleError "import failed");
     mod_setup := NoSetup |}.

Definition plain : PyModule :=
  {| mod_exec := None; mod_setup := NoSetup |}.

Definition modules : gmap string PyModule :=
  {[ "app.components.good" := good; "app.components.slow" := slow;
     "app.components.bad" := bad; "app.components.broken" := broken;
     "app.components.plain" := plain ]}.

(** A bot as [__init__] leaves it, with [names] in the components
    directory. *)
Definition bot (names : list string) : Bot :=
  {| config := cfg; gateway := gw;
     component_names := names; modtree := modules;
     sys_modules := ∅; extensions := ∅; cogs := ∅;
     _ghostty_emojis := ∅;
     ghostty_guild_cache := None; log_channel_cache := None;
     help_channel_cache := None; webhook_channels_cache := None;
     events := [];
     logger_min_level := 20 |}.

Definition pretty_print_account (a : Account) : string :=
  "<" +:+ account_name a +:+ ">".

(** Three messages: a direct "ping", a guild message, and one a bot
    wrote.  Type 0 is [MessageType.default], 19 [MessageType.reply]. *)
Definition alice : Account :=
  {| account_id := 7; account_name := "alice"; account_bot := false |}.
Definition robot : Account :=
  {| account_id := 8; account_name := "robot"; account_bot := true |}.
Definition regular_types : gset Z := {[ 0; 19 ]}.
Definition ping : Message :=
  {| message_id := 1; message_author := alice; message_type := 0;
     message_guild := None; message_content := "ping" |}.
Definition hello : Message :=
  {| message_id := 2; message_author := alice; message_type := 0;
     message_guild := Some 10; message_content := "hello" |}.
Definition beep : Message :=
  {| message_id := 3; message_author := robot; message_type := 0;
     message_guild := Some 10; message_content := "beep" |}.

(** A gateway that has lost its guilds, and a bot without a configured
    guild id. *)
Definition offline : Gateway :=
  {| guild_objects := λ _, guild; guilds := [];
     private_channels := ∅; send_error := None |}.

Definition unconfigured : Bot :=
  {| config := {| guild_id_cfg := None; log_channel_id := 101;
                  help_channel_id := 100;
                  webhook_channel_ids := [("main", 100); ("discussions", 101)] |};
     gateway := gw;
     component_names := []; modtree := modules;
     sys_modules := ∅; extensions := ∅; cogs := ∅;
     _ghostty_emojis := ∅;
     ghostty_guild_cache := None; log_channel_cache := None;
     help_channel_cache := None; webhook_channels_cache := None;
     events := [];
     logger_min_level := 20 |}.
End Sample.

(** ** More sample modules

    [interrupted] has a [setup] that ends with [CancelledError], which is
    no [Exception]; [elsewhere] is a module with a [setup] outside the
    components namespace. *)
Module Sample2.
Definition interrupted : PyModule :=
  {| mod_exec := None; mod_setup := SetupCallable 0 (Some CancelledError) |}.

Definition modules : gmap string PyModule :=
  {[ "app.components.good" := Sample.good;
     "app.components.bad" := Sample.bad;
     "app.components.plain" := Sample.plain;
     "app.components.interrupted" := interrupted;
     "elsewhere" := Sample.good ]}.

Definition bot (names : list string) : Bot :=
  {| config := Sample.cfg; gateway := Sample.gw;
     component_names := names; modtree := modules;
     sys_modules := ∅; extensions := ∅; cogs := ∅;
     _ghostty_emojis := ∅;
     ghostty_guild_cache := None; log_channel_cache := None;
     help_channel_cache := None; webhook_channels_cache := None;
     events := [];
     logger_min_level := 20 |}.

(** A bot as [__init__] leaves it, with this configuration, gateway and
    cogs. *)
Definition make (c : Config) (g : Gateway) (cg : gmap string Cog) : Bot :=
  {| config := c; gateway := g;
     component_names := []; modtree := modules;
     sys_modules := ∅; extensions := ∅; cogs := cg;
     _ghostty_emojis := ∅;
     ghostty_guild_cache := None; log_channel_cache := None;
     help_channel_cache := None; webhook_channels_cache := None;
     events := [];
     logger_min_level := 20 |}.


(** A configuration whose two feed types both have a text channel of
    the guild, and one without feed types. *)
Definition feeds_cfg : Config :=
  {| guild_id_cfg := Some 10; log_channel_id := 100; help_channel_id := 101;
     webhook_channel_ids := [("main", 100); ("news", 100)] |}.
Definition no_feeds_cfg : Config :=
  {| guild_id_cfg := Some 10; log_channel_id := 100; help_channel_id := 101;
     webhook_channel_ids := [] |}.
Definition feeds : Bot := make feeds_cfg Sample.gw ∅.

(** A gateway whose guild has lost its channels and emojis, and that
    refuses every message. *)
Definition bare_guild : Guild :=
  {| guild_id := 10; guild_name := "ghostty";
     guild_channels := ∅; guild_emojis := [] |}.
Definition muted : Gateway :=
  {| guild_objects := λ _, bare_guild; guilds := [0%nat];
     private_channels := ∅; send_error := Some (HTTPException 403) |}.

(** A session that has not logged in before, on the muted gateway. *)
Definition muted_session : Session :=
  {| session_bot := set_gateway muted (Sample.bot []);
     last_login_time := None; client_user := Some Sample.robot |}.
End Sample2.

(** * Properties *)

(** Unfold the monad and the primitive effects. *)
Ltac unfold_monad :=
  unfold logger, emit, del_sys_module, find_spec, get_cog, dispatch, try_dm,
    update, get_bot, raise, mbind, M_bind, mret, M_ret in *.

(** ** The extension loader *)

Lemma load_extension_returns name b b1 :
  load_extension name b = (Return tt, b1) →
  extensions b1 = {[name]} ∪ extensions b ∧ name ∉ extensions b.
Proof.
  unfold load_extension, load_extension_begin, super_load_extension_begin,
    super_load_extension_finish.
  unfold_monad. simpl. intros H.
  repeat (case_match; simplify_eq/=); try done.
  split; [done | by apply bool_decide_eq_false_1 in H].
Qed.

Lemma load_extension_raises name b e b1 :
  load_extension name b = (Raise e, b1) →
  extensions b1 = extensions b ∧
  (is_ExtensionError e = true ∨ is_Exception e = false).
Proof.
  unfold load_extension, load_extension_begin, super_load_extension_begin,
    super_load_extension_finish.
  unfold_monad. simpl. intros H.
  repeat (case_match; simplify_eq/=); auto.
Qed.

Lemma load_extension_already_loaded name b :
  name ∈ extensions b →
  ∃ b1, load_extension name b = (Raise (ExtensionAlreadyLoaded name), b1).
Proof.
  intros Hin.
  unfold load_extension, load_extension_begin, super_load_extension_begin.
  unfold_monad. simpl. rewrite bool_decide_eq_true_2 by done. eauto.
Qed.

Lemma unload_extension_returns name b b1 :
  unload_extension name b = (Return tt, b1) →
  extensions b1 = extensions b ∖ {[name]} ∧ name ∈ extensions b.
Proof.
  unfold unload_extension. unfold_monad. simpl. intros H.
  case_bool_decide; simplify_eq/=. done.
Qed.

Lemma unload_extension_raises name b e b1 :
  unload_extension name b = (Raise e, b1) →
  b1 = b ∧ e = ExtensionNotLoaded name ∧ name ∉ extensions b.
Proof.
  unfold unload_extension. unfold_monad. simpl. intros H.
  case_bool_decide; simplify_eq/=. done.
Qed.


Lemma extension_operation_raises operation name b e b1 :
  extension_operation operation name b = (Raise e, b1) →
  extensions b1 = extensions b.
Proof.
  destruct operation; simpl; intros H.
  - by destruct (load_extension_raises _ _ _ _ H) as [? _].
  - by destruct (unload_extension_raises _ _ _ _ H) as [-> _].
Qed.

(** C3. [try_load_extension] and [try_unload_extension] return a boolean.
    It is [True] exactly when the operation of the module system returns,
    and then the name is in (load) or out of (unload) the active set.  On
    an extension error the result is [False], the active set is the one
    before the call, and one record is logged: at [ERROR] with the
    exception attached for [ExtensionFailed], at [WARNING] for the other
    extension errors.  Loading an active name and unloading a name that is
    not active are two such errors. *)
Theorem try_extension_boundary (pp str : Account → string)
    (operation : Operation) (name : string) (user : option Account)
    (b : Bot) :
  let attempt := _try_extension pp str operation name user b in
  let target_ok (b' : Bot) :=
    match operation with
    | load => name ∈ extensions b'
    | unload => name ∉ extensions b'
    end in
  (∀ b1, extension_operation operation name b = (Return tt, b1) →
     attempt = (Return true, b1) ∧ target_ok b1)
  ∧ (∀ b', attempt = (Return true, b') →
     extension_operation operation name b = (Return tt, b'))
  ∧ (∀ e b1, extension_operation operation name b = (Raise e, b1) →
     is_ExtensionError e = true →
     ∃ b', attempt = (Return false, b')
       ∧ extensions b' = extensions b
       ∧ events b' = (events b1 ++
           [if is_ExtensionFailed e
            then failed_record pp operation name user e
            else warning_record str operation name user e])%list)
  ∧ (match operation with
     | load => name ∈ extensions b
     | unload => name ∉ extensions b
     end →
     ∃ b', attempt = (Return false, b') ∧ extensions b' = extensions b).
Proof.
  intros attempt target_ok.
  assert (Hraise : ∀ e b1,
    extension_operation operation name b = (Raise e, b1) →
    is_ExtensionError e = true →
    ∃ b', attempt = (Return false, b')
       ∧ extensions b' = extensions b
       ∧ events b' = (events b1 ++
           [if is_ExtensionFailed e
            then failed_record pp operation name user e
            else warning_record str operation name user e])%list).
  { intros e b1 Hop He. subst attempt.
    pose proof (extension_operation_raises _ _ _ _ _ Hop) as Hext.
    unfold _try_extension, try_except_else. rewrite Hop.
    destruct (is_ExtensionFailed e) eqn:Hf.
    - eexists. split; [reflexivity|]. by simpl.
    - rewrite He. eexists. split; [reflexivity|]. by simpl. }
  split; [|split; [|split]].
  - intros b1 H. split.
    + subst attempt. unfold _try_extension, try_except_else.
      by rewrite H.
    + subst target_ok. destruct operation; simpl in *.
      * destruct (load_extension_returns _ _ _ H) as [-> _]. set_solver.
      * destruct (unload_extension_returns _ _ _ H) as [-> _]. set_solver.
  - subst attempt. unfold _try_extension, try_except_else.
    destruct (extension_operation operation name b) as [[[]|e] b1] eqn:Hop.
    + unfold_monad. by intros b' [= <-].
    + unfold_monad. intros b'. repeat case_match; intros; simplify_eq.
  - exact Hraise.
  - intros Htarget. destruct operation.
    + destruct (load_extension_already_loaded name b Htarget) as [b1 Hop].
      destruct (Hraise _ _ Hop eq_refl) as (b' & ? & ? & _). eauto.
    + assert (Hop : extension_operation unload name b
               = (Raise (ExtensionNotLoaded name), b)).
      { simpl. unfold unload_extension. unfold_monad. simpl.
        by rewrite bool_decide_eq_false_2. }
      destruct (Hraise _ _ Hop eq_refl) as (b' & ? & ? & _). eauto.
Qed.

Lemma try_extension_boundary_witness :
  ∃ b', try_load_extension Sample.pretty_print_account account_name
          "app.components.good" None (Sample.bot []) = (Return true, b')
        ∧ "app.components.good" ∈ extensions b'.
Proof.
  destruct (try_extension_boundary Sample.pretty_print_account account_name
              load "app.components.good" None (Sample.bot [])) as [H _].
  eexists. apply H. vm_compute. reflexivity.
Defined.

(** ** Extension discovery *)

Lemma is_valid_extension_cases extension b :
  match import_error b extension with
  | Some e =>
      if startswith extension components_prefix
      then is_valid_extension extension b = (Raise e, b)
      else is_valid_extension extension b = (Return false, b)
  | None =>
      is_valid_extension extension b =
        (Return (startswith extension components_prefix
                 && exposes_setup b extension),
         if startswith extension components_prefix
            && bool_decide (is_Some (modtree b !! extension))
            && negb (bool_decide (extension ∈ sys_modules b))
         then set_sys_modules ({[extension]} ∪ sys_modules b) b
         else b)
  end.
Proof.
  unfold is_valid_extension, import_error, exposes_setup, import_module.
  unfold_monad.
  destruct (startswith extension components_prefix); simpl.
  - destruct (modtree b !! extension) as [m|] eqn:Hm; simpl.
    + rewrite Hm. case_bool_decide; simpl; [done|].
      by destruct (mod_exec m).
    + done.
  - by repeat case_match.
Qed.

Lemma set_sys_modules_id b : set_sys_modules (sys_modules b) b = b.
Proof. by destruct b. Qed.

Lemma startswith_append p s : startswith (p +:+ s) p = true.
Proof.
  unfold startswith. induction p as [|a p IH]; simpl.
  - by destruct s.
  - destruct (Ascii.ascii_dec a a); [exact IH | done].
Qed.

(** The validity check changes nothing but [sys.modules], and that only
    by the candidate it imports. *)
Lemma is_valid_extension_frame extension b r b' :
  is_valid_extension extension b = (r, b') →
  b' = set_sys_modules (sys_modules b') b
  ∧ sys_modules b ⊆ sys_modules b'
  ∧ sys_modules b' ⊆ sys_modules b ∪ {[extension]}
  ∧ (extension ∈ sys_modules b' ↔
       extension ∈ sys_modules b
       ∨ (startswith extension components_prefix = true
          ∧ is_Some (modtree b !! extension)
          ∧ import_error b extension = None)).
Proof.
  intros H. pose proof (is_valid_extension_cases extension b) as Hc.
  unfold import_error in *.
  destruct (modtree b !! extension) as [m|] eqn:Hm;
    destruct (startswith extension components_prefix);
    repeat case_bool_decide; simpl in *;
    try destruct (mod_exec m); simpl in *;
    rewrite Hc in H; simplify_eq/=; rewrite ?set_sys_modules_id;
    (split; [done|]); (split; [set_solver|]); (split; [set_solver|]);
    try (split; [set_solver | intros [?|(? & [? ?] & ?)]; by simplify_eq]).
  - split; [intros _; right; eauto | set_solver].
  - split; [set_solver | intros [?|(? & [? ?] & ?)]; [done|set_solver] ].
Qed.

Lemma set_sys_modules_twice s s' b :
  set_sys_modules s (set_sys_modules s' b) = set_sys_modules s b.
Proof. done. Qed.

Lemma discover_from_frame names modules b r b' :
  discover_from names modules b = (r, b') →
  b' = set_sys_modules (sys_modules b') b
  ∧ sys_modules b ⊆ sys_modules b'
  ∧ sys_modules b' ⊆ sys_modules b ∪ list_to_set names.
Proof.
  revert modules b. induction names as [|name rest IH]; intros modules b H.
  - simpl in H. unfold_monad. simplify_eq. rewrite set_sys_modules_id.
    set_solver.
  - simpl in H. unfold mbind, M_bind in H.
    destruct (is_valid_extension name b) as [[valid|e] b1] eqn:Hv.
    + apply is_valid_extension_frame in Hv as (Hb1 & Hsub & Hsup & _).
      apply IH in H as (Hb' & Hsub' & Hsup').
      split; [|set_solver].
      rewrite Hb', Hb1. by rewrite set_sys_modules_twice.
    + apply is_valid_extension_frame in Hv as (Hb1 & Hsub & Hsup & _).
      simplify_eq. set_solver.
Qed.

(** The import of a candidate that is clean before a validity check is
    clean after it. *)
Lemma import_error_preserved b b' name :
  modtree b' = modtree b →
  sys_modules b ⊆ sys_modules b' →
  import_error b name = None → import_error b' name = None.
Proof.
  unfold import_error. intros -> Hsub.
  destruct (modtree b !! name); [|done].
  repeat case_bool_decide; try done. set_solver.
Qed.

Lemma exposes_setup_preserved b b' name :
  modtree b' = modtree b → exposes_setup b' name = exposes_setup b name.
Proof. unfold exposes_setup. by intros ->. Qed.

Lemma discover_from_returns names modules b :
  Forall (λ n, import_error b n = None) names →
  ∃ b', discover_from names modules b =
          (Return
             (list_to_set
                (filter (λ n, startswith n components_prefix
                              && exposes_setup b n) names) ∪ modules),
           b').
Proof.
  revert modules b. induction names as [|name rest IH]; intros modules b Hok.
  - simpl. unfold_monad. eexists. f_equal. f_equal. set_solver.
  - apply Forall_cons in Hok as [Hname Hrest].
    simpl. unfold mbind, M_bind.
    pose proof (is_valid_extension_cases name b) as Hc.
    rewrite Hname in Hc.
    destruct (is_valid_extension name b) as [r b1] eqn:Hv.
    pose proof (is_valid_extension_frame _ _ _ _ Hv) as (Hb1 & Hsub & _).
    assert (Hmt : modtree b1 = modtree b) by (by rewrite Hb1).
    injection Hc as -> _.
    destruct (IH (if startswith name components_prefix
                     && exposes_setup b name
                  then {[name]} ∪ modules else modules) b1) as [b' Hb'].
    { eapply Forall_impl; [exact Hrest|]. simpl. intros n.
      by apply import_error_preserved. }
    exists b'. rewrite Hb'. f_equal. f_equal.
    rewrite (list_filter_iff _ (λ n, startswith n components_prefix
                                   && exposes_setup b n) rest).
    2:{ intros n. by rewrite (exposes_setup_preserved b b1). }
    destruct (startswith name components_prefix && exposes_setup b name)
      eqn:Heq.
    + rewrite filter_cons_True by (by rewrite Heq). set_solver.
    + rewrite filter_cons_False by (rewrite Heq; intros []). done.
Qed.

Lemma import_error_reflected b b' name e :
  modtree b' = modtree b →
  sys_modules b ⊆ sys_modules b' →
  import_error b' name = Some e → import_error b name = Some e.
Proof.
  unfold import_error. intros -> Hsub.
  destruct (modtree b !! name); [|done].
  repeat case_bool_decide; try done. set_solver.
Qed.

Lemma import_error_not_imported b name e :
  import_error b name = Some e → name ∉ sys_modules b.
Proof.
  unfold import_error. destruct (modtree b !! name); [|done].
  by case_bool_decide.
Qed.

Lemma discover_from_raises names modules b n e :
  n ∈ names →
  startswith n components_prefix = true →
  import_error b n = Some e →
  ∃ n' e' b', n' ∈ names ∧ import_error b n' = Some e'
    ∧ discover_from names modules b = (Raise e', b').
Proof.
  revert modules b.
  induction names as [|name rest IH]; intros modules b Hin Hpre Herr.
  - by apply elem_of_nil in Hin.
  - simpl. unfold mbind, M_bind.
    pose proof (is_valid_extension_cases name b) as Hc.
    destruct (is_valid_extension name b) as [[valid|e1] b1] eqn:Hv.
    + pose proof (is_valid_extension_frame _ _ _ _ Hv) as (Hb1 & Hsub & Hsup & _).
      assert (Hmt : modtree b1 = modtree b) by (by rewrite Hb1).
      assert (Hne : n ≠ name).
      { intros ->. rewrite Herr, Hpre in Hc. done. }
      apply elem_of_cons in Hin as [?|Hin]; [done|].
      destruct (IH (if valid then {[name]} ∪ modules else modules) b1 Hin Hpre)
        as (n' & e' & b' & Hn' & He' & Hd).
      { pose proof (import_error_not_imported _ _ _ Herr) as Hnotin.
        unfold import_error in *. rewrite Hmt.
        destruct (modtree b !! n); [|done].
        rewrite bool_decide_eq_false_2 in Herr by done.
        rewrite bool_decide_eq_false_2 by set_solver. done. }
      exists n', e', b'. split; [set_solver|].
      split; [by eapply import_error_reflected|done].
    + exists name, e1, b1. split; [set_solver|]. split; [|done].
      destruct (import_error b name) as [e2|] eqn:He2.
      * destruct (startswith name components_prefix); by simplify_eq.
      * by simplify_eq.
Qed.








(** ** The resource cache *)

Lemma emitted_app b b' l : events b' = (events b ++ l)%list → emitted b b' = l.
Proof. unfold emitted. intros ->. by rewrite drop_app_length. Qed.

Lemma cached_guild_Some gw id g :
  cached_guild gw id = Some g →
  g ∈ guilds gw ∧ guild_id (guild_objects gw g) = id.
Proof.
  unfold cached_guild. intros H. apply find_some in H as [Hin Hid].
  split; [by apply list_elem_of_In|].
  by apply bool_decide_eq_true_1 in Hid.
Qed.

(** C6.  On its first access [ghostty_guild] returns the guild that
    [get_guild] finds for the configured id, when the id is set and found;
    otherwise it returns the first guild of [Client.guilds] and logs the
    fallback.  With at least one guild in the client's list the accessor
    returns, whatever the configuration and the cache. *)
Theorem ghostty_guild_resolution (b : Bot) :
  (∀ id g,
     ghostty_guild_cache b = None →
     guild_id_cfg (config b) = Some id → id ≠ 0 →
     cached_guild (gateway b) id = Some g →
     ∃ b', ghostty_guild b = (Return g, b')
       ∧ g ∈ guilds (gateway b)
       ∧ guild_id (guild_objects (gateway b) g) = id
       ∧ fallback_record (guild_objects (gateway b) g) ∉ emitted b b')
  ∧ (∀ g0 rest,
     ghostty_guild_cache b = None →
     guilds (gateway b) = g0 :: rest →
     guild_id_cfg (config b) = None
     ∨ guild_id_cfg (config b) = Some 0
     ∨ (∃ id, guild_id_cfg (config b) = Some id
              ∧ cached_guild (gateway b) id = None) →
     ∃ b', ghostty_guild b = (Return g0, b')
       ∧ fallback_record (guild_objects (gateway b) g0) ∈ emitted b b')
  ∧ (guilds (gateway b) ≠ [] → ∃ g b', ghostty_guild b = (Return g, b')).
Proof.
  split; [|split].
  - intros id g Hcache Hid Hnz Hfound.
    destruct (cached_guild_Some _ _ _ Hfound) as [Hin Hgid].
    unfold ghostty_guild, cached_property, ghostty_guild_body, get_guild.
    unfold_monad. simpl. rewrite Hcache, Hid. simpl.
    rewrite bool_decide_eq_false_2 by done. simpl. rewrite Hfound.
    eexists. split; [reflexivity|]. do 2 (split; [done|]).
    erewrite emitted_app; [|simpl; by rewrite <- !(assoc_L app)].
    intros H. repeat (apply elem_of_cons in H as [H|H]; [done|]).
    by apply elem_of_nil in H.
  - intros g0 rest Hcache Hguilds Hcfg.
    unfold ghostty_guild, cached_property, ghostty_guild_body, get_guild,
      guilds_item, guild_name_of, guild_id_of.
    unfold_monad. simpl. rewrite Hcache.
    assert (Hnone :
      match guild_id_cfg (config b) with
      | Some id => if bool_decide (id = 0) then true
                   else bool_decide (cached_guild (gateway b) id = None)
      | None => true
      end = true).
    { destruct Hcfg as [->|[->|(id & -> & Hn)]]; [done|done|].
      case_bool_decide; [done|]. by apply bool_decide_eq_true_2. }
    destruct (guild_id_cfg (config b)) as [id|]; simpl.
    + case_bool_decide as Hz; simpl.
      * repeat (rewrite Hguilds; simpl). eexists. split; [reflexivity|].
        erewrite emitted_app; [|simpl; by rewrite <- !(assoc_L app)].
        unfold fallback_record. set_solver.
      * apply bool_decide_eq_true_1 in Hnone. rewrite Hnone. simpl.
        repeat (rewrite Hguilds; simpl). eexists. split; [reflexivity|].
        erewrite emitted_app; [|simpl; by rewrite <- !(assoc_L app)].
        unfold fallback_record. set_solver.
    + repeat (rewrite Hguilds; simpl). eexists. split; [reflexivity|].
      erewrite emitted_app; [|simpl; by rewrite <- !(assoc_L app)].
      unfold fallback_record. set_solver.
  - intros Hne.
    unfold ghostty_guild, cached_property, ghostty_guild_body, get_guild,
      guilds_item, guild_name_of, guild_id_of.
    unfold_monad. simpl.
    destruct (ghostty_guild_cache b); [eauto|].
    destruct (guilds (gateway b)) as [|g0 rest] eqn:Hguilds; [done|].
    destruct (guild_id_cfg (config b)) as [id|]; simpl.
    + case_bool_decide; simpl.
      * repeat (rewrite Hguilds; simpl). eauto.
      * destruct (cached_guild (gateway b) id); simpl; [eauto|].
        repeat (rewrite Hguilds; simpl). eauto.
    + repeat (rewrite Hguilds; simpl). eauto.
Qed.

Lemma cached_property_hit {A} (slot : Bot → option A) store function b v :
  slot b = Some v → cached_property slot store function b = (Return v, b).
Proof. unfold cached_property. unfold_monad. by intros ->. Qed.

Lemma cached_property_returns {A} (slot : Bot → option A) store function
    b v b1 :
  cached_property slot store function b = (Return v, b1) →
  (slot b = Some v ∧ b1 = b)
  ∨ (slot b = None ∧ ∃ b0, function b = (Return v, b0)
                           ∧ b1 = store (Some v) b0).
Proof.
  unfold cached_property. unfold_monad.
  destruct (slot b) as [v'|]; [intros [= -> ->]; by left|].
  destruct (function b) as [[v'|e] b0]; [|done].
  intros [= -> <-]. right. eauto.
Qed.

Lemma cached_property_raises {A} (slot : Bot → option A) store function
    b e b1 :
  cached_property slot store function b = (Raise e, b1) →
  slot b = None ∧ function b = (Raise e, b1).
Proof.
  unfold cached_property. unfold_monad.
  destruct (slot b) as [v'|]; [done|].
  destruct (function b) as [[v'|e'] b0]; [done|].
  by intros [= -> ->].
Qed.

Lemma cached_property_memoized {A} (slot : Bot → option A) store function :
  (∀ v b, slot (store (Some v) b) = Some v) →
  memoized slot (cached_property slot store function).
Proof.
  intros Hstore b v b1 H. split.
  - apply cached_property_returns in H as [[? ->]|(_ & b0 & _ & ->)];
      [done|apply Hstore].
  - intros b2. apply cached_property_hit.
Qed.

(** C8.  Each of the four lazy accessors is memoized: an access that
    returns a value leaves it in the instance, and every later access
    returns that same value without a record, a query or any other effect,
    also after the gateway's state has been replaced by any other. *)
Theorem lazy_accessors_compute_once :
  (memoized ghostty_guild_cache ghostty_guild
   ∧ memoized log_channel_cache log_channel
   ∧ memoized help_channel_cache help_channel
   ∧ memoized webhook_channels_cache webhook_channels)
  ∧ (∀ gw b g b1, ghostty_guild b = (Return g, b1) →
       ghostty_guild (set_gateway gw b1) = (Return g, set_gateway gw b1))
  ∧ (∀ gw b c b1, log_channel b = (Return c, b1) →
       log_channel (set_gateway gw b1) = (Return c, set_gateway gw b1))
  ∧ (∀ gw b c b1, help_channel b = (Return c, b1) →
       help_channel (set_gateway gw b1) = (Return c, set_gateway gw b1))
  ∧ (∀ gw b m b1, webhook_channels b = (Return m, b1) →
       webhook_channels (set_gateway gw b1) = (Return m, set_gateway gw b1)).
Proof.
  assert (H1 : memoized ghostty_guild_cache ghostty_guild)
    by (by apply cached_property_memoized).
  assert (H2 : memoized log_channel_cache log_channel)
    by (by apply cached_property_memoized).
  assert (H3 : memoized help_channel_cache help_channel)
    by (by apply cached_property_memoized).
  assert (H4 : memoized webhook_channels_cache webhook_channels)
    by (by apply cached_property_memoized).
  split; [done|].
  split; [|split; [|split]]; intros gw b v b1 H.
  - destruct (H1 _ _ _ H) as [Hslot Hnext]. by apply Hnext.
  - destruct (H2 _ _ _ H) as [Hslot Hnext]. by apply Hnext.
  - destruct (H3 _ _ _ H) as [Hslot Hnext]. by apply Hnext.
  - destruct (H4 _ _ _ H) as [Hslot Hnext]. by apply Hnext.
Qed.

Lemma lazy_accessors_compute_once_witness :
  let first := ghostty_guild (Sample.bot []) in
  first.1 = Return 0%nat
  ∧ ghostty_guild (set_gateway Sample.offline first.2)
    = (Return 0%nat, set_gateway Sample.offline first.2)
  ∧ (ghostty_guild (set_gateway Sample.offline (Sample.bot []))).1
    = Raise IndexError.
Proof.
  intros first. destruct lazy_accessors_compute_once as (_ & H & _).
  split; [reflexivity|]. split; [|reflexivity].
  apply (H _ (Sample.bot [])). reflexivity.
Defined.

Lemma ghostty_guild_resolution_witness :
  (∃ b', ghostty_guild (Sample.bot []) = (Return 0%nat, b'))
  ∧ (∃ b', ghostty_guild Sample.unconfigured = (Return 0%nat, b')
           ∧ fallback_record Sample.guild ∈ emitted Sample.unconfigured b').
Proof.
  split.
  - destruct (ghostty_guild_resolution (Sample.bot [])) as (H & _).
    destruct (H 10 0%nat) as (b' & Hb' & _); [done..|]. by exists b'.
  - destruct (ghostty_guild_resolution Sample.unconfigured) as (_ & H & _).
    apply (H 0%nat []); [done..|]. by left.
Defined.

(** Run a program of the monad on a symbolic state: split on whatever
    the next step inspects. *)
Ltac run_cases :=
  repeat (simpl in *; first [progress simplify_eq/= | case_match]).

Lemma ghostty_guild_set_events l b :
  (ghostty_guild (set_events l b)).1 = (ghostty_guild b).1.
Proof.
  unfold ghostty_guild, cached_property, ghostty_guild_body, get_guild,
    guilds_item, guild_name_of, guild_id_of.
  unfold_monad. run_cases; done.
Qed.

Lemma ghostty_guild_frame b r b1 :
  ghostty_guild b = (r, b1) →
  b1 = set_events (events b1)
         (set_ghostty_guild_cache (ghostty_guild_cache b1) b)
  ∧ (∀ g, r = Return g → ghostty_guild_cache b1 = Some g).
Proof.
  unfold ghostty_guild, cached_property, ghostty_guild_body, get_guild,
    guilds_item, guild_name_of, guild_id_of.
  unfold_monad. intros H.
  destruct (ghostty_guild_cache b) eqn:Hc.
  { simplify_eq/=. split; [by destruct b1; simplify_eq/=|].
    by intros ? [= <-]. }
  run_cases; (split; [by rewrite <- ?Hc|]); by intros ? [= <-].
Qed.

Lemma ghostty_guild_hit_result b g :
  ghostty_guild_cache b = Some g → (ghostty_guild b).1 = Return g.
Proof.
  intros H. unfold ghostty_guild.
  by rewrite (cached_property_hit _ _ _ _ _ H).
Qed.

(** The debug call of line 158 names its field, and passes the value by
    position: formatting it raises [KeyError], which happens when a
    handler takes [DEBUG]. *)
Lemma webhook_debug_raises feed_type b :
  handles b DEBUG →
  logger DEBUG "fetching {feed_type} webhook channel" [AStr feed_type] b
  = (Raise (KeyError "feed_type"),
     set_events
       (events b ++ [Log DEBUG "fetching {feed_type} webhook channel"
                       [AStr feed_type] None]) b).
Proof.
  intros H. unfold logger, emit, update, get_bot, raise, mbind, M_bind.
  simpl. by rewrite bool_decide_eq_true_2.
Qed.

Lemma webhook_debug_dropped feed_type b :
  ¬ handles b DEBUG →
  logger DEBUG "fetching {feed_type} webhook channel" [AStr feed_type] b
  = (Return tt,
     set_events
       (events b ++ [Log DEBUG "fetching {feed_type} webhook channel"
                       [AStr feed_type] None]) b).
Proof.
  intros H. unfold logger, emit, update, get_bot, raise, mbind, M_bind.
  simpl. by rewrite bool_decide_eq_false_2.
Qed.

Lemma webhook_channels_from_handled item rest channels b :
  handles b DEBUG →
  webhook_channels_from (item :: rest) channels b
  = (Raise (KeyError "feed_type"),
     set_events
       (events b ++ [Log DEBUG "fetching {feed_type} webhook channel"
                       [AStr item.1] None]) b).
Proof.
  intros H. destruct item as [feed_type id_]. simpl.
  unfold mbind at 1. unfold M_bind at 1.
  by rewrite webhook_debug_raises.
Qed.

(** With the debug records dropped, the loop of [webhook_channels]
    computes [webhook_outcome] on the state of the primary guild, and
    leaves the gateway, the configuration and the slot of the mapping
    alone. *)
Lemma webhook_channels_from_outcome g items channels b :
  ¬ handles b DEBUG →
  (ghostty_guild b).1 = Return g →
  ∃ b', webhook_channels_from items channels b =
          (webhook_outcome (guild_objects (gateway b) g) items channels, b')
    ∧ gateway b' = gateway b
    ∧ webhook_channels_cache b' = webhook_channels_cache b.
Proof.
  intros Hlevel. revert channels b Hlevel.
  induction items as [|[feed_type id_] rest IH]; intros channels b Hlevel Hg.
  - simpl. unfold_monad. eauto.
  - simpl. unfold mbind at 1. unfold M_bind at 1.
    rewrite webhook_debug_dropped by done.
    unfold mbind, M_bind, emit, update.
    set (b0 := set_events _ b).
    assert (Hg0 : (ghostty_guild b0).1 = Return g)
      by (subst b0; by rewrite ghostty_guild_set_events).
    destruct (ghostty_guild b0) as [r b1] eqn:E. simpl in Hg0. subst r.
    destruct (ghostty_guild_frame _ _ _ E) as [Hb1 Hc].
    specialize (Hc g eq_refl).
    assert (Hgw : gateway b1 = gateway b) by (by rewrite Hb1).
    assert (Hwc : webhook_channels_cache b1 = webhook_channels_cache b)
      by (by rewrite Hb1).
    unfold guild_get_channel, mbind, M_bind, emit, update, get_bot, mret,
      M_ret.
    set (b2 := set_events _ b1). simpl. rewrite Hgw.
    assert (Hg2 : (ghostty_guild b2).1 = Return g).
    { subst b2. rewrite ghostty_guild_set_events.
      by apply ghostty_guild_hit_result. }
    destruct (guild_channels (guild_objects (gateway b) g) !! id_) as [c|];
      [|unfold raise; eauto].
    case_bool_decide; [|unfold raise; eauto].
    assert (Hlevel2 : ¬ handles b2 DEBUG).
    { unfold handles in *. subst b2. simpl. by rewrite Hb1. }
    destruct (IH (<[feed_type:=c]> channels) b2 Hlevel2 Hg2)
      as (b' & Hrun & Hg' & Hw').
    exists b'. rewrite Hrun.
    assert (Hgw2 : gateway b2 = gateway b) by done.
    assert (Hwc2 : webhook_channels_cache b2 = webhook_channels_cache b)
      by done.
    rewrite Hgw2 in *. rewrite Hwc2 in *. done.
Qed.

Lemma misconfigured_feed_dec g item :
  misconfigured_feed g item ∨ ¬ misconfigured_feed g item.
Proof.
  unfold misconfigured_feed. destruct (guild_channels g !! item.2) as [c|].
  - destruct (decide (channel_kind c = TextChannel)); [right|left]; tauto.
  - by left.
Qed.

(** The first misconfigured feed type decides the outcome. *)
Lemma webhook_outcome_raises g items channels :
  Exists (misconfigured_feed g) items →
  ∃ before feed_type id_ after,
    items = (before ++ (feed_type, id_) :: after)%list
    ∧ Forall (λ i, ¬ misconfigured_feed g i) before
    ∧ misconfigured_feed g (feed_type, id_)
    ∧ webhook_outcome g items channels
      = Raise (webhook_error (guild_channels g !! id_) feed_type).
Proof.
  revert channels.
  induction items as [|[feed_type id_] rest IH]; intros channels Hex.
  - by apply Exists_nil in Hex.
  - destruct (misconfigured_feed_dec g (feed_type, id_)) as [Hbad|Hgood].
    + exists [], feed_type, id_, rest. split; [done|]. split; [done|].
      split; [done|]. simpl. unfold misconfigured_feed in Hbad. simpl in Hbad.
      destruct (guild_channels g !! id_) as [c|]; [|done].
      by rewrite bool_decide_eq_false_2.
    + apply Exists_cons in Hex as [?|Hex]; [done|].
      unfold misconfigured_feed in Hgood. simpl in Hgood.
      destruct (guild_channels g !! id_) as [c|] eqn:Hc; [|done].
      destruct (decide (channel_kind c = TextChannel)) as [Hk|]; [|done].
      destruct (IH (<[feed_type:=c]> channels) Hex)
        as (before & f & i & after & -> & Hbefore & Hbad & Hout).
      exists ((feed_type, id_) :: before), f, i, after.
      split; [done|]. split.
      { apply Forall_cons. split; [|done].
        unfold misconfigured_feed. simpl. rewrite Hc. tauto. }
      split; [done|]. simpl. rewrite Hc.
      by rewrite bool_decide_eq_true_2.
Qed.

(** A mapping that is returned has a text channel for every configured
    feed type. *)
Lemma webhook_outcome_returns g items channels m :
  webhook_outcome g items channels = Return m →
  (∀ feed_type id_, (feed_type, id_) ∈ items →
     ∃ c, m !! feed_type = Some c ∧ channel_kind c = TextChannel)
  ∧ (∀ feed_type c, channels !! feed_type = Some c →
     channel_kind c = TextChannel →
     ∃ c', m !! feed_type = Some c' ∧ channel_kind c' = TextChannel).
Proof.
  revert channels.
  induction items as [|[feed_type id_] rest IH]; intros channels H.
  - simpl in H. simplify_eq. split; [|eauto].
    intros ?? Hin. by apply elem_of_nil in Hin.
  - simpl in H.
    destruct (guild_channels g !! id_) as [c|] eqn:Hc; [|done].
    case_bool_decide as Hk; [|done].
    destruct (IH _ H) as [Hitems Hold]. split.
    + intros f i [[= -> ->]|Hin]%elem_of_cons; [|eauto].
      apply (Hold feed_type c); [by rewrite lookup_insert_eq|done].
    + intros f c0 Hf Hk0.
      destruct (decide (feed_type = f)) as [->|Hne].
      * apply (Hold f c); [by rewrite lookup_insert_eq|done].
      * apply (Hold f c0); [by rewrite lookup_insert_ne|done].
Qed.

Lemma webhook_channels_from_no_guild e item rest channels b :
  ¬ handles b DEBUG →
  (ghostty_guild b).1 = Raise e →
  (webhook_channels_from (item :: rest) channels b).1 = Raise e.
Proof.
  intros Hlevel Hg. destruct item as [feed_type id_]. simpl.
  unfold mbind at 1. unfold M_bind at 1.
  rewrite webhook_debug_dropped by done.
  unfold mbind, M_bind, emit, update.
  set (b0 := set_events _ b).
  assert (Hg0 : (ghostty_guild b0).1 = Raise e)
    by (subst b0; by rewrite ghostty_guild_set_events).
  destruct (ghostty_guild b0) as [r b1]. simpl in Hg0. by subst r.
Qed.

(** C7, on the code.  With a handler that takes [DEBUG], as loguru's
    default handler does, the first access to [webhook_channels] with any
    feed type configured raises [KeyError('feed_type')] from the debug
    call of line 158, whose message names its field while the value is
    passed by position.  That happens before the guild is resolved or
    asked for a channel, so whether the configuration is right or wrong:
    the [TypeError] that names the offending feed type is never reached.
    Nothing is stored. *)
Theorem webhook_channels_log_call_raises (b : Bot) (feed_type : string)
    (id_ : Z) (rest : list (string * Z)) :
  webhook_channels_cache b = None →
  webhook_channel_ids (config b) = (feed_type, id_) :: rest →
  handles b DEBUG →
  ∃ b', webhook_channels b = (Raise (KeyError "feed_type"), b')
    ∧ b' = set_events (events b') b
    ∧ emitted b b' = [Log DEBUG "fetching {feed_type} webhook channel"
                        [AStr feed_type] None].
Proof.
  intros Hcache Hitems Hlevel.
  unfold webhook_channels, cached_property, webhook_channels_body.
  unfold mbind, M_bind, get_bot. rewrite Hcache, Hitems.
  rewrite webhook_channels_from_handled by done.
  eexists. split; [reflexivity|]. split; [done|]. by apply emitted_app.
Qed.

Lemma webhook_channels_log_call_raises_witness :
  ∃ b', webhook_channels (set_logger_min_level 10 (Sample.bot []))
        = (Raise (KeyError "feed_type"), b')
    ∧ emitted (set_logger_min_level 10 (Sample.bot [])) b'
      = [Log DEBUG "fetching {feed_type} webhook channel" [AStr "main"] None].
Proof.
  destruct (webhook_channels_log_call_raises
              (set_logger_min_level 10 (Sample.bot []))
              "main" 100 [("discussions", 101)])
    as (b' & Hrun & _ & Hev); [reflexivity|reflexivity| |by exists b'].
  unfold handles. simpl. lia.
Defined.

(** X20.  With the debug records dropped, the first access to
    [webhook_channels] raises a [TypeError] whose message names the first
    configured feed type whose channel the primary guild does not have,
    or has with another type than text, and stores nothing.  In any case
    a mapping that it returns has a text channel for every configured
    feed type.  [log_channel] fails its assertion, and stores nothing,
    when the configured channel is not in the client's cache or is not a
    text channel. *)
Theorem misconfigured_channels_are_fatal (b : Bot) :
  (∀ g,
     webhook_channels_cache b = None →
     ¬ handles b DEBUG →
     (ghostty_guild b).1 = Return g →
     Exists (misconfigured_feed (guild_objects (gateway b) g))
       (webhook_channel_ids (config b)) →
     ∃ before feed_type id_ after b',
       webhook_channel_ids (config b)
         = (before ++ (feed_type, id_) :: after)%list
       ∧ Forall (λ i, ¬ misconfigured_feed (guild_objects (gateway b) g) i)
           before
       ∧ misconfigured_feed (guild_objects (gateway b) g) (feed_type, id_)
       ∧ webhook_channels b =
           (Raise (TypeError
              match guild_channels (guild_objects (gateway b) g) !! id_ with
              | Some _ => "expected " +:+ feed_type
                          +:+ " webhook channel to be a text channel"
              | None => "failed to find " +:+ feed_type +:+ " webhook channel"
              end), b')
       ∧ webhook_channels_cache b' = None)
  ∧ (∀ m b',
     webhook_channels_cache b = None →
     webhook_channels b = (Return m, b') →
     ∀ feed_type id_, (feed_type, id_) ∈ webhook_channel_ids (config b) →
       ∃ c, m !! feed_type = Some c ∧ channel_kind c = TextChannel)
  ∧ (log_channel_cache b = None →
     match cached_channel (gateway b) (log_channel_id (config b)) with
     | Some c => channel_kind c ≠ TextChannel
     | None => True
     end →
     ∃ b', log_channel b = (Raise AssertionError, b')
           ∧ log_channel_cache b' = None).
Proof.
  split; [|split].
  - intros g Hcache Hlevel Hg Hex.
    destruct (webhook_outcome_raises _ _ ∅ Hex)
      as (before & feed_type & id_ & after & Hitems & Hbefore & Hbad & Hout).
    destruct (webhook_channels_from_outcome g
                (webhook_channel_ids (config b)) ∅ b Hlevel Hg)
      as (b' & Hrun & _ & Hwc).
    exists before, feed_type, id_, after, b'.
    do 3 (split; [done|]). split; [|congruence].
    unfold webhook_channels, cached_property, webhook_channels_body.
    unfold_monad. rewrite Hcache, Hrun, Hout. done.
  - intros m b' Hcache Hrun feed_type id_ Hin.
    unfold webhook_channels in Hrun.
    apply cached_property_returns in Hrun
      as [[? _]|(_ & b0 & Hbody & _)]; [congruence|].
    unfold webhook_channels_body in Hbody. unfold_monad.
    assert (Hlevel : ¬ handles b DEBUG).
    { intros Hlevel.
      destruct (webhook_channel_ids (config b)) as [|item rest];
        [by apply elem_of_nil in Hin|].
      by rewrite (webhook_channels_from_handled item rest ∅ b Hlevel)
        in Hbody. }
    destruct (ghostty_guild b) as [[g|e] bg] eqn:Hg.
    + destruct (webhook_channels_from_outcome g
                  (webhook_channel_ids (config b)) ∅ b)
        as (b1 & Hrun & _); [done|by rewrite Hg|].
      rewrite Hrun in Hbody. injection Hbody as Hout _.
      by apply (webhook_outcome_returns _ _ _ _ Hout) in Hin.
    + destruct (webhook_channel_ids (config b)) as [|item rest];
        [by apply elem_of_nil in Hin|].
      pose proof (webhook_channels_from_no_guild e item rest ∅ b Hlevel)
        as Hno.
      rewrite Hg, Hbody in Hno. by specialize (Hno eq_refl).
  - intros Hcache Hbad.
    unfold log_channel, cached_property, log_channel_body, get_channel,
      assert_isinstance.
    unfold_monad. simpl. rewrite Hcache.
    destruct (cached_channel (gateway b) (log_channel_id (config b)))
      as [c|]; simpl.
    + rewrite bool_decide_eq_false_2 by done. eauto.
    + eauto.
Qed.

Lemma misconfigured_channels_are_fatal_witness :
  (∃ b', webhook_channels (Sample.bot []) =
           (Raise (TypeError
              "expected discussions webhook channel to be a text channel"),
            b')
         ∧ webhook_channels_cache b' = None)
  ∧ (∃ b', log_channel Sample.unconfigured = (Raise AssertionError, b')
           ∧ log_channel_cache b' = None).
Proof.
  split.
  - destruct (misconfigured_channels_are_fatal (Sample.bot [])) as (H & _).
    destruct (H 0%nat) as (before & f & i & after & b' & Hi & _ & Hm & Hr & Hc);
      [reflexivity | | reflexivity | |].
    { unfold handles. simpl. lia. }
    { apply Exists_cons_tl, Exists_cons_hd. vm_compute. discriminate. }
    exists b'. split; [|done]. rewrite Hr. f_equal. f_equal.
    destruct before as [|x [|y before]]; simplify_eq/=;
      [reflexivity | by destruct before].
  - destruct (misconfigured_channels_are_fatal Sample.unconfigured)
      as (_ & _ & H).
    apply H; [reflexivity|]. vm_compute. discriminate.
Defined.

(** ** The message gate *)

(** C5.  A message of a bot account, or of a type outside the regular
    set, is dropped with no effect at all.  Otherwise a direct message
    that reads "ping" is answered with "pong" and neither checked nor
    dispatched.  Otherwise, when the filter cog is absent or its check
    returns false, exactly one "message_filter_passed" event with the
    message is dispatched; the check runs only when the cog is there. *)
Theorem message_gate (REGULAR_MESSAGE_TYPES : gset Z)
    (pretty_print_account : Account → string) (message : Message) (b : Bot) :
  let on_message := on_message REGULAR_MESSAGE_TYPES pretty_print_account in
  (account_bot (message_author message) = true
   ∨ message_type message ∉ REGULAR_MESSAGE_TYPES →
   on_message message b = (Return tt, b))
  ∧ (account_bot (message_author message) = false →
     message_type message ∈ REGULAR_MESSAGE_TYPES →
     message_guild message = None → message_content message = "ping" →
     ∃ b', on_message message b = (Return tt, b')
       ∧ emitted b b' =
           [Log DEBUG "ping sent by {}"
              [AStr (pretty_print_account (message_author message))] None;
            DirectMessage (account_id (message_author message)) "pong"])
  ∧ (account_bot (message_author message) = false →
     message_type message ∈ REGULAR_MESSAGE_TYPES →
     ¬ (message_guild message = None ∧ message_content message = "ping") →
     (cogs b !! "MessageFilter" = None →
      ∃ b', on_message message b = (Return tt, b')
        ∧ emitted b b' = [Dispatch "message_filter_passed" message])
     ∧ (∀ cog, cogs b !! "MessageFilter" = Some cog →
        check cog message = false →
        ∃ b', on_message message b = (Return tt, b')
          ∧ emitted b b' = [FilterCheck message;
                            Dispatch "message_filter_passed" message])).
Proof.
  intros run. subst run. unfold on_message.
  split; [|split].
  - intros [->|Hty]; [done|].
    rewrite (bool_decide_eq_false_2 _ Hty). by rewrite orb_true_r.
  - intros -> Hty Hg Hc. rewrite (bool_decide_eq_true_2 _ Hty). simpl.
    rewrite (bool_decide_eq_true_2 _ Hg), Hc. simpl.
    unfold_monad. simpl. eexists. split; [reflexivity|].
    apply emitted_app. simpl. by rewrite <- (assoc_L app).
  - intros -> Hty Hping. rewrite (bool_decide_eq_true_2 _ Hty). simpl.
    assert (Hno : bool_decide (message_guild message = None)
                  && String.eqb (message_content message) "ping" = false).
    { apply andb_false_iff. case_bool_decide; [right|by left].
      apply String.eqb_neq. tauto. }
    rewrite Hno. unfold _fails_message_filters. unfold_monad. simpl.
    split.
    + intros ->. eexists. split; [reflexivity|]. by apply emitted_app.
    + intros cog -> ->. eexists. split; [reflexivity|].
      apply emitted_app. simpl. by rewrite <- (assoc_L app).
Qed.

Lemma message_gate_witness :
  on_message Sample.regular_types Sample.pretty_print_account Sample.beep
    (Sample.bot []) = (Return tt, Sample.bot [])
  ∧ (∃ b', on_message Sample.regular_types Sample.pretty_print_account
             Sample.ping (Sample.bot []) = (Return tt, b')
           ∧ emitted (Sample.bot []) b' =
               [Log DEBUG "ping sent by {}" [AStr "<alice>"] None;
                DirectMessage 7 "pong"])
  ∧ (∃ b', on_message Sample.regular_types Sample.pretty_print_account
             Sample.hello (Sample.bot []) = (Return tt, b')
           ∧ emitted (Sample.bot []) b' =
               [Dispatch "message_filter_passed" Sample.hello]).
Proof.
  split; [|split].
  - destruct (message_gate Sample.regular_types Sample.pretty_print_account
                Sample.beep (Sample.bot [])) as (H & _).
    apply H. by left.
  - destruct (message_gate Sample.regular_types Sample.pretty_print_account
                Sample.ping (Sample.bot [])) as (_ & H & _).
    apply H; [reflexivity| |reflexivity|reflexivity].
    unfold Sample.regular_types. simpl. set_solver.
  - destruct (message_gate Sample.regular_types Sample.pretty_print_account
                Sample.hello (Sample.bot [])) as (_ & _ & H).
    apply H; [reflexivity| | |reflexivity].
    + unfold Sample.regular_types. simpl. set_solver.
    + intros [H1 _]. discriminate H1.
Defined.

(** ** The emoji cache *)

Lemma named_emoji_cons e emojis label :
  named_emoji (e :: emojis) label =
    match named_emoji emojis label with
    | Some e' => Some e'
    | None => if decide (emoji_name e = label) then Some e else None
    end.
Proof.
  unfold named_emoji. rewrite filter_cons.
  destruct (decide (emoji_name e = label)).
  - rewrite last_cons. by destruct (last (filter _ emojis)).
  - by destruct (last (filter _ emojis)).
Qed.

Lemma named_emoji_Some emojis label e :
  named_emoji emojis label = Some e → e ∈ emojis ∧ emoji_name e = label.
Proof.
  unfold named_emoji. intros H. apply last_Some_elem_of in H.
  by apply list_elem_of_filter in H as [? ?].
Qed.

Lemma named_emoji_None emojis label :
  named_emoji emojis label = None ↔ ∀ e, e ∈ emojis → emoji_name e ≠ label.
Proof.
  unfold named_emoji. rewrite last_None. split.
  - intros H e Hin Hname.
    assert (He : e ∈ filter (λ e, emoji_name e = label) emojis)
      by (by apply list_elem_of_filter).
    rewrite H in He. by apply elem_of_nil in He.
  - intros H. apply elem_of_nil_inv. intros e He.
    apply list_elem_of_filter in He as [? ?]. by eapply H.
Qed.

(** What the loop over the guild's emojis leaves under a label. *)
Lemma store_emojis_lookup valid emojis cache label :
  store_emojis valid emojis cache !! label =
    match named_emoji emojis label with
    | Some e =>
        if bool_decide (label ∈ valid) then Some (RealEmoji e)
        else cache !! label
    | None => cache !! label
    end.
Proof.
  unfold store_emojis. revert cache.
  induction emojis as [|e emojis IH]; intros cache; [done|].
  simpl. rewrite IH, named_emoji_cons.
  destruct (named_emoji emojis label) as [e'|].
  - case_bool_decide as Hl; [done|].
    case_bool_decide; [|done].
    rewrite lookup_insert_ne; [done|]. intros Heq. apply Hl. by rewrite <- Heq.
  - destruct (decide (emoji_name e = label)) as [<-|Hne].
    + case_bool_decide; [|done]. by rewrite lookup_insert_eq.
    + case_bool_decide; [|done]. by rewrite lookup_insert_ne.
Qed.

Lemma sends_app l1 l2 : sends (l1 ++ l2) = (sends l1 ++ sends l2)%list.
Proof. apply omap_app. Qed.

Lemma ghostty_guild_events b r b1 :
  ghostty_guild b = (r, b1) →
  ∃ l, events b1 = (events b ++ l)%list ∧ sends l = [].
Proof.
  unfold ghostty_guild, cached_property, ghostty_guild_body, get_guild,
    guilds_item, guild_name_of, guild_id_of.
  unfold_monad. intros H.
  destruct (ghostty_guild_cache b) eqn:Hc.
  { simplify_eq/=. exists []. by rewrite app_nil_r. }
  run_cases; rewrite <- ?(assoc_L app); by eexists.
Qed.

(** What an access to [log_channel] returns or raises. *)
Lemma log_channel_result b :
  (log_channel b).1 =
    match log_channel_cache b with
    | Some c => Return c
    | None =>
        match cached_channel (gateway b) (log_channel_id (config b)) with
        | Some c =>
            if bool_decide (channel_kind c = TextChannel) then Return c
            else Raise AssertionError
        | None => Raise AssertionError
        end
    end.
Proof.
  unfold log_channel, cached_property, log_channel_body, get_channel,
    assert_isinstance.
  unfold_monad. run_cases; done.
Qed.

Lemma log_channel_frame b r b1 :
  log_channel b = (r, b1) →
  b1 = set_events (events b1)
         (set_log_channel_cache (log_channel_cache b1) b)
  ∧ (∃ l, events b1 = (events b ++ l)%list ∧ sends l = [])
  ∧ (∀ c, r = Return c → log_channel_cache b1 = Some c).
Proof.
  unfold log_channel, cached_property, log_channel_body, get_channel,
    assert_isinstance.
  unfold_monad. intros H.
  destruct (log_channel_cache b) eqn:Hc.
  { simplify_eq/=. split; [by destruct b1; simplify_eq/=|].
    split; [exists []; by rewrite app_nil_r|]. by intros ? [= <-]. }
  run_cases; rewrite <- ?(assoc_L app);
    (split; [by rewrite <- ?Hc|]); (split; [by eexists|]);
    by intros ? [= <-].
Qed.

(** With an empty cache before, the labels that the loop leaves without
    an entry are the expected labels that no emoji of the guild has. *)
Lemma missing_after_store (valid : gset string) emojis :
  valid ∖ dom (store_emojis valid emojis ∅)
  = filter (λ label, named_emoji emojis label = None) valid.
Proof.
  apply set_eq. intros label.
  rewrite elem_of_difference, elem_of_filter, elem_of_dom.
  rewrite store_emojis_lookup, lookup_empty.
  split.
  - intros [Hv Hn]. split; [|done].
    destruct (named_emoji emojis label); [|done].
    rewrite bool_decide_eq_true_2 in Hn by done. by destruct Hn.
  - intros [-> Hv]. split; [done|]. by intros [? ?].
Qed.

(** What a completed [load_emojis] has done, on a cache that was empty:
    the view answers every expected label, and nothing else; one message
    went to the log channel if a label was missing, none otherwise. *)
Lemma load_emojis_for_returns (valid : gset string) b b' :
  _ghostty_emojis b = ∅ →
  load_emojis_for valid b = (Return tt, b') →
  ∃ g, (ghostty_guild b).1 = Return g ∧
    let emojis := guild_emojis (guild_objects (gateway b) g) in
    let missing := filter (λ label, named_emoji emojis label = None) valid in
    (∀ label,
       ghostty_emojis b' label =
         if bool_decide (label ∈ valid)
         then Some match named_emoji emojis label with
                   | Some e => RealEmoji e
                   | None => Glyph placeholder
                   end
         else None)
    ∧ (missing = ∅ → sends (emitted b b') = [])
    ∧ (missing ≠ ∅ →
       ∃ c, (log_channel b).1 = Return c
         ∧ sends (emitted b b') = [(channel_id c, missing_message missing)]).
Proof.
  intros Hempty. unfold load_emojis_for, mbind, M_bind.
  destruct (ghostty_guild b) as [[g|e] b1] eqn:Hg; [|done].
  destruct (ghostty_guild_frame _ _ _ Hg) as [Hb1 _].
  destruct (ghostty_guild_events _ _ _ Hg) as (l1 & He1 & Hs1).
  assert (Hgw1 : gateway b1 = gateway b) by (by rewrite Hb1).
  assert (Hem1 : _ghostty_emojis b1 = ∅) by (by rewrite Hb1).
  unfold guild_emojis_of, emit, update, get_bot, mbind, M_bind, mret, M_ret.
  simpl. rewrite Hgw1, Hem1, missing_after_store.
  set (emojis := guild_emojis (guild_objects (gateway b) g)).
  set (missing := filter (λ label, named_emoji emojis label = None) valid).
  set (b3 := set_ghostty_emojis _ _).
  intros Hrun. exists g. split; [done|].
  cbv zeta. fold emojis. fold missing.
  case_bool_decide as Hmiss.
  - injection Hrun as <-. split; [|split; [|done]].
    + intros label. unfold ghostty_emojis. subst b3. simpl.
      rewrite store_emojis_lookup, lookup_empty.
      case_bool_decide as Hv.
      * destruct (named_emoji emojis label) eqn:Hn; [done|].
        assert (label ∈ missing) by (by apply elem_of_filter).
        set_solver.
      * by destruct (named_emoji emojis label).
    + intros _. erewrite emitted_app; [|subst b3; simpl; rewrite He1;
        by rewrite <- (assoc_L app)].
      rewrite sends_app, Hs1. done.
  - destruct (log_channel b3) as [[c|e] b4] eqn:Hl; [|done].
    destruct (log_channel_frame _ _ _ Hl) as (Hb4 & (l4 & He4 & Hs4) & _).
    assert (Hres : (log_channel b).1 = Return c).
    { pose proof (log_channel_result b3) as H3. rewrite Hl in H3.
      rewrite log_channel_result. simpl in H3. rewrite H3.
      subst b3. simpl. rewrite Hb1. done. }
    unfold channel_send, mbind, M_bind, get_bot, emit, update in Hrun.
    assert (Hgw4 : gateway b4 = gateway b) by (by rewrite Hb4).
    rewrite Hgw4 in Hrun.
    destruct (send_error (gateway b)); [done|]. simpl in Hrun.
    injection Hrun as <-. split; [|split; [done|]].
    + intros label. unfold ghostty_emojis. simpl.
      rewrite lookup_union, lookup_gset_to_gmap.
      assert (Hem4 : _ghostty_emojis b4 = _ghostty_emojis b3)
        by (by rewrite Hb4).
      rewrite Hem4. subst b3. simpl.
      rewrite store_emojis_lookup, lookup_empty.
      case_bool_decide as Hv.
      * destruct (named_emoji emojis label) eqn:Hn.
        -- rewrite option_guard_False; [done|].
           subst missing. rewrite elem_of_filter. intros [? _]. congruence.
        -- rewrite option_guard_True; [done|].
           by apply elem_of_filter.
      * rewrite option_guard_False; [by destruct (named_emoji emojis label)|].
        subst missing. rewrite elem_of_filter. tauto.
    + intros _. exists c. split; [done|].
      erewrite emitted_app; [|simpl; rewrite He4; subst b3; simpl;
        rewrite He1; by rewrite <- !(assoc_L app)].
      rewrite !sends_app, Hs1, Hs4. done.
Qed.

(** [load_emojis] completes when the primary guild resolves and either no
    label is missing or the warning can be delivered. *)
Lemma load_emojis_for_completes (valid : gset string) b g :
  _ghostty_emojis b = ∅ →
  (ghostty_guild b).1 = Return g →
  filter (λ label,
            named_emoji (guild_emojis (guild_objects (gateway b) g)) label
            = None) valid = ∅
  ∨ ((∃ c, (log_channel b).1 = Return c) ∧ send_error (gateway b) = None) →
  ∃ b', load_emojis_for valid b = (Return tt, b').
Proof.
  intros Hempty Hres Hok. unfold load_emojis_for, mbind, M_bind.
  destruct (ghostty_guild b) as [r b1] eqn:Hg. simpl in Hres. subst r.
  destruct (ghostty_guild_frame _ _ _ Hg) as [Hb1 _].
  assert (Hgw1 : gateway b1 = gateway b) by (by rewrite Hb1).
  assert (Hem1 : _ghostty_emojis b1 = ∅) by (by rewrite Hb1).
  unfold guild_emojis_of, emit, update, get_bot, mbind, M_bind, mret, M_ret.
  simpl. rewrite Hgw1, Hem1, missing_after_store.
  set (b3 := set_ghostty_emojis _ _).
  case_bool_decide as Hmiss; [eauto|].
  destruct Hok as [?|[[c Hc] Hsend]]; [done|].
  assert (Hres3 : (log_channel b3).1 = Return c).
  { rewrite log_channel_result in *. subst b3. simpl. by rewrite Hb1. }
  destruct (log_channel b3) as [r b4] eqn:Hl. simpl in Hres3. subst r.
  destruct (log_channel_frame _ _ _ Hl) as (Hb4 & _ & _).
  assert (Hgw4 : gateway b4 = gateway b) by (by rewrite Hb4).
  unfold channel_send, mbind, M_bind, get_bot, emit, update.
  rewrite Hgw4, Hsend. simpl. eauto.
Qed.

(** C4.  Started on the empty cache that [__init__] leaves, with the
    primary guild resolved, and with a log channel that takes the message
    unless nothing is missing, [load_emojis] completes.  Afterwards every
    expected label that some emoji of the guild has as its name is mapped
    to such an emoji (the last one of the guild's tuple), every other
    expected label to the placeholder, and the log channel got no message
    when nothing is missing and exactly one, with all the missing labels,
    otherwise. *)
Theorem load_emojis_fills_cache (valid : gset string) (b : Bot)
    (g : GuildRef) (c : Channel) :
  let emojis := guild_emojis (guild_objects (gateway b) g) in
  let found label := ∃ e, e ∈ emojis ∧ emoji_name e = label in
  _ghostty_emojis b = ∅ →
  (ghostty_guild b).1 = Return g →
  (∀ label, label ∈ valid → found label)
  ∨ ((log_channel b).1 = Return c ∧ send_error (gateway b) = None) →
  ∃ b', load_emojis_for valid b = (Return tt, b')
    ∧ (∀ label, label ∈ valid → found label →
         ∃ e, e ∈ emojis ∧ emoji_name e = label
              ∧ named_emoji emojis label = Some e
              ∧ ghostty_emojis b' label = Some (RealEmoji e))
    ∧ (∀ label, label ∈ valid → ¬ found label →
         ghostty_emojis b' label = Some (Glyph placeholder))
    ∧ ((∀ label, label ∈ valid → found label) → sends (emitted b b') = [])
    ∧ ((∃ label, label ∈ valid ∧ ¬ found label) →
       ∃ names,
         NoDup names
         ∧ (∀ label, label ∈ names ↔ label ∈ valid ∧ ¬ found label)
         ∧ sends (emitted b b') =
             [(channel_id c,
               "Failed to load the following emojis: "
               +:+ String.concat ", " names)]).
Proof.
  intros emojis found Hempty Hres Hok.
  set (missing := filter (λ label, named_emoji emojis label = None) valid).
  assert (Hfound : ∀ label, found label ↔ named_emoji emojis label ≠ None).
  { intros label. rewrite named_emoji_None. split.
    - intros (e & He & Hn) Hall. by apply (Hall e).
    - intros Hn. destruct (named_emoji emojis label) as [e|] eqn:Hl.
      + apply named_emoji_Some in Hl as [? ?]. by exists e.
      + exfalso. apply Hn. by apply named_emoji_None. }
  assert (Hmissing : ∀ label, label ∈ missing ↔ label ∈ valid ∧ ¬ found label).
  { intros label. subst missing. rewrite elem_of_filter, Hfound.
    destruct (named_emoji emojis label); naive_solver. }
  destruct (load_emojis_for_completes valid b g Hempty Hres) as [b' Hrun].
  { destruct Hok as [Hall|[Hc Hs]]; [left|right; eauto].
    apply set_eq. intros label. fold emojis. fold missing.
    rewrite Hmissing. set_solver. }
  exists b'. split; [done|].
  destruct (load_emojis_for_returns valid b b' Hempty Hrun)
    as (g' & Hg' & Hview & Hnone & Hsome).
  assert (g' = g) as -> by congruence.
  fold emojis in Hview, Hnone, Hsome. fold missing in Hnone, Hsome.
  split; [|split; [|split]].
  - intros label Hv Hf. apply Hfound in Hf.
    destruct (named_emoji emojis label) as [e|] eqn:Hn; [|done].
    exists e. destruct (named_emoji_Some _ _ _ Hn) as [? ?].
    do 3 (split; [done|]).
    by rewrite Hview, bool_decide_eq_true_2, Hn.
  - intros label Hv Hf. rewrite Hview, bool_decide_eq_true_2 by done.
    destruct (named_emoji emojis label) as [e|] eqn:Hn; [|done].
    exfalso. apply Hf. apply Hfound. congruence.
  - intros Hall. apply Hnone. apply set_eq. intros label.
    rewrite Hmissing. set_solver.
  - intros (label & Hv & Hf).
    assert (Hne : missing ≠ ∅).
    { intros He. assert (label ∈ missing) by (by apply Hmissing).
      set_solver. }
    destruct (Hsome Hne) as (c' & Hc' & Hsent).
    destruct Hok as [Hall|[Hc _]]; [by destruct Hf; apply Hall|].
    assert (c' = c) as -> by congruence.
    exists (elements missing). split; [apply NoDup_elements|].
    split; [|done]. intros l. by rewrite elem_of_elements.
Qed.

Lemma load_emojis_fills_cache_witness :
  ∃ b', load_emojis_for {[ "commit"; "issue_open"; "pull_open" ]}
          (Sample.bot []) = (Return tt, b')
    ∧ ghostty_emojis b' "commit" = Some (RealEmoji Sample.commit_emoji)
    ∧ ghostty_emojis b' "issue_open" = Some (Glyph placeholder)
    ∧ ghostty_emojis b' "pull_open" = Some (Glyph placeholder)
    ∧ length (sends (emitted (Sample.bot []) b')) = 1%nat.
Proof.
  destruct (load_emojis_fills_cache {[ "commit"; "issue_open"; "pull_open" ]}
              (Sample.bot []) 0%nat Sample.text_channel)
    as (b' & Hrun & Hreal & Hglyph & _ & Hsend);
    [reflexivity | reflexivity | right; split; reflexivity |].
  assert (Hno : ∀ label, label ≠ "commit" → label ≠ "party" →
            ¬ ∃ e, e ∈ guild_emojis
                     (guild_objects (gateway (Sample.bot [])) 0%nat)
                   ∧ emoji_name e = label).
  { intros label H1 H2 (e & Hin & Hname). simpl in Hin.
    apply elem_of_cons in Hin as [->|Hin]; [by apply H1|].
    apply elem_of_cons in Hin as [->|Hin]; [by apply H2|].
    by apply elem_of_nil in Hin. }
  exists b'. split; [exact Hrun|]. split; [|split; [|split]].
  - destruct (Hreal "commit") as (e & _ & _ & Hn & ->); [set_solver| |].
    + exists Sample.commit_emoji. split; [set_solver|reflexivity].
    + vm_compute in Hn. by injection Hn as <-.
  - apply Hglyph; [set_solver|]. by apply Hno.
  - apply Hglyph; [set_solver|]. by apply Hno.
  - destruct Hsend as (names & _ & _ & ->); [|reflexivity].
    exists "issue_open". split; [set_solver|]. by apply Hno.
Defined.

(** C10.  [load_emojis] completes when the primary guild resolves and the
    warning, if there is one, can be delivered.  When it has completed on
    the empty cache that [__init__] leaves, the view has an entry for each
    of the twelve labels: an emoji of the guild with that name when there
    is one, otherwise the string "❓", which is not an emoji object. *)
Theorem emoji_view_is_total (b : Bot) :
  _ghostty_emojis b = ∅ →
  length EmojiName = 12%nat ∧ NoDup EmojiName
  ∧ (∀ e, Glyph placeholder ≠ RealEmoji e)
  ∧ (∀ g c, (ghostty_guild b).1 = Return g →
       (log_channel b).1 = Return c → send_error (gateway b) = None →
       ∃ b', load_emojis b = (Return tt, b'))
  ∧ (∀ b', load_emojis b = (Return tt, b') →
     ∃ g, (ghostty_guild b).1 = Return g ∧
       let emojis := guild_emojis (guild_objects (gateway b) g) in
       ∀ label, label ∈ EmojiName →
         is_Some (ghostty_emojis b' label)
         ∧ ((∃ e, e ∈ emojis ∧ emoji_name e = label
                  ∧ ghostty_emojis b' label = Some (RealEmoji e))
            ∨ ((∀ e, e ∈ emojis → emoji_name e ≠ label)
               ∧ ghostty_emojis b' label = Some (Glyph "❓")))).
Proof.
  intros Hempty. split; [reflexivity|].
  split; [apply (bool_decide_unpack _); by vm_compute|].
  split; [done|]. split.
  - intros g c Hg Hc Hs. unfold load_emojis.
    apply (load_emojis_for_completes _ b g Hempty Hg). right. eauto.
  - intros b' Hrun. unfold load_emojis in Hrun.
    destruct (load_emojis_for_returns _ b b' Hempty Hrun)
      as (g & Hg & Hview & _).
    exists g. split; [done|]. intros emojis label Hin.
    specialize (Hview label). fold emojis in Hview.
    rewrite bool_decide_eq_true_2 in Hview by (by apply elem_of_list_to_set).
    rewrite Hview. split; [eauto|].
    destruct (named_emoji emojis label) as [e|] eqn:Hn.
    + left. exists e. destruct (named_emoji_Some _ _ _ Hn) as [? ?]. eauto.
    + right. split; [by apply named_emoji_None|done].
Qed.

Lemma emoji_view_is_total_witness :
  ∃ b', load_emojis (Sample.bot []) = (Return tt, b')
    ∧ ∀ label, label ∈ EmojiName → is_Some (ghostty_emojis b' label).
Proof.
  destruct (emoji_view_is_total (Sample.bot []) eq_refl)
    as (_ & _ & _ & Hruns & Htotal).
  destruct (Hruns 0%nat Sample.text_channel) as [b' Hrun];
    [reflexivity..|].
  exists b'. split; [exact Hrun|].
  destruct (Htotal b' Hrun) as (g & _ & Hall).
  intros label Hin. by destruct (Hall label Hin) as [? _].
Defined.

(** ** The bootstrap *)

Lemma set_events_sys_modules l s b :
  set_events l (set_sys_modules s b) = set_sys_modules s (set_events l b).
Proof. done. Qed.

(** The head of an activation: its effect on the state, and its result. *)
Lemma load_extension_begin_spec name b r b' :
  load_extension_begin name b = (r, b') →
  modtree b' = modtree b ∧ extensions b' = extensions b
  ∧ (∃ l, events b' = (events b ++ l)%list
          ∧ Forall (λ ev, is_failure_record ev = false) l)
  ∧ match r with
    | Raise e =>
        (is_Exception e = true → is_ExtensionError e = true)
        ∧ (doomed b name → is_Exception e = true)
        ∧ ¬ healthy b name
    | Return (suspends, outcome) =>
        (name ∉ extensions b)
        ∧ (suspends ≤ suspends_of b name)%nat
        ∧ ∃ m, modtree b !! name = Some m ∧ mod_exec m = None
               ∧ match mod_setup m with
                 | SetupCallable n out => suspends = n ∧ outcome = out
                 | SetupNotCallable =>
                     ∃ e, outcome = Some e ∧ is_Exception e = true
                 | NoSetup => False
                 end
    end.
Proof.
  unfold load_extension_begin, super_load_extension_begin, suspends_of,
    healthy.
  unfold_monad. intros H.
  assert (Hq : ∀ x y : Event, is_failure_record x = false →
                 is_failure_record y = false →
                 Forall (λ ev, is_failure_record ev = false) [x; y])
    by (intros; by repeat constructor).
  run_cases; rewrite <- ?(assoc_L app);
    repeat match goal with
           | H : bool_decide _ = true |- _ => apply bool_decide_eq_true_1 in H
           | H : bool_decide _ = false |- _ =>
               apply bool_decide_eq_false_1 in H
           | |- _ ∧ _ => split
           | |- ∃ l, (?a ++ ?x)%list = (?a ++ l)%list ∧ _ => exists x
           end;
    try done; try (by apply Hq); try lia;
    try (intros (? & ? & ? & ? & ? & ?); simplify_eq; congruence);
    try (eexists; split; [reflexivity|]; split; [done|];
         match goal with H : mod_setup _ = _ |- _ => rewrite H end; eauto);
    try congruence.
  unfold doomed. intros [?|Hd]; [done|].
  by rewrite H1, H2 in Hd.
Qed.

Lemma super_load_extension_finish_spec name outcome b r b' :
  super_load_extension_finish name outcome b = (r, b') →
  modtree b' = modtree b ∧ events b' = events b
  ∧ match outcome with
    | None => r = Return tt ∧ extensions b' = {[name]} ∪ extensions b
    | Some e =>
        extensions b' = extensions b
        ∧ r = Raise (if is_Exception e then ExtensionFailed name e else e)
    end.
Proof.
  unfold super_load_extension_finish. unfold_monad. intros H.
  run_cases; done.
Qed.

(** One step of a task that is not done: the modules stay, the records
    are no failure records, fewer steps are left; the registry grows by
    the task's own name when the task returns and not otherwise; and the
    exception of a task is an extension error, or no [Exception]. *)
Lemma task_step_frame t b s b' :
  task_step t b = (s, b') → is_done (task_state t) = false →
  modtree b' = modtree b
  ∧ (∃ l, events b' = (events b ++ l)%list
          ∧ Forall (λ ev, is_failure_record ev = false) l)
  ∧ (steps_left b' (set_task_state s t) < steps_left b t)%nat
  ∧ match s with
    | Created => False
    | Suspended _ _ => extensions b' = extensions b
    | Done None => extensions b' = {[task_name t]} ∪ extensions b
    | Done (Some e) =>
        extensions b' = extensions b
        ∧ (is_Exception e = true → is_ExtensionError e = true)
    end.
Proof.
  unfold task_step, steps_left. intros H Hnd.
  assert (Hnil : ∃ l, events b = (events b ++ l)%list
            ∧ Forall (λ ev, is_failure_record ev = false) l)
    by (exists []; by rewrite app_nil_r).
  destruct (task_state t) as [|remaining outcome|r] eqn:Hs; [| |done].
  - destruct (must_cancel t);
      [simplify_eq/=; repeat split; (done || lia)|].
    destruct (load_extension_begin (task_name t) b) as [[[n out]|e] b1] eqn:Hb;
      apply load_extension_begin_spec in Hb
        as (Hmt & Hext & Hev & Hr).
    + destruct Hr as (_ & Hle & _).
      destruct n as [|k].
      * destruct (super_load_extension_finish (task_name t) out b1)
          as [rf bf] eqn:Hf.
        apply super_load_extension_finish_spec in Hf as (Hmt' & Hev' & Hf).
        destruct out as [e|]; destruct Hf as [? ?]; simplify_eq/=;
          rewrite ?Hmt', ?Hmt, ?Hev';
          repeat split; try (done || lia || congruence).
        destruct (is_Exception e) eqn:He; [done|congruence].
      * simplify_eq/=. unfold suspends_of in *. rewrite Hmt.
        repeat split; (done || lia).
    + simplify_eq/=. destruct Hr as (? & ? & _).
      repeat split; (done || lia).
  - destruct (must_cancel t);
      [simplify_eq/=; repeat split; (done || lia)|].
    destruct remaining as [|k].
    + destruct (super_load_extension_finish (task_name t) outcome b)
        as [rf bf] eqn:Hf.
      apply super_load_extension_finish_spec in Hf as (Hmt' & Hev' & Hf).
      destruct outcome as [e|]; destruct Hf as [? ?]; simplify_eq/=;
        rewrite ?Hev'; repeat split; try (done || lia).
      destruct (is_Exception e) eqn:He; [done|congruence].
    + simplify_eq/=. repeat split; (done || lia).
Qed.

Lemma doomed_mono b b' name :
  modtree b' = modtree b → extensions b ⊆ extensions b' →
  doomed b name → doomed b' name.
Proof. unfold doomed. intros -> Hsub [?|?]; [left; set_solver|by right]. Qed.

Lemma failing_mono b b' t :
  modtree b' = modtree b → extensions b ⊆ extensions b' →
  failing b t → failing b' t.
Proof.
  unfold failing. intros Hmt Hsub.
  destruct (task_state t); [by apply doomed_mono|done..].
Qed.


(** A step of a failing task leaves it failing. *)
Lemma task_step_failing t b s b' :
  task_step t b = (s, b') → failing b t → failing b' (set_task_state s t).
Proof.
  unfold task_step, failing. simpl. intros H Hf.
  destruct (task_state t) as [|remaining outcome|r] eqn:Hs.
  - destruct (must_cancel t) eqn:Hc; [simplify_eq/=; eauto|].
    destruct (load_extension_begin (task_name t) b) as [[[n out]|e] b1] eqn:Hb;
      apply load_extension_begin_spec in Hb as (Hmt & Hext & _ & Hr).
    + destruct Hr as (Hn & _ & m & Hm & Hexec & Hsetup).
      assert (Hout : ∃ e, out = Some e ∧ is_Exception e = true).
      { destruct Hf as [?|Hf]; [done|]. rewrite Hm, Hexec in Hf.
        destruct (mod_setup m) as [| |n' [e|]]; try done.
        destruct Hsetup as [_ ->]. eauto. }
      destruct Hout as (e & -> & He).
      destruct n as [|k]; [|simplify_eq/=; eauto].
      unfold super_load_extension_finish in H. rewrite He in H.
      unfold_monad. simplify_eq/=. eauto.
    + destruct Hr as (_ & Hd & _). specialize (Hd Hf). simplify_eq/=. eauto.
  - destruct (must_cancel t) eqn:Hc; [simplify_eq/=; eauto|].
    destruct Hf as (e & -> & He).
    destruct remaining as [|k]; [|simplify_eq/=; eauto].
    unfold super_load_extension_finish in H. rewrite He in H.
    unfold_monad. simplify_eq/=. eauto.
  - by simplify_eq/=.
Qed.


Lemma sum_list_fmap_delete {A} (f : A → nat) (l : list A) n x :
  l !! n = Some x →
  sum_list (f <$> l) = (f x + sum_list (f <$> delete n l))%nat.
Proof.
  revert n. induction l as [|y l IH]; intros [|n] H; simplify_eq/=; [done|].
  rewrite (IH n H). rewrite !Nat.add_assoc. f_equal. apply Nat.add_comm.
Qed.

Lemma sum_list_fmap_le {A} (f g : A → nat) (l : list A) :
  (∀ x, x ∈ l → (f x ≤ g x)%nat) →
  (sum_list (f <$> l) ≤ sum_list (g <$> l))%nat.
Proof.
  induction l as [|y l IH]; intros H; [done|].
  rewrite !fmap_cons. simpl. apply Nat.add_le_mono.
  - apply H. apply list_elem_of_here.
  - apply IH. intros x Hx. apply H. by apply list_elem_of_further.
Qed.

Lemma steps_left_modtree b b' t :
  modtree b' = modtree b → steps_left b' t = steps_left b t.
Proof. unfold steps_left, suspends_of. by intros ->. Qed.

Lemma steps_left_cancel b t : steps_left b (cancel t) = steps_left b t.
Proof. unfold cancel. by case_match. Qed.

(** What the done callback of task [i] makes of the task list: task [i]
    leaves the group, and every task keeps its name and its state. *)
Lemma run_on_task_done_tasks i l t :
  loop_tasks l !! i = Some t →
  ∃ g : Task → Task,
    (∀ j, loop_tasks (run_on_task_done i l) !! j =
            (λ tj, g (if decide (j = i) then leave_group tj else tj))
              <$> loop_tasks l !! j)
    ∧ (∀ tj, task_name (g tj) = task_name tj
             ∧ task_state (g tj) = task_state tj
             ∧ in_group (g tj) = in_group tj
             ∧ (must_cancel (g tj) = must_cancel tj
                ∨ (must_cancel (g tj) = true
                   ∧ group_aborting (run_on_task_done i l) = true))).
Proof.
  intros Ht. unfold run_on_task_done. rewrite Ht.
  assert (Hins : ∀ j, <[i:=leave_group t]> (loop_tasks l) !! j =
            (λ tj, if decide (j = i) then leave_group tj else tj)
              <$> loop_tasks l !! j).
  { intros j. destruct (decide (j = i)) as [->|Hne].
    - rewrite list_lookup_insert_eq by (by eapply lookup_lt_Some).
      by rewrite Ht.
    - rewrite list_lookup_insert_ne by done.
      by destruct (loop_tasks l !! j). }
  assert (Hid : ∃ g : Task → Task,
    (∀ j, <[i:=leave_group t]> (loop_tasks l) !! j =
            (λ tj, g (if decide (j = i) then leave_group tj else tj))
              <$> loop_tasks l !! j)
    ∧ ∀ tj, task_name (g tj) = task_name tj
             ∧ task_state (g tj) = task_state tj
             ∧ in_group (g tj) = in_group tj
             ∧ must_cancel (g tj) = must_cancel tj).
  { exists id. split; [exact Hins|done]. }
  destruct (task_state t) as [| |[e|]];
    try (destruct Hid as (g & ? & Hg); exists g; split; [done|];
         intros tj; destruct (Hg tj) as (? & ? & ? & ?); by eauto).
  destruct (is_Exception e);
    [|destruct Hid as (g & ? & Hg); exists g; split; [done|];
      intros tj; destruct (Hg tj) as (? & ? & ? & ?); by eauto].
  simpl. destruct (group_aborting l).
  - destruct Hid as (g & ? & Hg). exists g. split; [done|].
    intros tj. destruct (Hg tj) as (? & ? & ? & ?). by eauto.
  - exists cancel. split.
    + intros j. rewrite list_lookup_fmap, Hins.
      by destruct (loop_tasks l !! j).
    + intros tj. unfold cancel. case_match; simpl; auto 10.
Qed.

Lemma run_on_task_done_rest i l t :
  loop_tasks l !! i = Some t →
  loop_ready (run_on_task_done i l) = loop_ready l
  ∧ loop_bot (run_on_task_done i l) = loop_bot l
  ∧ ((∃ e, task_state t = Done (Some e) ∧ is_Exception e = true
           ∧ group_errors (run_on_task_done i l)
             = (group_errors l ++ [e])%list
           ∧ group_aborting (run_on_task_done i l) = true)
     ∨ ((∀ e, task_state t = Done (Some e) → is_Exception e = false)
        ∧ group_errors (run_on_task_done i l) = group_errors l
        ∧ group_aborting (run_on_task_done i l) = group_aborting l)).
Proof.
  intros Ht. unfold run_on_task_done. rewrite Ht.
  destruct (task_state t) as [| |[e|]]; simpl;
    try (do 2 (split; [done|]); right; by repeat split).
  destruct (is_Exception e) eqn:He; simpl; do 2 (split; [done|]).
  - left. by exists e.
  - right. split; [|done]. by intros ? [= <-].
Qed.

(** Every callback that runs lowers the measure of the loop. *)
Lemma loop_weight_decreases l n cb :
  loop_ready l !! n = Some cb →
  (loop_weight (run_callback cb (set_ready (delete n (loop_ready l)) l))
   < loop_weight l)%nat.
Proof.
  intros Hcb. unfold loop_weight at 2.
  rewrite (sum_list_fmap_delete _ _ _ _ Hcb).
  set (lp := set_ready (delete n (loop_ready l)) l).
  assert (Hlp : callback_weight lp = callback_weight l) by done.
  assert (Hpos : (1 ≤ callback_weight l cb)%nat).
  { destruct cb as [i|i]; simpl; [|done]. case_match; lia. }
  destruct cb as [i|i]; simpl.
  - unfold run_step.
    destruct (loop_tasks lp !! i) as [t|] eqn:Ht;
      [|unfold loop_weight; rewrite Hlp; simpl in *; lia].
    destruct (is_done (task_state t)) eqn:Hd;
      [unfold loop_weight; rewrite Hlp; simpl in *; lia|].
    destruct (task_step t (loop_bot lp)) as [s b'] eqn:Hstep.
    destruct (task_step_frame _ _ _ _ Hstep Hd) as (Hmt & _ & Hlt & _).
    unfold loop_weight. simpl. rewrite fmap_app, sum_list_with_app. simpl.
    simpl in Ht. rewrite Ht.
    match goal with
    | |- (sum_list (?f <$> _) + _ < _)%nat =>
        assert (Hle : (sum_list (f <$> delete n (loop_ready l))
                  ≤ sum_list (callback_weight l <$> delete n (loop_ready l)))%nat)
    end.
    { apply sum_list_fmap_le. intros [j|j] _; simpl; [|done].
      destruct (decide (j = i)) as [->|Hne].
      - rewrite list_lookup_insert_eq by (by eapply lookup_lt_Some).
        rewrite Ht. simpl in *. lia.
      - rewrite list_lookup_insert_ne by done.
        destruct (loop_tasks l !! j); [|done].
        by rewrite (steps_left_modtree _ _ _ Hmt). }
    assert (Hnew : (callback_weight
              {| loop_tasks := <[i:=set_task_state s t]> (loop_tasks l);
                 loop_ready := (delete n (loop_ready l) ++
                   [if is_done s then OnTaskDone i else Step i])%list;
                 group_errors := group_errors l;
                 group_aborting := group_aborting l; loop_bot := b' |}
              (if is_done s then OnTaskDone i else Step i)
            < 1 + steps_left (loop_bot l) t)%nat).
    { destruct (is_done s); simpl in *; [lia|].
      rewrite list_lookup_insert_eq by (by eapply lookup_lt_Some). lia. }
    simpl in *. lia.
  - destruct (loop_tasks lp !! i) as [t|] eqn:Ht.
    2:{ unfold run_on_task_done. rewrite Ht.
        unfold loop_weight. rewrite Hlp. simpl in *. lia. }
    destruct (run_on_task_done_tasks i lp t Ht) as (g & Hg & Hkeep).
    destruct (run_on_task_done_rest i lp t Ht) as (Hready & Hbot & _).
    unfold loop_weight. rewrite Hready. simpl.
    assert (Hle : (sum_list (callback_weight (run_on_task_done i lp)
                               <$> delete n (loop_ready l))
              ≤ sum_list (callback_weight l <$> delete n (loop_ready l)))%nat).
    { apply sum_list_fmap_le. intros [j|j] _; simpl; [|done].
      rewrite Hg, Hbot. simpl.
      destruct (loop_tasks l !! j) as [tj|]; simpl; [|done].
      destruct (Hkeep (if decide (j = i) then leave_group tj else tj))
        as (Hn & Hs & _).
      unfold steps_left. rewrite Hn, Hs. by destruct (decide (j = i)). }
    lia.
Qed.

Lemma loop_iteration_runs choice l :
  loop_ready l ≠ [] →
  ∃ n cb, loop_ready l !! n = Some cb
    ∧ loop_iteration choice l
      = run_callback cb (set_ready (delete n (loop_ready l)) l).
Proof.
  intros Hne. unfold loop_iteration.
  set (n := (choice `mod` length (loop_ready l))%nat).
  assert (Hlt : (n < length (loop_ready l))%nat).
  { subst n. apply Nat.mod_upper_bound. by destruct (loop_ready l). }
  destruct (lookup_lt_is_Some_2 _ _ Hlt) as [cb Hcb].
  exists n, cb. by rewrite Hcb.
Qed.

(** The event loop empties its queue within [loop_weight] iterations,
    whatever the order in which the callbacks run. *)
Lemma run_loop_terminates sched fuel l :
  (loop_weight l ≤ fuel)%nat →
  ∃ l', run_loop sched fuel l = Some l' ∧ loop_ready l' = [].
Proof.
  revert sched l. induction fuel as [|fuel IH]; intros sched l Hw.
  - destruct (loop_ready l) as [|cb ready] eqn:Hr; simpl; rewrite Hr.
    + by exists l.
    + exfalso. unfold loop_weight in Hw. rewrite Hr in Hw. simpl in Hw.
      destruct cb; simpl in Hw; [case_match|]; lia.
  - destruct (loop_ready l) as [|cb0 ready] eqn:Hr; simpl; rewrite Hr.
    + by exists l.
    + destruct (loop_iteration_runs (hd 0%nat sched) l) as (n & cb & Hcb & ->);
        [by rewrite Hr|].
      apply IH. pose proof (loop_weight_decreases l n cb Hcb). lia.
Qed.

(** A property that every callback preserves holds when the loop ends. *)
Lemma run_loop_invariant (P : Loop → Prop) sched fuel l l' :
  (∀ l n cb, P l → loop_ready l !! n = Some cb →
     P (run_callback cb (set_ready (delete n (loop_ready l)) l))) →
  P l → run_loop sched fuel l = Some l' →
  P l' ∧ loop_ready l' = [].
Proof.
  intros Hstep. revert sched l.
  induction fuel as [|fuel IH]; intros sched l HP Hrun; simpl in Hrun;
    destruct (loop_ready l) as [|cb0 ready] eqn:Hr; simplify_eq; try done.
  destruct (loop_iteration_runs (hd 0%nat sched) l) as (n & cb & Hcb & Heq);
    [by rewrite Hr|].
  rewrite Heq in Hrun. eapply IH; [|exact Hrun]. by apply Hstep.
Qed.

Lemma elem_of_delete_ne {A} (l : list A) n x y :
  l !! n = Some y → x ≠ y → x ∈ l → x ∈ delete n l.
Proof.
  revert n. induction l as [|z l IH]; intros [|n] Hn Hne Hin; simplify_eq/=.
  - apply elem_of_cons in Hin as [?|?]; done.
  - apply elem_of_cons in Hin as [->|?]; [apply list_elem_of_here|].
    apply list_elem_of_further. by eapply IH.
Qed.

Lemma elem_of_delete_inv {A} (l : list A) n x : x ∈ delete n l → x ∈ l.
Proof.
  revert n. induction l as [|z l IH]; intros [|n] Hin; simpl in Hin;
    [done|done|by apply list_elem_of_further|].
  apply elem_of_cons in Hin as [->|?]; [apply list_elem_of_here|].
  apply list_elem_of_further. by eapply IH.
Qed.

(** What a step of task [i] makes of the loop. *)
Lemma run_step_spec i l :
  (run_step i l = l
   ∧ ∀ t, loop_tasks l !! i = Some t → is_done (task_state t) = true)
  ∨ ∃ t s b',
      loop_tasks l !! i = Some t ∧ is_done (task_state t) = false
      ∧ task_step t (loop_bot l) = (s, b')
      ∧ run_step i l =
          {| loop_tasks := <[i := set_task_state s t]> (loop_tasks l);
             loop_ready :=
               (loop_ready l ++ [if is_done s then OnTaskDone i else Step i])%list;
             group_errors := group_errors l;
             group_aborting := group_aborting l;
             loop_bot := b' |}.
Proof.
  unfold run_step. destruct (loop_tasks l !! i) as [t|] eqn:Ht; [|by left].
  destruct (is_done (task_state t)) eqn:Hd.
  - left. split; [done|]. by intros ? [= <-].
  - right. destruct (task_step t (loop_bot l)) as [s b'] eqn:Hs.
    by exists t, s, b'.
Qed.

Lemma consistent_preserved l n cb :
  consistent l → loop_ready l !! n = Some cb →
  consistent (run_callback cb (set_ready (delete n (loop_ready l)) l)).
Proof.
  intros [Htasks Hcbs] Hcb.
  assert (Hin : cb ∈ loop_ready l) by (by eapply list_elem_of_lookup_2).
  set (lp := set_ready (delete n (loop_ready l)) l).
  assert (Hkeep : ∀ x, x ≠ cb → x ∈ loop_ready l → x ∈ loop_ready lp).
  { intros x Hne Hx. simpl. by eapply elem_of_delete_ne. }
  assert (Hsub : ∀ x, x ∈ loop_ready lp → x ∈ loop_ready l).
  { intros x. simpl. apply elem_of_delete_inv. }
  destruct cb as [i|i]; simpl.
  - destruct (run_step_spec i lp) as [[-> Hdone]|(t & s & b' & Ht & Hnd & Hs & ->)].
    + split.
      * intros j tj Hj. destruct (Htasks j tj Hj) as [Ha Hb]. split.
        -- intros Hnd. destruct (Ha Hnd) as [? ?]. split; [|done].
           apply Hkeep; [|done]. intros [= ->].
           specialize (Hdone _ Hj). congruence.
        -- intros ??. apply Hkeep; [done|]. by apply Hb.
      * intros j Hj. apply Hcbs. by apply Hsub.
    + simpl in Ht. destruct (Htasks i t Ht) as [Ha _].
      destruct (Ha Hnd) as [_ Hgrp]. split; simpl.
      * intros j tj Hj.
        apply list_lookup_insert_Some in Hj as [(<- & <- & _)|[Hne Hj]].
        -- simpl. split.
           ++ intros Hd. rewrite Hd. split; [set_solver|done].
           ++ intros Hd _. rewrite Hd. set_solver.
        -- destruct (Htasks j tj Hj) as [Ha' Hb']. split.
           ++ intros Hd. destruct (Ha' Hd) as [? ?]. split; [|done].
              apply elem_of_app. left. apply (Hkeep (Step j)); [congruence|done].
           ++ intros Hd Hg. apply elem_of_app. left.
              apply (Hkeep (OnTaskDone j)); [done|]. by apply Hb'.
      * intros j Hj. apply elem_of_app in Hj as [Hj|Hj].
        -- destruct (Hcbs j (Hsub _ Hj)) as (tj & Htj & Hd).
           exists tj. split; [|done].
           rewrite list_lookup_insert_ne; [done|]. intros <-. congruence.
        -- apply list_elem_of_singleton in Hj.
           destruct (is_done s) eqn:Hd; [|done]. injection Hj as ->.
           exists (set_task_state s t). split; [|done].
           apply list_lookup_insert_eq. by eapply lookup_lt_Some.
  - destruct (loop_tasks lp !! i) as [t|] eqn:Ht.
    2:{ destruct (Hcbs i Hin) as (? & ? & _). simpl in Ht. congruence. }
    destruct (run_on_task_done_tasks i lp t Ht) as (g & Hg & Hk).
    destruct (run_on_task_done_rest i lp t Ht) as (Hready & _ & _).
    destruct (Hcbs i Hin) as (t' & Ht' & Hdone).
    simpl in Ht. assert (t' = t) as -> by congruence.
    split; rewrite Hready.
    + intros j tj' Hj. rewrite Hg in Hj. simpl in Hj.
      destruct (loop_tasks l !! j) as [tj|] eqn:Htj; [|done].
      injection Hj as <-.
      destruct (Hk (if decide (j = i) then leave_group tj else tj))
        as (_ & -> & -> & _).
      destruct (Htasks j tj Htj) as [Ha Hb].
      destruct (decide (j = i)) as [->|Hne]; simpl.
      * assert (tj = t) as -> by congruence. split; [congruence|done].
      * split.
        -- intros Hnd. destruct (Ha Hnd) as [? ?]. split; [|done].
           by apply Hkeep.
        -- intros ??. apply Hkeep; [congruence|]. by apply Hb.
    + intros j Hj. destruct (Hcbs j (Hsub _ Hj)) as (tj & Htj & Hd).
      rewrite Hg. simpl. rewrite Htj. simpl. eexists. split; [done|].
      destruct (Hk (if decide (j = i) then leave_group tj else tj))
        as (_ & -> & _).
      by destruct (decide (j = i)).
Qed.

Lemma errors_kept_preserved l n cb :
  consistent l → errors_kept l → loop_ready l !! n = Some cb →
  errors_kept (run_callback cb (set_ready (delete n (loop_ready l)) l)).
Proof.
  intros [Htasks Hcbs] (E1 & EF & E2 & E3 & E5) Hcb.
  set (lp := set_ready (delete n (loop_ready l)) l).
  destruct cb as [i|i]; simpl.
  - destruct (run_step_spec i lp) as [[-> _]|(t & s & b' & Ht & Hnd & Hs & ->)];
      [done|].
    simpl in Ht. destruct (Htasks i t Ht) as [Ha _].
    destruct (Ha Hnd) as [_ Hgrp].
    destruct (task_step_frame _ _ _ _ Hs Hnd) as (_ & _ & _ & Hres).
    repeat split; simpl; [|done|done| |].
    + intros j tj e Hj.
      apply list_lookup_insert_Some in Hj as [(<- & <- & _)|[Hne Hj]];
        [simpl; congruence|by eapply E1].
    + intros j tj Hj.
      apply list_lookup_insert_Some in Hj as [(<- & <- & _)|[Hne Hj]];
        [simpl; by eapply E3|by eapply E3].
    + intros j tj e Hj.
      apply list_lookup_insert_Some in Hj as [(<- & <- & _)|[Hne Hj]];
        [|by eapply E5].
      simpl. intros ->. by destruct Hres as [_ ?].
  - destruct (loop_tasks lp !! i) as [t|] eqn:Ht.
    2:{ unfold run_on_task_done. by rewrite Ht. }
    destruct (run_on_task_done_tasks i lp t Ht) as (g & Hg & Hk).
    destruct (run_on_task_done_rest i lp t Ht) as (_ & _ & Hrest).
    simpl in Ht.
    assert (Hlook : ∀ j tj', loop_tasks (run_on_task_done i lp) !! j = Some tj' →
      ∃ tj, loop_tasks l !! j = Some tj
        ∧ task_state tj' = task_state tj
        ∧ in_group tj' = (if decide (j = i) then false else in_group tj)
        ∧ (must_cancel tj' = must_cancel tj
           ∨ (must_cancel tj' = true
              ∧ group_aborting (run_on_task_done i lp) = true))).
    { intros j tj' Hj. rewrite Hg in Hj. simpl in Hj.
      destruct (loop_tasks l !! j) as [tj|] eqn:Htj; [|done].
      injection Hj as <-. exists tj. split; [done|].
      destruct (Hk (if decide (j = i) then leave_group tj else tj))
        as (_ & -> & -> & Hc).
      by destruct (decide (j = i)). }
    assert (Herr : ∀ e, e ∈ group_errors l →
              e ∈ group_errors (run_on_task_done i lp)).
    { intros e He. destruct Hrest as [(e' & _ & _ & -> & _)|(_ & -> & _)];
        [set_solver|done]. }
    repeat split.
    + intros j tj' e Hj Hst He Hgrp.
      destruct (Hlook j tj' Hj) as (tj & Htj & Hs' & Hg' & _).
      rewrite Hs' in Hst. destruct (decide (j = i)) as [->|Hne].
      * assert (tj = t) as -> by congruence.
        destruct Hrest as [(e' & Hst' & _ & -> & _)|(Hno & _)].
        -- assert (e' = e) as -> by congruence. set_solver.
        -- specialize (Hno e Hst). congruence.
      * apply Herr. eapply E1; [done..|congruence].
    + destruct Hrest as [(e' & Hst' & He' & -> & _)|(_ & -> & _)]; [|done].
      apply Forall_app. split; [done|]. apply Forall_singleton. by eapply E5.
    + destruct Hrest as [(e' & _ & _ & -> & _)|(_ & -> & ->)]; [|done].
      intros _ Hnil. by apply app_eq_nil in Hnil as [_ ?].
    + intros j tj' Hj Hc.
      destruct (Hlook j tj' Hj) as (tj & Htj & _ & _ & [Hm|[_ ?]]); [|done].
      rewrite Hm in Hc. pose proof (E3 _ _ Htj Hc) as Hab.
      destruct Hrest as [(_ & _ & _ & _ & ->)|(_ & _ & ->)]; done.
    + intros j tj' e Hj Hst.
      destruct (Hlook j tj' Hj) as (tj & Htj & Hs' & _).
      rewrite Hs' in Hst. by eapply E5.
Qed.

Lemma loop_frame_preserved b1 names l n cb :
  loop_frame b1 names l → loop_ready l !! n = Some cb →
  loop_frame b1 names
    (run_callback cb (set_ready (delete n (loop_ready l)) l)).
Proof.
  intros Hframe Hcb.
  pose proof Hframe as (Hreg & Hnames & Hmt & evs & Hev & Hq).
  set (lp := set_ready (delete n (loop_ready l)) l).
  destruct cb as [i|i]; simpl.
  - destruct (run_step_spec i lp) as [[-> _]|(t & s & b' & Ht & Hnd & Hs & ->)].
    { exact Hframe. }
    simpl in Ht, Hs.
    destruct (task_step_frame _ _ _ _ Hs Hnd)
      as (Hmt' & (evs' & Hev' & Hq') & _ & Hres).
    assert (Hsub : extensions (loop_bot l) ⊆ extensions b').
    { destruct s as [| |[e|]]; [done|set_solver|set_solver|set_solver]. }
    assert (Hnew : ∀ name, name ∈ extensions b' →
              name ∈ extensions (loop_bot l)
              ∨ (name = task_name t ∧ s = Done None)).
    { intros name Hin.
      destruct s as [| |[e|]]; [done|left; set_solver|left; set_solver|].
      rewrite Hres in Hin. set_solver. }
    split; [intros name; split|split; [|split]]; simpl.
    + intros Hin. destruct (Hnew _ Hin) as [Hold|[-> ->]].
      * apply Hreg in Hold as [?|(j & tj & Hj & ? & Hst)]; [by left|].
        right. exists j, tj. split; [|done].
        rewrite list_lookup_insert_ne; [done|]. intros <-.
        assert (tj = t) as -> by congruence. by rewrite Hst in Hnd.
      * right. exists i, (set_task_state (Done None) t).
        split; [|done]. apply list_lookup_insert_eq. by eapply lookup_lt_Some.
    + intros [Hin|(j & tj & Hj & Hname & Hst)].
      * apply Hsub, Hreg. by left.
      * apply list_lookup_insert_Some in Hj as [(<- & <- & _)|[Hne Hj]].
        -- simpl in *. subst s. rewrite Hres. set_solver.
        -- apply Hsub, Hreg. right. by exists j, tj.
    + rewrite list_fmap_insert. simpl. rewrite <- Hnames.
      apply list_insert_id. by rewrite list_lookup_fmap, Ht.
    + congruence.
    + exists (evs ++ evs')%list. split; [|by apply Forall_app].
      by rewrite Hev', Hev, (assoc_L app).
  - destruct (loop_tasks lp !! i) as [t|] eqn:Ht.
    2:{ unfold run_on_task_done. rewrite Ht. exact Hframe. }
    destruct (run_on_task_done_tasks i lp t Ht) as (g & Hg & Hk).
    destruct (run_on_task_done_rest i lp t Ht) as (_ & Hbot & _).
    unfold loop_frame, registry_tracked. rewrite Hbot. simpl.
    split; [intros name; split|split; [|split; [done|by exists evs]]].
    + intros Hin. apply Hreg in Hin as [?|(j & tj & Hj & Hname & Hst)];
        [by left|].
      right. exists j. rewrite Hg. simpl. rewrite Hj. simpl.
      eexists. split; [done|].
      destruct (Hk (if decide (j = i) then leave_group tj else tj))
        as (-> & -> & _).
      by destruct (decide (j = i)).
    + intros [Hin|(j & tj' & Hj & Hname & Hst)]; [apply Hreg; by left|].
      rewrite Hg in Hj. simpl in Hj.
      destruct (loop_tasks l !! j) as [tj|] eqn:Htj; [|done].
      injection Hj as <-. apply Hreg. right. exists j, tj.
      destruct (Hk (if decide (j = i) then leave_group tj else tj))
        as (Hn' & Hs' & _).
      rewrite Hn' in Hname. rewrite Hs' in Hst.
      by destruct (decide (j = i)).
    + rewrite <- Hnames. apply list_eq. intros j.
      rewrite !list_lookup_fmap, Hg. simpl.
      destruct (loop_tasks l !! j) as [tj|]; [|done]. simpl. f_equal.
      destruct (Hk (if decide (j = i) then leave_group tj else tj))
        as (-> & _).
      by destruct (decide (j = i)).
Qed.


Lemma task_failing_preserved b1 names k l n cb :
  loop_frame b1 names l →
  task_failing k l → loop_ready l !! n = Some cb →
  task_failing k (run_callback cb (set_ready (delete n (loop_ready l)) l)).
Proof.
  intros _ Hfail Hcb. pose proof Hfail as (tk & Htk & Hf).
  set (lp := set_ready (delete n (loop_ready l)) l).
  destruct cb as [i|i]; simpl.
  - destruct (run_step_spec i lp) as [[-> _]|(t & s & b' & Ht & Hd & Hs & ->)];
      [exact Hfail|].
    simpl in Ht, Hs.
    destruct (task_step_frame _ _ _ _ Hs Hd) as (Hmt' & _ & _ & Hres).
    unfold task_failing. simpl.
    destruct (decide (i = k)) as [->|Hne].
    + assert (tk = t) as -> by congruence.
      exists (set_task_state s t). split.
      * apply list_lookup_insert_eq. by eapply lookup_lt_Some.
      * by eapply task_step_failing.
    + exists tk. split; [by rewrite list_lookup_insert_ne|].
      eapply failing_mono; [exact Hmt'| |done].
      destruct s as [| |[e|]]; [done|set_solver|set_solver|set_solver].
  - destruct (loop_tasks lp !! i) as [t|] eqn:Ht.
    2:{ unfold run_on_task_done. rewrite Ht. exact Hfail. }
    destruct (run_on_task_done_tasks i lp t Ht) as (g & Hg & Hk).
    destruct (run_on_task_done_rest i lp t Ht) as (_ & Hbot & _).
    unfold task_failing. rewrite Hg, Hbot. simpl. rewrite Htk. simpl.
    eexists. split; [done|].
    destruct (Hk (if decide (k = i) then leave_group tk else tk))
      as (Hn' & Hs' & _ & Hc').
    unfold failing in *. rewrite Hn', Hs'.
    assert (Hsame : task_state (if decide (k = i) then leave_group tk else tk)
                    = task_state tk) by (by destruct (decide (k = i))).
    assert (Hname : task_name (if decide (k = i) then leave_group tk else tk)
                    = task_name tk) by (by destruct (decide (k = i))).
    assert (Hcan : must_cancel (if decide (k = i) then leave_group tk else tk)
                    = must_cancel tk) by (by destruct (decide (k = i))).
    rewrite Hsame, Hname. destruct (task_state tk); [done|done|].
    destruct Hf as (e & -> & [?|Hc]); exists e; split; auto.
    right. destruct Hc' as [->|[-> _]]; [congruence|done].
Qed.

Lemma create_tasks_lookup names b i t :
  loop_tasks (create_tasks names b) !! i = Some t →
  names !! i = Some (task_name t) ∧ task_state t = Created
  ∧ must_cancel t = false ∧ in_group t = true.
Proof.
  simpl. rewrite list_lookup_fmap. destruct (names !! i); [|done].
  by intros [= <-].
Qed.

Lemma create_tasks_consistent names b : consistent (create_tasks names b).
Proof.
  split.
  - intros i t Ht. pose proof (lookup_lt_Some _ _ _ Ht) as Hlt.
    apply create_tasks_lookup in Ht as (_ & Hs & _ & Hg). rewrite Hs.
    split; [|done]. intros _. split; [|done]. simpl.
    apply list_elem_of_fmap. exists i. split; [done|].
    apply elem_of_seq. simpl in Hlt. rewrite length_fmap in Hlt. lia.
  - intros i Hin. simpl in Hin.
    apply list_elem_of_fmap in Hin as (? & ? & _). done.
Qed.

Lemma create_tasks_errors_kept names b : errors_kept (create_tasks names b).
Proof.
  repeat split; try done.
  - intros i t e Ht Hs. apply create_tasks_lookup in Ht as (_ & ? & _).
    congruence.
  - intros i t Ht Hc. apply create_tasks_lookup in Ht as (_ & _ & ? & _).
    congruence.
  - intros i t e Ht Hs. apply create_tasks_lookup in Ht as (_ & ? & _).
    congruence.
Qed.

Lemma create_tasks_frame names b : loop_frame b names (create_tasks names b).
Proof.
  split; [|split; [|split]].
  - intros name. split; [by left|].
    intros [?|(i & t & Ht & _ & Hs)]; [done|].
    apply create_tasks_lookup in Ht as (_ & ? & _). congruence.
  - simpl. rewrite <- list_fmap_compose. apply list_fmap_id.
  - done.
  - exists []. by rewrite app_nil_r.
Qed.

Lemma create_tasks_weight names b :
  loop_weight (create_tasks names b) = bootstrap_fuel b names.
Proof.
  unfold loop_weight, bootstrap_fuel.
  assert (H : ∀ pre,
    sum_list (callback_weight (create_tasks (pre ++ names) b)
                <$> (Step <$> seq (length pre) (length names)))
    = sum_list ((λ name, 3 + suspends_of b name)%nat <$> names)).
  { induction names as [|name names IH]; intros pre; [done|].
    simpl. rewrite list_lookup_fmap, lookup_app_r by done.
    rewrite Nat.sub_diag. simpl. do 3 f_equal.
    specialize (IH (pre ++ [name])%list).
    rewrite length_app, <- (assoc_L app) in IH. simpl in IH.
    rewrite Nat.add_1_r in IH. f_equal. exact IH. }
  exact (H []).
Qed.

Lemma activates_healthy b name : activates b name → healthy b name.
Proof.
  intros [b' H]. unfold load_extension, mbind, M_bind in H.
  destruct (load_extension_begin name b) as [[[n out]|e] b1] eqn:Hb; [|done].
  apply load_extension_begin_spec in Hb as (_ & _ & _ & Hn & _ & m & Hm & Hx & Hs).
  simpl in H.
  destruct (super_load_extension_finish name out b1) as [r bf] eqn:Hf.
  apply super_load_extension_finish_spec in Hf as (_ & _ & Hf).
  destruct out as [e|]; [destruct Hf as [_ ->]; done|].
  split; [done|]. exists m.
  destruct (mod_setup m) as [| |n' out'] eqn:Hsetup; [done| |].
  - by destruct Hs as (? & ? & _).
  - destruct Hs as [-> <-]. eauto.
Qed.


(** When the queue is empty every task is done and has left the group. *)
Lemma consistent_at_end l i t :
  consistent l → loop_ready l = [] → loop_tasks l !! i = Some t →
  is_done (task_state t) = true ∧ in_group t = false.
Proof.
  intros [Htasks _] Hempty Ht. destruct (Htasks i t Ht) as [Ha Hb].
  rewrite Hempty in Ha, Hb.
  destruct (is_done (task_state t)) eqn:Hd.
  - split; [done|]. destruct (in_group t); [|done].
    by apply elem_of_nil in Hb.
  - destruct (Ha eq_refl) as [Hin _]. by apply elem_of_nil in Hin.
Qed.

(** The general facts of a bootstrap that ran to its end. *)
Lemma run_loop_general sched fuel names b1 l' :
  run_loop sched fuel (create_tasks names b1) = Some l' →
  consistent l' ∧ errors_kept l' ∧ loop_frame b1 names l'
  ∧ loop_ready l' = [].
Proof.
  intros Hrun.
  destruct (run_loop_invariant
              (λ l, consistent l ∧ errors_kept l ∧ loop_frame b1 names l)
              sched fuel (create_tasks names b1) l') as [(? & ? & ?) ?]; [| |exact Hrun|done].
  - intros l n cb (Hc & He & Hf) Hcb. split; [|split].
    + by apply consistent_preserved.
    + by apply errors_kept_preserved.
    + by apply loop_frame_preserved.
  - split; [apply create_tasks_consistent|].
    split; [apply create_tasks_errors_kept|apply create_tasks_frame].
Qed.


Lemma run_loop_task_failing sched fuel names b1 l' k name :
  names !! k = Some name → doomed b1 name →
  run_loop sched fuel (create_tasks names b1) = Some l' →
  task_failing k l'.
Proof.
  intros Hk Hd Hrun.
  destruct (run_loop_invariant
              (λ l, loop_frame b1 names l ∧ task_failing k l)
              sched fuel (create_tasks names b1) l') as [[_ ?] _]; [| |exact Hrun|done].
  - intros l n cb [Hf Ha] Hcb. split.
    + by apply loop_frame_preserved.
    + by eapply task_failing_preserved.
  - split; [apply create_tasks_frame|].
    eexists. split; [simpl; by rewrite list_lookup_fmap, Hk|]. done.
Qed.




(** * Further properties *)

(** ** The loader: how loads and unloads compose *)

Lemma healthy_activates b name :
  healthy b name →
  ∃ b', load_extension name b = (Return tt, b')
        ∧ extensions b' = {[name]} ∪ extensions b.
Proof.
  intros (Hn & m & n & Hm & Hx & Hs).
  unfold load_extension, load_extension_begin, super_load_extension_begin,
    super_load_extension_finish.
  unfold_monad. simpl. rewrite bool_decide_eq_false_2 by done. simpl.
  rewrite Hm. simpl. rewrite Hx, Hs. simpl. eauto.
Qed.

Lemma doomed_fails b name :
  doomed b name →
  ∃ e b', load_extension name b = (Raise e, b')
          ∧ is_ExtensionError e = true ∧ extensions b' = extensions b.
Proof.
  intros Hd.
  unfold load_extension, load_extension_begin, super_load_extension_begin,
    super_load_extension_finish.
  unfold_monad. simpl.
  destruct (decide (name ∈ extensions b)) as [Hin|Hn].
  { rewrite bool_decide_eq_true_2 by done. simpl. eauto. }
  rewrite bool_decide_eq_false_2 by done. simpl.
  destruct Hd as [?|Hd]; [done|].
  destruct (modtree b !! name) as [m|]; simpl; [|eauto].
  destruct (mod_exec m) as [e|]; simpl.
  { rewrite Hd. simpl. eauto. }
  destruct (mod_setup m) as [| |n [e|]]; simpl; [eauto|eauto| |done].
  rewrite Hd. simpl. eauto.
Qed.

Lemma try_extension_returns pp str operation name user b b1 :
  extension_operation operation name b = (Return tt, b1) →
  _try_extension pp str operation name user b = (Return true, b1).
Proof.
  intros H. unfold _try_extension, try_except_else. by rewrite H.
Qed.

Lemma try_extension_fails pp str operation name user b e b1 :
  extension_operation operation name b = (Raise e, b1) →
  is_ExtensionError e = true →
  ∃ b2, _try_extension pp str operation name user b = (Return false, b2)
        ∧ extensions b2 = extensions b1
        ∧ emitted b1 b2 =
            [if is_ExtensionFailed e
             then failed_record pp operation name user e
             else warning_record str operation name user e].
Proof.
  intros H He. unfold _try_extension, try_except_else. rewrite H.
  destruct (is_ExtensionFailed e) eqn:Hf.
  - eexists. split; [reflexivity|]. split; [done|]. by apply emitted_app.
  - rewrite He. eexists. split; [reflexivity|]. split; [done|].
    by apply emitted_app.
Qed.

Lemma unload_active name b :
  name ∈ extensions b →
  ∃ b1, unload_extension name b = (Return tt, b1)
        ∧ extensions b1 = extensions b ∖ {[name]}
        ∧ modtree b1 = modtree b.
Proof.
  intros Hin. unfold unload_extension. unfold_monad. simpl.
  rewrite bool_decide_eq_true_2 by done. simpl. eauto.
Qed.

(** X1.  A reload, which callers compose of [try_unload_extension] and
    [try_load_extension], is not atomic.  The unload of an active name
    returns [True] and takes the name out of the active set.  If the
    module then activates, the load returns [True] and the active set is
    the one before the reload; if its code or its [setup] raises, the load
    returns [False] with one [ERROR] record and the name stays out. *)
Theorem reload_is_not_atomic (pp str : Account → string) (name : string)
    (user : option Account) (b : Bot) (m : PyModule) :
  name ∈ extensions b →
  modtree b !! name = Some m →
  ∃ b1,
    try_unload_extension pp str name user b = (Return true, b1)
    ∧ extensions b1 = extensions b ∖ {[name]}
    ∧ (mod_exec m = None → (∃ n, mod_setup m = SetupCallable n None) →
       ∃ b2, try_load_extension pp str name user b1 = (Return true, b2)
             ∧ extensions b2 = extensions b)
    ∧ (∀ e, is_Exception e = true →
       mod_exec m = Some e
       ∨ (mod_exec m = None ∧ ∃ n, mod_setup m = SetupCallable n (Some e)) →
       ∃ b2, try_load_extension pp str name user b1 = (Return false, b2)
             ∧ extensions b2 = extensions b ∖ {[name]}
             ∧ failed_record pp load name user (ExtensionFailed name e)
               ∈ events b2).
Proof.
  intros Hin Hm.
  destruct (unload_active name b Hin) as (b1 & Hun & Hext & Hmt).
  exists b1. split; [by apply try_extension_returns|]. split; [done|].
  assert (Hn : name ∉ extensions b1) by (rewrite Hext; set_solver).
  split.
  - intros Hx [n Hs].
    destruct (healthy_activates b1 name) as (b2 & Hload & Hext2).
    { split; [done|]. exists m, n. by rewrite Hmt. }
    exists b2. split; [by apply try_extension_returns|].
    rewrite Hext2, Hext. apply set_eq. intros x.
    destruct (decide (x = name)) as [->|]; set_solver.
  - intros e He Hcase.
    assert (Hload : ∃ b2, load_extension name b1
                      = (Raise (ExtensionFailed name e), b2)
                    ∧ extensions b2 = extensions b1).
    { unfold load_extension, load_extension_begin,
        super_load_extension_begin, super_load_extension_finish.
      unfold_monad. simpl. rewrite bool_decide_eq_false_2 by done. simpl.
      rewrite Hmt, Hm. simpl.
      destruct Hcase as [->|[-> [n ->]]]; simpl; rewrite He; simpl; eauto. }
    destruct Hload as (b2 & Hload & Hext2).
    destruct (try_extension_fails pp str load name user b1 _ b2 Hload eq_refl)
      as (b3 & Htry & Hext3 & Hem).
    exists b3. split; [exact Htry|]. split; [congruence|].
    simpl in Hem. unfold emitted in Hem.
    assert (Hin3 : failed_record pp load name user (ExtensionFailed name e)
                   ∈ drop (length (events b2)) (events b3))
      by (rewrite Hem; apply list_elem_of_here).
    rewrite <- (take_drop (length (events b2)) (events b3)).
    apply elem_of_app. by right.
Qed.

Lemma reload_is_not_atomic_witness :
  ∃ b0 b1 b2,
    load_extension "app.components.good" (Sample.bot []) = (Return tt, b0)
    ∧ try_unload_extension Sample.pretty_print_account account_name
        "app.components.good" None b0 = (Return true, b1)
    ∧ try_load_extension Sample.pretty_print_account account_name
        "app.components.good" None b1 = (Return true, b2)
    ∧ extensions b2 = extensions b0.
Proof.
  set (b0 := (load_extension "app.components.good" (Sample.bot [])).2).
  destruct (reload_is_not_atomic Sample.pretty_print_account account_name
              "app.components.good" None b0 Sample.good)
    as (b1 & Hun & _ & Hok & _).
  { vm_compute. set_solver. }
  { reflexivity. }
  destruct Hok as (b2 & Hload & Hext); [reflexivity|by exists 0%nat|].
  exists b0, b1, b2. split; [reflexivity|]. done.
Defined.

(** X2.  Load and unload are inverse on the active set: for a name that
    is not active and whose module activates, [try_load_extension] returns
    [True] and enters the name, and a following [try_unload_extension]
    returns [True] and leaves the active set as it was before the load. *)
Theorem load_then_unload_restores (pp str : Account → string)
    (name : string) (user : option Account) (b : Bot) :
  healthy b name →
  ∃ b1 b2,
    try_load_extension pp str name user b = (Return true, b1)
    ∧ name ∈ extensions b1
    ∧ try_unload_extension pp str name user b1 = (Return true, b2)
    ∧ extensions b2 = extensions b.
Proof.
  intros Hh. pose proof Hh as [Hn _].
  destruct (healthy_activates b name Hh) as (b1 & Hload & Hext1).
  destruct (unload_active name b1) as (b2 & Hun & Hext2 & _);
    [rewrite Hext1; set_solver|].
  exists b1, b2. split; [by apply try_extension_returns|].
  split; [rewrite Hext1; set_solver|].
  split; [by apply try_extension_returns|].
  rewrite Hext2, Hext1. set_solver.
Qed.

Lemma load_then_unload_restores_witness :
  ∃ b1 b2,
    try_load_extension Sample.pretty_print_account account_name
      "app.components.slow" None (Sample.bot []) = (Return true, b1)
    ∧ "app.components.slow" ∈ extensions b1
    ∧ try_unload_extension Sample.pretty_print_account account_name
        "app.components.slow" None b1 = (Return true, b2)
    ∧ extensions b2 = extensions (Sample.bot []).
Proof.
  apply (load_then_unload_restores Sample.pretty_print_account account_name
           "app.components.slow" None (Sample.bot [])).
  split; [set_solver|]. by exists Sample.slow, 1%nat.
Defined.





(** ** The validity check and the loader *)

(** X4.  The validity check is sound for the loader.  A name of the
    components namespace that [is_valid_extension] rejects cannot be
    loaded, in any state with the same modules; a name that it accepts
    never fails to load with [ExtensionNotFound] or [NoEntryPointError]. *)
Theorem validity_check_agrees_with_loader (name : string) (b b' : Bot)
    (valid : bool) :
  is_valid_extension name b = (Return valid, b') →
  ∀ b2, modtree b2 = modtree b →
    (valid = false → startswith name components_prefix = true →
       ¬ activates b2 name)
    ∧ (valid = true →
       ∀ e b3, load_extension name b2 = (Raise e, b3) →
         e ≠ ExtensionNotFound name ∧ e ≠ NoEntryPointError name).
Proof.
  intros Hv b2 Hmt.
  pose proof (is_valid_extension_cases name b) as Hc.
  assert (Hvalid : valid = startswith name components_prefix
                           && exposes_setup b name).
  { destruct (import_error b name).
    - destruct (startswith name components_prefix); simpl; congruence.
    - rewrite Hv in Hc. by injection Hc as -> _. }
  split.
  - intros -> Hp Hact. apply activates_healthy in Hact
      as (_ & m & n & Hm & _ & Hs).
    rewrite Hp in Hvalid. simpl in Hvalid.
    unfold exposes_setup, has_callable_setup in Hvalid.
    rewrite <- Hmt, Hm, Hs in Hvalid. done.
  - intros -> e b3 Hload.
    symmetry in Hvalid. apply andb_true_iff in Hvalid as [_ Hs].
    unfold exposes_setup, has_callable_setup in Hs. rewrite <- Hmt in Hs.
    unfold load_extension, load_extension_begin, super_load_extension_begin,
      super_load_extension_finish in Hload.
    unfold_monad. simpl in Hload.
    destruct (modtree b2 !! name) as [m|] eqn:Hm; [|done].
    destruct (mod_setup m) as [| |n out] eqn:Hsetup; [done|done|].
    run_cases; split; try congruence; intros ->; done.
Qed.

Lemma validity_check_agrees_with_loader_witness :
  ¬ activates (Sample2.bot []) "app.components.plain"
  ∧ ∃ e, (load_extension "app.components.bad" (Sample2.bot [])).1 = Raise e
         ∧ e ≠ ExtensionNotFound "app.components.bad"
         ∧ e ≠ NoEntryPointError "app.components.bad".
Proof.
  split.
  - destruct (validity_check_agrees_with_loader "app.components.plain"
                (Sample2.bot [])
                (is_valid_extension "app.components.plain"
                   (Sample2.bot [])).2 false eq_refl
                (Sample2.bot []) eq_refl) as [H _].
    by apply H.
  - destruct (validity_check_agrees_with_loader "app.components.bad"
                (Sample2.bot [])
                (is_valid_extension "app.components.bad"
                   (Sample2.bot [])).2 true eq_refl
                (Sample2.bot []) eq_refl) as [_ H].
    exists (ExtensionFailed "app.components.bad" (ModuleError "boom")).
    split; [reflexivity|].
    apply (H eq_refl _
             (load_extension "app.components.bad" (Sample2.bot [])).2).
    reflexivity.
Defined.

(** ** Discovery, run again *)

(** What a discovery that returns has found. *)
Lemma discover_from_result names modules b found b' :
  discover_from names modules b = (Return found, b') →
  found = list_to_set
            (filter (λ n, startswith n components_prefix
                          && exposes_setup b n) names) ∪ modules.
Proof.
  revert modules b. induction names as [|name rest IH]; intros modules b H.
  - simpl in H. unfold_monad. simplify_eq. set_solver.
  - simpl in H. unfold mbind, M_bind in H.
    destruct (is_valid_extension name b) as [[valid|e] b1] eqn:Hv; [|done].
    pose proof (is_valid_extension_frame _ _ _ _ Hv) as (Hb1 & _).
    assert (Hmt : modtree b1 = modtree b) by (by rewrite Hb1).
    pose proof (is_valid_extension_cases name b) as Hc. rewrite Hv in Hc.
    assert (Hvalid : valid = startswith name components_prefix
                             && exposes_setup b name).
    { destruct (import_error b name).
      - destruct (startswith name components_prefix); simpl; congruence.
      - by injection Hc as -> _. }
    apply IH in H. rewrite H.
    rewrite (list_filter_iff _ (λ n, startswith n components_prefix
                                   && exposes_setup b n) rest).
    2:{ intros n. by rewrite (exposes_setup_preserved b b1). }
    rewrite Hvalid.
    destruct (startswith name components_prefix && exposes_setup b name)
      eqn:Heq.
    + rewrite filter_cons_True by (by rewrite Heq). set_solver.
    + rewrite filter_cons_False by (rewrite Heq; intros []). done.
Qed.

(** A discovery that returns has imported every candidate that the module
    system resolves. *)
Lemma discover_from_imports_all names modules b found b' n :
  discover_from names modules b = (Return found, b') →
  n ∈ names → startswith n components_prefix = true →
  is_Some (modtree b !! n) → n ∈ sys_modules b'.
Proof.
  revert modules b. induction names as [|name rest IH]; intros modules b H Hin.
  - by apply elem_of_nil in Hin.
  - intros Hpre Hsome. simpl in H. unfold mbind, M_bind in H.
    destruct (is_valid_extension name b) as [[valid|e] b1] eqn:Hv; [|done].
    pose proof (is_valid_extension_frame _ _ _ _ Hv) as (Hb1 & _ & _ & Himp).
    assert (Hmt : modtree b1 = modtree b) by (by rewrite Hb1).
    apply elem_of_cons in Hin as [->|Hin].
    + pose proof (discover_from_frame _ _ _ _ _ H) as (_ & Hsub & _).
      apply Hsub, Himp.
      pose proof (is_valid_extension_cases name b) as Hc. rewrite Hv in Hc.
      destruct (import_error b name) eqn:He; [|by auto].
      rewrite Hpre in Hc. done.
    + eapply IH; [exact H|done|done|by rewrite Hmt].
Qed.

(** With every resolvable candidate imported, discovery finds its names
    and changes nothing. *)
Lemma discover_from_fixed names modules b :
  (∀ n, n ∈ names → startswith n components_prefix = true →
        is_Some (modtree b !! n) → n ∈ sys_modules b) →
  discover_from names modules b =
    (Return (list_to_set
               (filter (λ n, startswith n components_prefix
                             && exposes_setup b n) names) ∪ modules), b).
Proof.
  revert modules. induction names as [|name rest IH]; intros modules Himp.
  - simpl. unfold_monad. f_equal. f_equal. set_solver.
  - simpl. unfold mbind, M_bind.
    assert (Hv : is_valid_extension name b =
                   (Return (startswith name components_prefix
                            && exposes_setup b name), b)).
    { pose proof (is_valid_extension_cases name b) as Hc.
      pose proof (Himp name) as Hn.
      unfold import_error in *.
      destruct (startswith name components_prefix) eqn:Hpre; simpl in *.
      - destruct (modtree b !! name) as [m|] eqn:Hm; simpl in *; [|done].
        rewrite bool_decide_eq_true_2 in Hc by (apply Hn; eauto; set_solver).
        done.
      - by repeat case_match. }
    rewrite Hv. rewrite IH by (intros; apply Himp; set_solver).
    f_equal. f_equal.
    destruct (startswith name components_prefix && exposes_setup b name)
      eqn:Heq.
    + rewrite filter_cons_True by (by rewrite Heq). set_solver.
    + rewrite filter_cons_False by (rewrite Heq; intros []). done.
Qed.

(** X5.  Discovery is idempotent.  Once [get_component_extension_names]
    has returned, a second call returns the same names and changes
    nothing, since every candidate is in [sys.modules] and is not run
    again; and so does a call in any later state with the same components
    directory and modules that has not lost an imported module. *)
Theorem discovery_is_idempotent (b b' : Bot) (names : gset string) :
  get_component_extension_names b = (Return names, b') →
  get_component_extension_names b' = (Return names, b')
  ∧ ∀ b2, component_names b2 = component_names b →
          modtree b2 = modtree b →
          sys_modules b' ⊆ sys_modules b2 →
          get_component_extension_names b2 = (Return names, b2).
Proof.
  intros H. unfold get_component_extension_names in H. unfold_monad.
  assert (Hlater : ∀ b2, component_names b2 = component_names b →
            modtree b2 = modtree b → sys_modules b' ⊆ sys_modules b2 →
            get_component_extension_names b2 = (Return names, b2)).
  { intros b2 Hcn Hmt Hsub. unfold get_component_extension_names.
    unfold_monad.
    assert (Hw : walk_packages b2 = walk_packages b)
      by (unfold walk_packages; by rewrite Hcn).
    rewrite Hw, discover_from_fixed.
    - f_equal. f_equal. rewrite (discover_from_result _ _ _ _ _ H).
      f_equal. f_equal. apply list_filter_iff. intros n.
      by rewrite (exposes_setup_preserved b b2).
    - intros n Hin Hpre Hsome. apply Hsub.
      eapply discover_from_imports_all; [exact H|done|done|].
      by rewrite <- Hmt. }
  split; [|exact Hlater].
  pose proof (discover_from_frame _ _ _ _ _ H) as (Hb' & _).
  apply Hlater; rewrite Hb'; done.
Qed.

Lemma discovery_is_idempotent_witness :
  get_component_extension_names
    (get_component_extension_names (Sample2.bot ["good"; "plain"])).2
  = (Return {[ "app.components.good" ]},
     (get_component_extension_names (Sample2.bot ["good"; "plain"])).2).
Proof.
  apply (discovery_is_idempotent (Sample2.bot ["good"; "plain"])).
  vm_compute. reflexivity.
Defined.

(** ** The message gate, from the side of the events *)




(** ** The resource cache: how the accessors fail, and recover *)

Lemma ghostty_guild_total b :
  guilds (gateway b) ≠ [] → ∃ g b', ghostty_guild b = (Return g, b').
Proof.
  unfold ghostty_guild, cached_property, ghostty_guild_body, get_guild,
    guilds_item, guild_name_of, guild_id_of.
  unfold_monad. intros Hne.
  destruct (guilds (gateway b)) as [|g0 rest] eqn:Hguilds; [done|].
  destruct (ghostty_guild_cache b); simpl; [eauto|].
  destruct (guild_id_cfg (config b)) as [id|]; simpl.
  - case_bool_decide; simpl.
    + repeat (rewrite Hguilds; simpl). eauto.
    + destruct (cached_guild (gateway b) id); simpl; [eauto|].
      repeat (rewrite Hguilds; simpl). eauto.
  - repeat (rewrite Hguilds; simpl). eauto.
Qed.

Lemma ghostty_guild_raises b e b' :
  ghostty_guild b = (Raise e, b') →
  e = IndexError ∧ ghostty_guild_cache b = None ∧ guilds (gateway b) = []
  ∧ b' = set_events (events b') b
  ∧ ∃ l, events b' = (events b ++ l)%list
         ∧ (∀ message args exception, Log INFO message args exception ∉ l)
         ∧ (∀ guild id_, GuildGetChannel guild id_ ∉ l).
Proof.
  unfold ghostty_guild, cached_property, ghostty_guild_body, get_guild,
    guilds_item, guild_name_of, guild_id_of.
  unfold_monad.
  destruct (ghostty_guild_cache b) eqn:Hc; [done|].
  destruct (guilds (gateway b)) as [|g0 rest] eqn:Hguilds.
  - unfold cached_guild. simpl.
    destruct (guild_id_cfg (config b)) as [id|]; simpl;
      [case_bool_decide; simpl|];
      rewrite ?Hguilds; simpl; rewrite ?Hguilds; simpl;
      intros Hrun; simplify_eq/=; repeat (split; [done|]);
      (eexists; split; [by rewrite <- ?(assoc_L app)|]);
      split; intros; set_solver.
  - intros H.
    destruct (ghostty_guild_total b) as (g & b2 & Hret); [by rewrite Hguilds|].
    unfold ghostty_guild, cached_property, ghostty_guild_body, get_guild,
      guilds_item, guild_name_of, guild_id_of in Hret.
    unfold_monad. rewrite Hc in Hret. congruence.
Qed.

(** X7.  [ghostty_guild] can fail in one way only: nothing is cached and
    the client has no guild at all.  It then raises [IndexError] from
    [self.guilds[0]], also when a guild id is configured; the fallback
    record is not logged, since its arguments are evaluated first; and
    nothing is stored, so that an access made once the client has a guild
    returns one. *)
Theorem ghostty_guild_fails_only_without_guilds (b : Bot) :
  ((∃ e b', ghostty_guild b = (Raise e, b'))
   ↔ ghostty_guild_cache b = None ∧ guilds (gateway b) = [])
  ∧ (∀ e b', ghostty_guild b = (Raise e, b') →
       e = IndexError
       ∧ b' = set_events (events b') b
       ∧ (∀ message args exception,
            Log INFO message args exception ∉ emitted b b')
       ∧ ∀ gw, guilds gw ≠ [] →
           ∃ g b2, ghostty_guild (set_gateway gw b') = (Return g, b2)).
Proof.
  split; [split|].
  - intros (e & b' & H). by apply ghostty_guild_raises in H as (_ & ? & ? & _).
  - intros [Hc Hguilds].
    unfold ghostty_guild, cached_property, ghostty_guild_body, get_guild,
      guilds_item, guild_name_of, guild_id_of, cached_guild.
    unfold_monad. rewrite Hc. simpl.
    destruct (guild_id_cfg (config b)) as [id|]; simpl;
      [case_bool_decide; simpl|];
      rewrite ?Hguilds; simpl; rewrite ?Hguilds; simpl; eauto.
  - intros e b' H.
    apply ghostty_guild_raises in H
      as (-> & Hc & Hguilds & Hb' & l & Hl & Hno & _).
    split; [done|]. split; [done|]. split.
    + intros message args exception. rewrite (emitted_app _ _ _ Hl).
      apply Hno.
    + intros gw Hgw. apply ghostty_guild_total. by rewrite Hb'.
Qed.

Lemma ghostty_guild_fails_only_without_guilds_witness :
  ∃ b', ghostty_guild (set_gateway Sample.offline (Sample.bot []))
        = (Raise IndexError, b')
    ∧ ∃ g b2, ghostty_guild (set_gateway Sample.gw b') = (Return g, b2).
Proof.
  set (b := set_gateway Sample.offline (Sample.bot [])).
  exists (ghostty_guild b).2.
  assert (H : ghostty_guild b = (Raise IndexError, (ghostty_guild b).2))
    by (vm_compute; reflexivity).
  split; [exact H|].
  destruct (ghostty_guild_fails_only_without_guilds b) as [_ Hfail].
  destruct (Hfail _ _ H) as (_ & _ & _ & Hrecover).
  apply Hrecover. discriminate.
Defined.

(** What an access to [help_channel] returns or raises. *)
Lemma help_channel_result b :
  (help_channel b).1 =
    match help_channel_cache b with
    | Some c => Return c
    | None =>
        match cached_channel (gateway b) (help_channel_id (config b)) with
        | Some c =>
            if bool_decide (channel_kind c = ForumChannel) then Return c
            else Raise AssertionError
        | None => Raise AssertionError
        end
    end.
Proof.
  unfold help_channel, cached_property, help_channel_body, get_channel,
    assert_isinstance.
  unfold_monad. run_cases; done.
Qed.

Lemma help_channel_frame b r b1 :
  help_channel b = (r, b1) →
  b1 = set_events (events b1)
         (set_help_channel_cache (help_channel_cache b1) b)
  ∧ (help_channel_cache b = None →
     events b1 = (events b ++ [Log DEBUG "fetching help channel" [] None;
                               GetChannel (help_channel_id (config b))])%list)
  ∧ (∀ c, r = Return c → help_channel_cache b1 = Some c)
  ∧ (∀ e, r = Raise e → help_channel_cache b1 = None).
Proof.
  unfold help_channel, cached_property, help_channel_body, get_channel,
    assert_isinstance.
  unfold_monad. intros H.
  destruct (help_channel_cache b) eqn:Hc.
  { simplify_eq/=. split; [by destruct b1; simplify_eq/=|].
    split; [done|]. split; [by intros ? [= <-]|done]. }
  run_cases; rewrite <- ?(assoc_L app);
    (split; [by rewrite <- ?Hc|]); (split; [done|]);
    (split; [by intros ? [= <-]|done]).
Qed.

(** X8.  The first access to [help_channel] asks the client once for the
    configured channel.  It returns that channel, and stores it, exactly
    when the client has it and it is a forum channel; otherwise, also for
    a text channel, it fails its assertion and stores nothing, so that an
    access made once the client has the forum channel returns it.  The
    other slots are not touched. *)
Theorem help_channel_requires_forum (b : Bot) :
  help_channel_cache b = None →
  ∃ r b',
    help_channel b = (r, b')
    ∧ b' = set_events (events b')
             (set_help_channel_cache (help_channel_cache b') b)
    ∧ emitted b b' = [Log DEBUG "fetching help channel" [] None;
                      GetChannel (help_channel_id (config b))]
    ∧ (∀ c, r = Return c ↔
         cached_channel (gateway b) (help_channel_id (config b)) = Some c
         ∧ channel_kind c = ForumChannel)
    ∧ (∀ c, r = Return c → help_channel_cache b' = Some c)
    ∧ ((∀ c, r ≠ Return c) →
       r = Raise AssertionError ∧ help_channel_cache b' = None
       ∧ ∀ gw c,
           cached_channel gw (help_channel_id (config b)) = Some c →
           channel_kind c = ForumChannel →
           ∃ b2, help_channel (set_gateway gw b') = (Return c, b2)).
Proof.
  intros Hc. destruct (help_channel b) as [r b'] eqn:H.
  exists r, b'. split; [done|].
  pose proof (help_channel_result b) as Hr. rewrite H, Hc in Hr. simpl in Hr.
  destruct (help_channel_frame _ _ _ H) as (Hb' & Hev & Hret & Hraise).
  split; [done|]. split; [by apply emitted_app, Hev|].
  split; [|split; [done|]].
  - intros c. rewrite Hr.
    destruct (cached_channel (gateway b) (help_channel_id (config b)))
      as [c'|]; [|naive_solver].
    case_bool_decide; naive_solver.
  - intros Hno.
    assert (Hfail : r = Raise AssertionError).
    { rewrite Hr.
      destruct (cached_channel (gateway b) (help_channel_id (config b)))
        as [c'|]; [|done].
      case_bool_decide; [|done]. by destruct (Hno c'). }
    split; [done|]. split; [by apply (Hraise AssertionError)|].
    intros gw c Hfound Hkind.
    pose proof (help_channel_result (set_gateway gw b')) as Hr2.
    destruct (help_channel (set_gateway gw b')) as [r2 b2]. exists b2.
    simpl in Hr2. rewrite (Hraise _ Hfail) in Hr2.
    assert (Hcfg : config b' = config b) by (by rewrite Hb').
    rewrite Hcfg, Hfound, bool_decide_eq_true_2 in Hr2 by done.
    by rewrite Hr2.
Qed.

Lemma help_channel_requires_forum_witness :
  (help_channel (Sample.bot [])).1 = Return Sample.forum_channel
  ∧ (help_channel Sample.unconfigured).1 = Raise AssertionError.
Proof.
  split.
  - destruct (help_channel_requires_forum (Sample.bot []) eq_refl)
      as (r & b' & Hrun & _ & _ & Hiff & _).
    rewrite Hrun. simpl. apply Hiff. split; reflexivity.
  - destruct (help_channel_requires_forum Sample.unconfigured eq_refl)
      as (r & b' & Hrun & _ & _ & Hiff & _ & Hfail).
    rewrite Hrun. simpl. apply Hfail. intros c Hc.
    apply Hiff in Hc as [Hfound Hkind].
    vm_compute in Hfound. injection Hfound as <-. discriminate Hkind.
Defined.

(** ** The webhook channels, when the configuration is right *)

Lemma webhook_outcome_good g items channels :
  Forall (λ i, ¬ misconfigured_feed g i) items →
  ∃ m, webhook_outcome g items channels = Return m
    ∧ dom m = list_to_set items.*1 ∪ dom channels
    ∧ (∀ feed_type, feed_type ∉ items.*1 →
         m !! feed_type = channels !! feed_type)
    ∧ (∀ feed_type c, m !! feed_type = Some c →
         channels !! feed_type = Some c
         ∨ ∃ id_, (feed_type, id_) ∈ items
                  ∧ guild_channels g !! id_ = Some c)
    ∧ (NoDup items.*1 → ∀ feed_type id_, (feed_type, id_) ∈ items →
         m !! feed_type = guild_channels g !! id_).
Proof.
  revert channels.
  induction items as [|[feed_type id_] rest IH]; intros channels Hgood.
  - exists channels. simpl. split; [done|]. split; [set_solver|].
    split; [done|]. split; [by left|]. intros _ ?? Hin.
    by apply elem_of_nil in Hin.
  - apply Forall_cons in Hgood as [Hhead Hrest].
    unfold misconfigured_feed in Hhead. simpl in *.
    destruct (guild_channels g !! id_) as [c|] eqn:Hc; [|done].
    destruct (decide (channel_kind c = TextChannel)) as [Hk|]; [|done].
    rewrite (bool_decide_eq_true_2 _ Hk).
    destruct (IH (<[feed_type:=c]> channels) Hrest)
      as (m & Hout & Hdom & Hother & Hfrom & Hlast).
    exists m. split; [done|]. split; [rewrite Hdom; set_solver|].
    split; [|split].
    + intros f Hf. apply not_elem_of_cons in Hf as [Hne Hf].
      rewrite (Hother f Hf). by rewrite lookup_insert_ne.
    + intros f c' Hm. destruct (Hfrom f c' Hm) as [Hins|(i & Hin & Hi)].
      * destruct (decide (feed_type = f)) as [->|Hne].
        -- rewrite lookup_insert_eq in Hins. simplify_eq. right.
           exists id_. split; [set_solver|done].
        -- rewrite lookup_insert_ne in Hins by done. by left.
      * right. exists i. split; [set_solver|done].
    + intros Hnd f i Hin. apply NoDup_cons in Hnd as [Hnotin Hnd].
      apply elem_of_cons in Hin as [[= -> ->]|Hin].
      * rewrite (Hother feed_type Hnotin). by rewrite lookup_insert_eq.
      * by apply Hlast.
Qed.

(** X9.  When the debug records are dropped and every configured feed
    type has a text channel in the primary guild, the first access to
    [webhook_channels] returns a mapping and stores it.  The mapping has an entry for the configured
    feed types and for no other; every channel in it is a text channel
    that the primary guild has under a configured id, and not one of
    another guild or a private one; and with each feed type configured
    once, as in a dictionary, it is the channel of that feed type's id. *)
Theorem webhook_channels_maps_feeds (b : Bot) (g : GuildRef) :
  let G := guild_objects (gateway b) g in
  let items := webhook_channel_ids (config b) in
  webhook_channels_cache b = None →
  ¬ handles b DEBUG →
  (ghostty_guild b).1 = Return g →
  Forall (λ i, ¬ misconfigured_feed G i) items →
  ∃ m b', webhook_channels b = (Return m, b')
    ∧ webhook_channels_cache b' = Some m
    ∧ dom m = list_to_set items.*1
    ∧ (∀ feed_type c, m !! feed_type = Some c →
         channel_kind c = TextChannel
         ∧ ∃ id_, (feed_type, id_) ∈ items
                  ∧ guild_channels G !! id_ = Some c)
    ∧ (NoDup items.*1 → ∀ feed_type id_, (feed_type, id_) ∈ items →
         m !! feed_type = guild_channels G !! id_).
Proof.
  intros G items Hcache Hlevel Hg Hgood.
  destruct (webhook_outcome_good G items ∅ Hgood)
    as (m & Hout & Hdom & _ & Hfrom & Hlast).
  destruct (webhook_channels_from_outcome g items ∅ b Hlevel Hg)
    as (b0 & Hrun & _ & _).
  fold G in Hrun. rewrite Hout in Hrun.
  exists m, (set_webhook_channels_cache (Some m) b0).
  split.
  { unfold webhook_channels, cached_property, webhook_channels_body.
    unfold_monad. rewrite Hcache. fold items. by rewrite Hrun. }
  split; [done|]. split; [rewrite Hdom; set_solver|].
  split; [|done].
  intros feed_type c Hm.
  destruct (Hfrom _ _ Hm) as [Hempty|(id_ & Hin & Hc)]; [done|].
  split; [|eauto].
  pose proof (proj1 (Forall_forall _ _) Hgood _ Hin) as Hok.
  unfold misconfigured_feed in Hok. simpl in Hok. rewrite Hc in Hok.
  by destruct (decide (channel_kind c = TextChannel)).
Qed.

Lemma webhook_channels_maps_feeds_witness :
  ∃ m b', webhook_channels Sample2.feeds = (Return m, b')
    ∧ m !! "news" = Some Sample.text_channel.
Proof.
  destruct (webhook_channels_maps_feeds Sample2.feeds 0%nat)
    as (m & b' & Hrun & _ & _ & _ & Hlast).
  - reflexivity.
  - unfold handles. simpl. lia.
  - vm_compute. reflexivity.
  - repeat constructor; intros H; vm_compute in H; by apply H.
  - exists m, b'. split; [exact Hrun|].
    rewrite (Hlast ltac:(vm_compute; repeat constructor; set_solver)
               "news" 100); [reflexivity|].
    vm_compute. set_solver.
Defined.

(** The first access to [webhook_channels] runs the loop and stores what
    it returns. *)
Lemma webhook_channels_first b :
  webhook_channels_cache b = None →
  webhook_channels b =
    match webhook_channels_from (webhook_channel_ids (config b)) ∅ b with
    | (Return m, b') => (Return m, set_webhook_channels_cache (Some m) b')
    | (Raise e, b') => (Raise e, b')
    end.
Proof.
  intros Hcache.
  unfold webhook_channels, cached_property, webhook_channels_body.
  unfold mbind, M_bind, get_bot, update, mret, M_ret. rewrite Hcache.
  by destruct (webhook_channels_from _ _ _) as [[m|e] b'].
Qed.

(** X10.  [webhook_channels] needs the primary guild only when a feed
    type is configured.  With nothing cached and no guild to resolve, an
    empty configuration gives the empty mapping, which is stored.  With a
    feed type configured the access raises before the guild is asked for
    any channel, and stores nothing: the [KeyError] of the debug call when
    a handler takes [DEBUG], and otherwise the [IndexError] of
    [ghostty_guild], not a [TypeError]. *)
Theorem webhook_channels_without_guild (b : Bot) (e : PyError) :
  webhook_channels_cache b = None →
  (ghostty_guild b).1 = Raise e →
  (webhook_channel_ids (config b) = [] →
   webhook_channels b
   = (Return ∅, set_webhook_channels_cache (Some ∅) b))
  ∧ (webhook_channel_ids (config b) ≠ [] →
     ∃ b', webhook_channels b
           = (Raise (if decide (handles b DEBUG) then KeyError "feed_type"
                     else IndexError), b')
       ∧ webhook_channels_cache b' = None
       ∧ ghostty_guild_cache b' = None
       ∧ ∀ guild id_, GuildGetChannel guild id_ ∉ emitted b b').
Proof.
  intros Hcache Hg.
  assert (Hslot : ghostty_guild_cache b = None).
  { destruct (ghostty_guild b) as [r b1] eqn:E. simpl in Hg. subst r.
    by apply ghostty_guild_raises in E as (_ & ? & _). }
  rewrite (webhook_channels_first b Hcache). split.
  - intros ->. done.
  - destruct (webhook_channel_ids (config b)) as [|[feed_type id_] rest];
      [done|]. intros _.
    destruct (decide (handles b DEBUG)) as [Hlevel|Hlevel].
    { rewrite webhook_channels_from_handled by done.
      eexists. split; [reflexivity|]. do 2 (split; [done|]).
      intros guild i. erewrite emitted_app by (simpl; reflexivity).
      intros Hin. by apply list_elem_of_singleton in Hin. }
    simpl. unfold mbind at 1. unfold M_bind at 1.
    rewrite webhook_debug_dropped by done.
    unfold mbind, M_bind, emit, update.
    set (b0 := set_events _ b).
    assert (Hg0 : (ghostty_guild b0).1 = Raise e)
      by (subst b0; by rewrite ghostty_guild_set_events).
    destruct (ghostty_guild b0) as [r b1] eqn:E. simpl in Hg0. subst r.
    apply ghostty_guild_raises in E
      as (-> & Hc0 & _ & Hb1 & l & Hl & _ & Hqueries).
    exists b1. split; [done|].
    split; [by rewrite Hb1|]. split; [by rewrite Hb1|].
    intros guild i.
    rewrite (emitted_app b b1
               (Log DEBUG "fetching {feed_type} webhook channel"
                  [AStr feed_type] None :: l))
      by (rewrite Hl; subst b0; simpl; by rewrite <- (assoc_L app)).
    apply not_elem_of_cons. split; [done|apply Hqueries].
Qed.

Lemma webhook_channels_without_guild_witness :
  webhook_channels (Sample2.make Sample2.no_feeds_cfg Sample.offline ∅)
  = (Return ∅,
     set_webhook_channels_cache (Some ∅)
       (Sample2.make Sample2.no_feeds_cfg Sample.offline ∅))
  ∧ (∃ b', webhook_channels (Sample2.make Sample2.feeds_cfg Sample.offline ∅)
           = (Raise IndexError, b'))
  ∧ (∃ b', webhook_channels
             (set_logger_min_level 10
                (Sample2.make Sample2.feeds_cfg Sample.offline ∅))
           = (Raise (KeyError "feed_type"), b')).
Proof.
  split; [|split].
  - apply (webhook_channels_without_guild
             (Sample2.make Sample2.no_feeds_cfg Sample.offline ∅)
             IndexError); reflexivity.
  - destruct (webhook_channels_without_guild
                (Sample2.make Sample2.feeds_cfg Sample.offline ∅)
                IndexError eq_refl eq_refl) as [_ H].
    destruct H as (b' & Hrun & _); [discriminate|].
    by exists b'.
  - destruct (webhook_channels_without_guild
                (set_logger_min_level 10
                   (Sample2.make Sample2.feeds_cfg Sample.offline ∅))
                IndexError eq_refl eq_refl) as [_ H].
    destruct H as (b' & Hrun & _); [discriminate|].
    by exists b'.
Defined.

(** ** The emoji cache, on any cache *)

(** The run of [load_emojis], step by step, from any cache. *)
Lemma load_emojis_for_cases (valid : gset string) b :
  match ghostty_guild b with
  | (Raise e, b1) => load_emojis_for valid b = (Raise e, b1)
  | (Return g, b1) =>
      let emojis := guild_emojis (guild_objects (gateway b) g) in
      let cache := store_emojis valid emojis (_ghostty_emojis b) in
      let missing := valid ∖ dom cache in
      let b3 := set_ghostty_emojis cache
                  (set_events (events b1 ++ [GuildEmojis g]) b1) in
      if bool_decide (missing = ∅)
      then load_emojis_for valid b = (Return tt, b3)
      else
        match log_channel b3 with
        | (Raise e, b4) => load_emojis_for valid b = (Raise e, b4)
        | (Return c, b4) =>
            match send_error (gateway b) with
            | Some e => load_emojis_for valid b = (Raise e, b4)
            | None =>
                load_emojis_for valid b =
                  (Return tt,
                   set_ghostty_emojis
                     (gset_to_gmap (Glyph placeholder) missing ∪ cache)
                     (set_events
                        (events b4 ++ [ChannelSend (channel_id c)
                                         (missing_message missing)]) b4))
            end
        end
  end.
Proof.
  unfold load_emojis_for, mbind, M_bind.
  destruct (ghostty_guild b) as [[g|e] b1] eqn:Hg; [|done].
  destruct (ghostty_guild_frame _ _ _ Hg) as [Hb1 _].
  assert (Hgw1 : gateway b1 = gateway b) by (by rewrite Hb1).
  assert (Hem1 : _ghostty_emojis b1 = _ghostty_emojis b) by (by rewrite Hb1).
  unfold guild_emojis_of, emit, update, get_bot, mbind, M_bind, mret, M_ret.
  simpl. rewrite Hgw1, Hem1.
  set (b3 := set_ghostty_emojis _ _).
  case_bool_decide as Hmiss; [done|].
  destruct (log_channel b3) as [[c|e] b4] eqn:Hl; [|done].
  destruct (log_channel_frame _ _ _ Hl) as (Hb4 & _ & _).
  assert (Hgw4 : gateway b4 = gateway b) by (by rewrite Hb4).
  assert (Hem4 : _ghostty_emojis b4 = _ghostty_emojis b3) by (by rewrite Hb4).
  unfold channel_send, mbind, M_bind, get_bot, emit, update.
  rewrite Hgw4. destruct (send_error (gateway b)); [done|]. simpl.
  by rewrite Hem4.
Qed.

Lemma store_emojis_dom valid emojis cache :
  dom cache ⊆ dom (store_emojis valid emojis cache).
Proof.
  intros label. rewrite !elem_of_dom, store_emojis_lookup.
  destruct (named_emoji emojis label); [|done].
  case_bool_decide; [by eauto|done].
Qed.

Lemma difference_empty_subseteq (X Y : gset string) : X ∖ Y = ∅ → X ⊆ Y.
Proof.
  intros H x Hx. destruct (decide (x ∈ Y)) as [|Hn]; [done|].
  assert (Hin : x ∈ X ∖ Y) by set_solver. rewrite H in Hin. set_solver.
Qed.

(** After a load that returned, the guild is in its slot and every
    expected label has an entry. *)
Lemma load_emojis_for_leaves_total (valid : gset string) b0 b :
  load_emojis_for valid b0 = (Return tt, b) →
  (∃ g, ghostty_guild_cache b = Some g) ∧ valid ⊆ dom (_ghostty_emojis b).
Proof.
  intros Hrun. pose proof (load_emojis_for_cases valid b0) as Hc.
  destruct (ghostty_guild b0) as [[g|e] b1] eqn:Hg; [|congruence].
  destruct (ghostty_guild_frame _ _ _ Hg) as [_ Hslot].
  specialize (Hslot g eq_refl). cbv zeta in Hc.
  set (cache := store_emojis valid _ _) in Hc.
  set (b3 := set_ghostty_emojis _ _) in Hc.
  case_bool_decide as Hmiss.
  - rewrite Hrun in Hc. injection Hc as ->. split; [by exists g|].
    by apply difference_empty_subseteq.
  - destruct (log_channel b3) as [[c|e] b4] eqn:Hl; [|congruence].
    destruct (log_channel_frame _ _ _ Hl) as (Hb4 & _ & _).
    destruct (send_error (gateway b0)); [congruence|].
    rewrite Hrun in Hc. injection Hc as ->. split.
    + exists g. simpl. by rewrite Hb4.
    + simpl. rewrite dom_union_L, dom_gset_to_gmap.
      intros x Hx. destruct (decide (x ∈ dom cache)); set_solver.
Qed.

(** X11.  The warning about missing emojis is sent by the first load
    only.  After a [load_emojis] that returned, every later one returns,
    whatever the gateway has become, and all it does is read the emojis of
    the guild it has cached: no message is sent, also for labels that are
    still missing, and the log channel is not asked for.  A label gets the
    emoji that the guild has for it now; a label that the guild has no
    emoji for keeps its entry, be it the placeholder or an emoji that the
    guild has lost. *)
Theorem load_emojis_again_is_silent (valid : gset string) (b0 b : Bot) :
  load_emojis_for valid b0 = (Return tt, b) →
  ∃ g, ghostty_guild_cache b = Some g
    ∧ valid ⊆ dom (_ghostty_emojis b)
    ∧ ∀ gw, ∃ b',
        load_emojis_for valid (set_gateway gw b) = (Return tt, b')
        ∧ emitted (set_gateway gw b) b' = [GuildEmojis g]
        ∧ ∀ label, ghostty_emojis b' label =
            match named_emoji (guild_emojis (guild_objects gw g)) label with
            | Some e =>
                if bool_decide (label ∈ valid) then Some (RealEmoji e)
                else ghostty_emojis b label
            | None => ghostty_emojis b label
            end.
Proof.
  intros Hrun.
  destruct (load_emojis_for_leaves_total _ _ _ Hrun) as [[g Hslot] Htotal].
  exists g. split; [done|]. split; [done|]. intros gw.
  pose proof (load_emojis_for_cases valid (set_gateway gw b)) as Hc.
  assert (Hhit : ghostty_guild (set_gateway gw b)
                 = (Return g, set_gateway gw b))
    by (by apply cached_property_hit).
  rewrite Hhit in Hc. cbv zeta in Hc.
  rewrite bool_decide_eq_true_2 in Hc.
  2:{ pose proof (store_emojis_dom valid
                    (guild_emojis (guild_objects (gateway (set_gateway gw b)) g))
                    (_ghostty_emojis (set_gateway gw b))) as Hdom.
      simpl in *. set_solver. }
  eexists. split; [exact Hc|]. split; [by apply emitted_app|].
  intros label. unfold ghostty_emojis. simpl. apply store_emojis_lookup.
Qed.

Lemma load_emojis_again_is_silent_witness :
  ∃ b', load_emojis_for {[ "commit"; "issue_open" ]}
          (set_gateway Sample2.muted
             (load_emojis_for {[ "commit"; "issue_open" ]} (Sample.bot [])).2)
        = (Return tt, b')
    ∧ ghostty_emojis b' "commit" = Some (RealEmoji Sample.commit_emoji)
    ∧ ghostty_emojis b' "issue_open" = Some (Glyph placeholder).
Proof.
  destruct (load_emojis_again_is_silent {[ "commit"; "issue_open" ]}
              (Sample.bot [])
              (load_emojis_for {[ "commit"; "issue_open" ]} (Sample.bot [])).2)
    as (g & _ & _ & Hagain); [vm_compute; reflexivity|].
  destruct (Hagain Sample2.muted) as (b' & Hrun & _ & Hlabel).
  exists b'. split; [exact Hrun|].
  split; rewrite Hlabel; vm_compute; reflexivity.
Defined.

(** X12.  When a label is missing and the warning cannot be delivered,
    because the log channel fails its assertion or because the platform
    refuses the message, [load_emojis] raises that error half way: the
    emojis of the guild are in the cache, the missing labels have no
    entry, not even the placeholder, and no message was sent. *)
Theorem load_emojis_failure_leaves_gaps (valid : gset string) (b : Bot)
    (g : GuildRef) (err : PyError) :
  let emojis := guild_emojis (guild_objects (gateway b) g) in
  let cache := store_emojis valid emojis (_ghostty_emojis b) in
  (ghostty_guild b).1 = Return g →
  valid ∖ dom cache ≠ ∅ →
  (log_channel b).1 = Raise err
  ∨ ((∃ c, (log_channel b).1 = Return c)
     ∧ send_error (gateway b) = Some err) →
  ∃ b', load_emojis_for valid b = (Raise err, b')
    ∧ _ghostty_emojis b' = cache
    ∧ (∀ label, label ∈ valid ∖ dom cache → ghostty_emojis b' label = None)
    ∧ sends (emitted b b') = [].
Proof.
  intros emojis cache Hg Hmiss Hfail.
  pose proof (load_emojis_for_cases valid b) as Hc.
  destruct (ghostty_guild b) as [r b1] eqn:Hrun. simpl in Hg. subst r.
  destruct (ghostty_guild_frame _ _ _ Hrun) as [Hb1 _].
  destruct (ghostty_guild_events _ _ _ Hrun) as (l1 & He1 & Hs1).
  cbv zeta in Hc. fold emojis in Hc. fold cache in Hc.
  set (b3 := set_ghostty_emojis _ _) in Hc.
  rewrite bool_decide_eq_false_2 in Hc by done.
  assert (Hsame : (log_channel b3).1 = (log_channel b).1).
  { rewrite !log_channel_result. subst b3. simpl. by rewrite Hb1. }
  destruct (log_channel b3) as [r4 b4] eqn:Hl. simpl in Hsame. subst r4.
  destruct (log_channel_frame _ _ _ Hl) as (Hb4 & (l4 & He4 & Hs4) & _).
  assert (Hem4 : _ghostty_emojis b4 = cache) by (by rewrite Hb4).
  assert (Hsends : sends (emitted b b4) = []).
  { rewrite (emitted_app b b4 (l1 ++ [GuildEmojis g] ++ l4)).
    - rewrite !sends_app, Hs1, Hs4. done.
    - rewrite He4. subst b3. simpl. rewrite He1.
      by rewrite <- !(assoc_L app). }
  assert (Hgaps : ∀ label, label ∈ valid ∖ dom cache →
                           ghostty_emojis b4 label = None).
  { intros label Hin. unfold ghostty_emojis. rewrite Hem4.
    apply not_elem_of_dom. set_solver. }
  exists b4. destruct Hfail as [Hraise|[[c Hret] Hsend]].
  - rewrite Hraise in Hc. done.
  - rewrite Hret, Hsend in Hc. done.
Qed.

Lemma load_emojis_failure_leaves_gaps_witness :
  ∃ b', load_emojis (set_gateway Sample2.muted (Sample.bot []))
        = (Raise AssertionError, b')
    ∧ ghostty_emojis b' "commit" = None.
Proof.
  destruct (load_emojis_failure_leaves_gaps (list_to_set EmojiName)
              (set_gateway Sample2.muted (Sample.bot [])) 0%nat
              AssertionError)
    as (b' & Hrun & _ & Hgaps & _).
  - vm_compute. reflexivity.
  - intros H. assert (Hin : "commit" ∈ (∅ : gset string)); [|set_solver].
    rewrite <- H. apply elem_of_difference. split; [set_solver|].
    apply not_elem_of_dom. reflexivity.
  - left. vm_compute. reflexivity.
  - exists b'. split; [exact Hrun|]. apply Hgaps.
    apply elem_of_difference. split; [set_solver|].
    apply not_elem_of_dom. reflexivity.
Defined.

(** The cache that a run of [load_emojis] leaves, whatever its outcome:
    the one before, the one after the loop over some list of emojis, or
    that one with the placeholders. *)
Lemma load_emojis_for_cache (valid : gset string) b r b' :
  load_emojis_for valid b = (r, b') →
  ∃ emojis,
    let cache := store_emojis valid emojis (_ghostty_emojis b) in
    _ghostty_emojis b' = _ghostty_emojis b
    ∨ _ghostty_emojis b' = cache
    ∨ _ghostty_emojis b' =
        gset_to_gmap (Glyph placeholder) (valid ∖ dom cache) ∪ cache.
Proof.
  intros Hrun. pose proof (load_emojis_for_cases valid b) as Hc.
  destruct (ghostty_guild b) as [[g|e] b1] eqn:Hg.
  - exists (guild_emojis (guild_objects (gateway b) g)).
    cbv zeta in *. set (cache := store_emojis valid _ _) in *.
    set (b3 := set_ghostty_emojis _ _) in Hc.
    case_bool_decide.
    { rewrite Hrun in Hc. injection Hc as -> ->. by right; left. }
    destruct (log_channel b3) as [[c|e] b4] eqn:Hl.
    + destruct (log_channel_frame _ _ _ Hl) as (Hb4 & _ & _).
      destruct (send_error (gateway b)).
      * rewrite Hrun in Hc. injection Hc as -> ->. right; left.
        by rewrite Hb4.
      * rewrite Hrun in Hc. injection Hc as -> ->. by right; right.
    + destruct (log_channel_frame _ _ _ Hl) as (Hb4 & _ & _).
      rewrite Hrun in Hc. injection Hc as -> ->. right; left.
      by rewrite Hb4.
  - exists []. left.
    destruct (ghostty_guild_frame _ _ _ Hg) as [Hb1 _].
    rewrite Hrun in Hc. injection Hc as -> ->. by rewrite Hb1.
Qed.

(** X13.  What [load_emojis] may do to the cache, whether it returns or
    raises.  It keeps the cache well named: if every emoji in it was
    under its own name before, so it is after.  A label that had an emoji
    still has one; a placeholder is only ever put under an expected label
    that had no entry; and the entries of other labels are as before. *)
Theorem load_emojis_keeps_names (valid : gset string) (b : Bot)
    (r : Outcome unit) (b' : Bot) :
  load_emojis_for valid b = (r, b') →
  (∀ label e, ghostty_emojis b label = Some (RealEmoji e) →
              emoji_name e = label) →
  (∀ label e, ghostty_emojis b' label = Some (RealEmoji e) →
              emoji_name e = label)
  ∧ (∀ label e, ghostty_emojis b label = Some (RealEmoji e) →
       ∃ e', ghostty_emojis b' label = Some (RealEmoji e'))
  ∧ (∀ label s, ghostty_emojis b' label = Some (Glyph s) →
       ghostty_emojis b label = Some (Glyph s)
       ∨ (s = placeholder ∧ label ∈ valid ∧ ghostty_emojis b label = None))
  ∧ (∀ label, label ∉ valid →
       ghostty_emojis b' label = ghostty_emojis b label).
Proof.
  intros Hrun Hnamed.
  destruct (load_emojis_for_cache _ _ _ _ Hrun) as (emojis & Hcache).
  cbv zeta in Hcache. set (cache := store_emojis valid emojis _) in Hcache.
  unfold ghostty_emojis in *.
  assert (Hlook : ∀ label, cache !! label =
            match named_emoji emojis label with
            | Some e => if bool_decide (label ∈ valid) then Some (RealEmoji e)
                        else _ghostty_emojis b !! label
            | None => _ghostty_emojis b !! label
            end) by (intros; apply store_emojis_lookup).
  assert (Hstore :
    (∀ label e, cache !! label = Some (RealEmoji e) → emoji_name e = label)
    ∧ (∀ label e, _ghostty_emojis b !! label = Some (RealEmoji e) →
         ∃ e', cache !! label = Some (RealEmoji e'))
    ∧ (∀ label s, cache !! label = Some (Glyph s) →
         _ghostty_emojis b !! label = Some (Glyph s))
    ∧ (∀ label, label ∉ valid →
         cache !! label = _ghostty_emojis b !! label)).
  { split; [|split; [|split]].
    - intros label e. rewrite Hlook.
      destruct (named_emoji emojis label) as [e0|] eqn:Hn; [|by auto].
      case_bool_decide; [|by auto]. intros [= <-].
      by apply named_emoji_Some in Hn as [_ ?].
    - intros label e He. rewrite Hlook.
      destruct (named_emoji emojis label) as [e0|]; [|by eauto].
      case_bool_decide; by eauto.
    - intros label s. rewrite Hlook.
      destruct (named_emoji emojis label) as [e0|]; [|done].
      by case_bool_decide.
    - intros label Hout. rewrite Hlook.
      destruct (named_emoji emojis label) as [e0|]; [|done].
      by rewrite bool_decide_eq_false_2. }
  destruct Hstore as (S1 & S2 & S3 & S4).
  destruct Hcache as [->|[->| ->]].
  - split; [done|]. split; [by eauto|]. split; [by left|done].
  - split; [done|]. split; [done|]. split; [by left; auto|done].
  - assert (Hu : ∀ label,
        (gset_to_gmap (Glyph placeholder) (valid ∖ dom cache) ∪ cache)
          !! label =
        match cache !! label with
        | Some v => Some v
        | None => if bool_decide (label ∈ valid)
                  then Some (Glyph placeholder) else None
        end).
    { intros label. rewrite lookup_union, lookup_gset_to_gmap.
      destruct (cache !! label) as [v|] eqn:Hv.
      - rewrite option_guard_False; [done|].
        rewrite elem_of_difference, elem_of_dom. intros [_ Hn]. apply Hn.
        by rewrite Hv.
      - case_bool_decide.
        + rewrite option_guard_True; [done|].
          apply elem_of_difference. split; [done|].
          by apply not_elem_of_dom.
        + rewrite option_guard_False; [done|]. set_solver. }
    split; [|split; [|split]].
    + intros label e. rewrite Hu.
      destruct (cache !! label) as [v|] eqn:Hv.
      * intros [= ->]. by apply S1.
      * by case_bool_decide.
    + intros label e He. destruct (S2 _ _ He) as [e' He'].
      exists e'. by rewrite Hu, He'.
    + intros label s. rewrite Hu.
      destruct (cache !! label) as [v|] eqn:Hv.
      * intros [= ->]. left. by apply S3.
      * case_bool_decide as Hin; [|done]. intros [= <-]. right.
        split; [done|]. split; [done|].
        destruct (_ghostty_emojis b !! label) as [v|] eqn:Hb; [|done].
        destruct v as [e|s].
        -- destruct (S2 _ _ Hb) as [e' He']. congruence.
        -- rewrite Hlook in Hv.
           destruct (named_emoji emojis label); [|congruence].
           by rewrite bool_decide_eq_true_2 in Hv.
    + intros label Hout. rewrite Hu, (S4 _ Hout).
      destruct (_ghostty_emojis b !! label); [done|].
      by rewrite bool_decide_eq_false_2.
Qed.

Lemma load_emojis_keeps_names_witness :
  ghostty_emojis (load_emojis (Sample.bot [])).2 "party"
  = ghostty_emojis (Sample.bot []) "party".
Proof.
  destruct (load_emojis_keeps_names (list_to_set EmojiName) (Sample.bot [])
              (load_emojis (Sample.bot [])).1
              (load_emojis (Sample.bot [])).2) as (_ & _ & _ & H).
  - unfold load_emojis. apply surjective_pairing.
  - intros label e H. unfold ghostty_emojis in H. simpl in H.
    by rewrite lookup_empty in H.
  - apply H. rewrite elem_of_list_to_set, list_elem_of_In.
    vm_compute. intuition discriminate.
Defined.

(** ** The bootstrap, when discovery fails *)

(** X14.  One component module that raises when it is imported stops the
    whole bootstrap.  Discovery runs inside the task group's block before
    any task is created, so [setup_hook] raises the exception of such a
    module, wrapped in the group's [ExceptionGroup] when it is an
    [Exception], whatever the event loop would do: no extension is
    loaded, not even a healthy one, no load is attempted, and the count
    is not logged. *)
Theorem bootstrap_stops_at_discovery (sched : list nat) (fuel : nat)
    (b : Bot) (n : string) (e : PyError) :
  n ∈ walk_packages b → import_error b n = Some e →
  ∃ n' e' b',
    n' ∈ walk_packages b ∧ import_error b n' = Some e'
    ∧ setup_hook sched fuel b =
        Some (Raise (if is_Exception e'
                     then ExceptionGroup "unhandled errors in a TaskGroup" [e']
                     else e'), b')
    ∧ extensions b' = extensions b
    ∧ emitted b b' = [SentryTransaction "bot.setup" "Initial load";
                      LoadGitData].
Proof.
  intros Hin Herr. unfold setup_hook, setup_hook_head.
  unfold get_component_extension_names. unfold_monad. simpl.
  set (b0 := set_events _ (set_events _ b)).
  assert (Hw : walk_packages b0 = walk_packages b) by done.
  assert (Hpre : startswith n components_prefix = true).
  { unfold walk_packages in Hin. apply list_elem_of_fmap in Hin as (x & -> & _).
    apply startswith_append. }
  destruct (discover_from_raises (walk_packages b0) ∅ b0 n e)
    as (n' & e' & b' & Hn' & He' & Hd); [by rewrite Hw|done|done|].
  exists n', e', b'. split; [by rewrite <- Hw|]. split; [done|].
  rewrite Hd. split; [done|].
  destruct (discover_from_frame _ _ _ _ _ Hd) as (Hb' & _).
  split; [by rewrite Hb'|].
  apply emitted_app. rewrite Hb'. subst b0. simpl.
  by rewrite <- (assoc_L app).
Qed.

Lemma bootstrap_stops_at_discovery_witness :
  ∃ b', setup_hook [] 0 (Sample.bot ["good"; "broken"])
        = Some (Raise (ExceptionGroup "unhandled errors in a TaskGroup"
                         [ModuleError "import failed"]), b')
    ∧ extensions b' = ∅.
Proof.
  destruct (bootstrap_stops_at_discovery [] 0 (Sample.bot ["good"; "broken"])
              "app.components.broken" (ModuleError "import failed"))
    as (n' & e' & b' & Hn' & He' & Hrun & Hext & _).
  - unfold walk_packages. simpl. set_solver.
  - reflexivity.
  - exists b'. split; [|exact Hext].
    unfold walk_packages in Hn'. simpl in Hn'.
    apply elem_of_cons in Hn' as [->|Hn'];
      [vm_compute in He'; discriminate He'|].
    apply list_elem_of_singleton in Hn' as ->.
    vm_compute in He'. injection He' as <-. exact Hrun.
Defined.

(** ** The bootstrap, when the loop runs its queue in order *)

Lemma run_loop_in_order_invariant (P : Loop → Prop) fuel l l' :
  (∀ l cb rest, P l → loop_ready l = cb :: rest →
     P (run_callback cb (set_ready rest l))) →
  P l → run_loop [] fuel l = Some l' → P l'.
Proof.
  intros Hstep. revert l.
  induction fuel as [|fuel IH]; intros l HP Hrun; simpl in Hrun;
    destruct (loop_ready l) as [|cb rest] eqn:Hr; simplify_eq; try done.
  eapply IH; [|exact Hrun].
  unfold loop_iteration. rewrite Hr. simpl.
  rewrite Nat.sub_diag. simpl. by apply Hstep.
Qed.

(** The first step of a task whose [setup] does not wait runs the
    activation to its end. *)
Lemma task_step_runs_to_end t b s b' :
  task_state t = Created → must_cancel t = false →
  suspends_of b (task_name t) = 0%nat →
  task_step t b = (s, b') →
  ∃ r, s = Done r ∧ (r = None ↔ healthy b (task_name t)).
Proof.
  intros Hst Hmc Hsusp. unfold task_step. rewrite Hst, Hmc.
  destruct (load_extension_begin (task_name t) b) as [[[n out]|e] b0] eqn:Hb;
    apply load_extension_begin_spec in Hb as (Hmt & Hext & _ & Hr).
  - destruct Hr as (Hnotin & Hle & m & Hm & Hx & Hs).
    destruct n as [|n]; [|lia].
    destruct (super_load_extension_finish (task_name t) out b0)
      as [r bf] eqn:Hf.
    apply super_load_extension_finish_spec in Hf as (_ & _ & Hf).
    destruct out as [e|].
    + destruct Hf as [_ ->]. simpl. intros [= <- <-].
      eexists. split; [done|]. split; [done|].
      intros (_ & m' & n' & Hm' & _ & Hs'). simplify_eq.
      rewrite Hs' in Hs. by destruct Hs.
    + destruct Hf as [-> _]. simpl. intros [= <- <-].
      eexists. split; [done|]. split; [|done]. intros _.
      split; [done|]. exists m.
      destruct (mod_setup m) as [| |n' out'] eqn:Hsetup; [done| |].
      * by destruct Hs as (? & ? & _).
      * destruct Hs as [_ <-]. eauto.
  - intros [= <- <-]. eexists. split; [done|]. split; [done|].
    by destruct Hr as (_ & _ & ?).
Qed.

Lemma cancel_done t : is_done (task_state t) = true → cancel t = t.
Proof. unfold cancel. intros ->. by rewrite andb_false_r. Qed.

(** A done callback that runs when every task is done only takes its
    task out of the group. *)
Lemma run_on_task_done_all_done i l t :
  loop_tasks l !! i = Some t →
  (∀ j tj, loop_tasks l !! j = Some tj → is_done (task_state tj) = true) →
  loop_tasks (run_on_task_done i l) = <[i := leave_group t]> (loop_tasks l).
Proof.
  intros Ht Hall. unfold run_on_task_done. rewrite Ht.
  assert (Hc : cancel <$> <[i:=leave_group t]> (loop_tasks l)
               = <[i:=leave_group t]> (loop_tasks l)).
  { rewrite <- (list_fmap_id (<[i:=leave_group t]> (loop_tasks l))) at 2.
    apply list_fmap_ext. intros j tj Hj. apply cancel_done.
    destruct (decide (j = i)) as [->|Hne].
    - rewrite list_lookup_insert_eq in Hj
        by (by eapply lookup_lt_Some).
      injection Hj as <-. simpl. by eapply Hall.
    - rewrite list_lookup_insert_ne in Hj by done. by eapply Hall. }
  destruct (task_state t) as [| |[e|]]; try done.
  destruct (is_Exception e); [|done].
  destruct (group_aborting l); simpl; [done|exact Hc].
Qed.

Lemma in_queue_order_preserved b1 names l cb rest :
  NoDup names →
  (∀ name, name ∈ names → suspends_of b1 name = 0%nat) →
  consistent l → loop_frame b1 names l → in_queue_order b1 l →
  loop_ready l = cb :: rest →
  in_queue_order b1 (run_callback cb (set_ready rest l)).
Proof.
  intros Hnd Hsusp Hcons (Hreg & Hnames & Hmt & _) [Hqueue Htasks] Hready.
  destruct Hqueue as (steps & dones & Hq & Hsteps & Hdones).
  destruct cb as [i|i]; simpl.
  - (* the first step of task [i] *)
    assert (Hrest : ∃ steps', rest = (steps' ++ dones)%list
                      ∧ Forall (λ cb, is_step cb = true) steps').
    { rewrite Hready in Hq. destruct steps as [|cb steps'].
      - simpl in Hq. subst dones. apply Forall_cons in Hdones as [? _]. done.
      - injection Hq as <- ->. apply Forall_cons in Hsteps as [_ ?]. eauto. }
    destruct Hrest as (steps' & -> & Hsteps').
    destruct (run_step_spec i (set_ready (steps' ++ dones) l))
      as [[-> _]|(t & s & b' & Ht & Hnd' & Hstep & ->)]; simpl in *.
    { split; [by exists steps', dones|done]. }
    destruct (Htasks i t Ht) as [Hmc Hst].
    destruct (task_state t) as [| |r] eqn:Hstate; [|done|done].
    assert (Hname : names !! i = Some (task_name t)).
    { rewrite <- Hnames, list_lookup_fmap, Ht. done. }
    assert (Hin : task_name t ∈ names) by (by eapply list_elem_of_lookup_2).
    assert (Hfresh : healthy b1 (task_name t) → healthy (loop_bot l) (task_name t)).
    { intros (Hout & m & n & Hm & Hx & Hs). split; [|rewrite Hmt; eauto].
      intros Hext. apply Hreg in Hext as [?|(j & tj & Htj & Hnj & Hsj)];
        [done|].
      assert (j = i) as ->.
      { eapply (NoDup_lookup names); [done| |exact Hname].
        rewrite <- Hnames, list_lookup_fmap, Htj. simpl. by rewrite Hnj. }
      congruence. }
    assert (Hback : healthy (loop_bot l) (task_name t) → healthy b1 (task_name t)).
    { intros (Hout & m & n & Hm & Hx & Hs). split; [|rewrite <- Hmt; eauto].
      intros Hext. apply Hout, Hreg. by left. }
    destruct (task_step_runs_to_end t (loop_bot l) s b' Hstate Hmc)
      as (r & -> & Hr); [|done|].
    { unfold suspends_of. rewrite Hmt. by apply Hsusp. }
    simpl. split.
    + exists steps', (dones ++ [OnTaskDone i])%list.
      split; [by rewrite (assoc_L app)|]. split; [done|].
      apply Forall_app. split; [done|]. by apply Forall_singleton.
    + intros j tj Hj. simpl in Hj. destruct (decide (j = i)) as [->|Hne].
      * rewrite list_lookup_insert_eq in Hj by (by eapply lookup_lt_Some).
        injection Hj as <-. simpl. split; [done|].
        rewrite Hr. split; auto.
      * rewrite list_lookup_insert_ne in Hj by done. by apply (Htasks j).
  - (* the done callback of task [i]: no first step is left *)
    assert (Hno : steps = [] ∧ dones = OnTaskDone i :: rest).
    { rewrite Hready in Hq. destruct steps as [|cb steps'].
      - by simpl in Hq.
      - injection Hq as <- ->. by apply Forall_cons in Hsteps as [? _]. }
    destruct Hno as [-> ->]. apply Forall_cons in Hdones as [_ Hdones].
    assert (Hall : ∀ j tj, loop_tasks l !! j = Some tj →
                           is_done (task_state tj) = true).
    { intros j tj Hj. destruct (is_done (task_state tj)) eqn:Hd; [done|].
      destruct Hcons as [Hc _]. destruct (Hc j tj Hj) as [Hs _].
      destruct (Hs Hd) as [Hin _]. rewrite Hready in Hin.
      apply elem_of_cons in Hin as [?|Hin]; [done|].
      by apply (proj1 (Forall_forall _ _) Hdones) in Hin. }
    destruct (loop_tasks l !! i) as [t|] eqn:Ht.
    2:{ unfold run_on_task_done. simpl. rewrite Ht.
        split; [by exists [], rest|done]. }
    destruct (run_on_task_done_rest i (set_ready rest l) t Ht)
      as (Hr & _ & _).
    split.
    + exists [], rest. by rewrite Hr.
    + rewrite (run_on_task_done_all_done i (set_ready rest l) t Ht Hall).
      simpl. intros j tj Hj. destruct (decide (j = i)) as [->|Hne].
      * rewrite list_lookup_insert_eq in Hj by (by eapply lookup_lt_Some).
        injection Hj as <-. simpl. by apply (Htasks i).
      * rewrite list_lookup_insert_ne in Hj by done. by apply (Htasks j).
Qed.

Lemma run_loop_in_queue_order fuel names b1 l' :
  NoDup names →
  (∀ name, name ∈ names → suspends_of b1 name = 0%nat) →
  run_loop [] fuel (create_tasks names b1) = Some l' →
  in_queue_order b1 l'.
Proof.
  intros Hnd Hsusp Hrun.
  apply (run_loop_in_order_invariant
           (λ l, consistent l ∧ loop_frame b1 names l ∧ in_queue_order b1 l)
           fuel (create_tasks names b1) l'); [| |exact Hrun].
  - intros l cb rest (Hc & Hf & Hq) Hready.
    assert (H0 : loop_ready l !! 0%nat = Some cb) by (by rewrite Hready).
    pose proof (consistent_preserved l 0 cb Hc H0) as Hc'.
    pose proof (loop_frame_preserved b1 names l 0 cb Hf H0) as Hf'.
    rewrite Hready in Hc', Hf'. simpl in Hc', Hf'.
    split; [done|]. split; [done|].
    by eapply in_queue_order_preserved.
  - split; [apply create_tasks_consistent|].
    split; [apply create_tasks_frame|]. split.
    + exists (Step <$> seq 0 (length names)), []. simpl.
      split; [by rewrite app_nil_r|]. split; [|done].
      apply Forall_fmap, Forall_forall. done.
    + intros i t Ht.
      apply create_tasks_lookup in Ht as (_ & -> & -> & _). done.
Qed.

(** X15.  When no [setup] waits for anything and the event loop runs its
    queue in order, every task runs its activation to the end in its
    first step, before the group sees the first failure.  So the
    bootstrap loads every discovered extension that can be loaded, and
    only those, also when it fails: an extension that cannot be loaded
    makes [setup_hook] raise the group's [ExceptionGroup], and the others
    are active all the same. *)
Theorem bootstrap_in_queue_order (fuel : nat) (b b1 : Bot)
    (names : gset string) :
  setup_hook_head b = (Return names, b1) →
  (∀ name, name ∈ names → suspends_of b1 name = 0%nat) →
  (bootstrap_fuel b1 (elements names) ≤ fuel)%nat →
  ∃ r b',
    setup_hook [] fuel b = Some (r, b')
    ∧ (∀ name, name ∈ extensions b' ↔
         name ∈ extensions b1 ∨ (name ∈ names ∧ healthy b1 name))
    ∧ (∀ k, k ∈ names → doomed b1 k →
         ∃ errors,
           r = Raise (ExceptionGroup "unhandled errors in a TaskGroup"
                        errors)).
Proof.
  intros Hhead Hsusp Hfuel. unfold setup_hook. rewrite Hhead.
  destruct (run_loop_terminates [] fuel
              (create_tasks (elements names) b1)) as (l' & Hrun & _);
    [by rewrite create_tasks_weight|].
  rewrite Hrun. simpl.
  destruct (run_loop_general _ _ _ _ _ Hrun)
    as (Hcons & Hkept & Hframe & Hempty).
  pose proof Hframe as (Hreg & Hnames & _).
  unfold registry_tracked in Hreg.
  pose proof Hkept as (E1 & _).
  assert (Horder : in_queue_order b1 l').
  { apply (run_loop_in_queue_order fuel (elements names));
      [apply NoDup_elements| |exact Hrun].
    intros name Hin. by apply Hsusp, elem_of_elements. }
  destruct Horder as [_ Htasks].
  assert (Hend : ∀ i t, loop_tasks l' !! i = Some t →
            is_done (task_state t) = true ∧ in_group t = false)
    by (intros i t; by apply consistent_at_end).
  assert (Htask : ∀ name, name ∈ names →
            ∃ i t, loop_tasks l' !! i = Some t ∧ task_name t = name).
  { intros name Hin. apply elem_of_elements in Hin.
    rewrite <- Hnames in Hin.
    apply list_elem_of_fmap in Hin as (t & -> & Ht).
    apply list_elem_of_lookup in Ht as [i Ht]. eauto. }
  assert (Hext : extensions (setup_hook_tail l').2 = extensions (loop_bot l')).
  { unfold setup_hook_tail. by destruct (group_errors l'). }
  exists (setup_hook_tail l').1, (setup_hook_tail l').2.
  split; [by destruct (setup_hook_tail l')|]. split.
  - intros name. rewrite Hext, Hreg. split.
    + intros [?|(i & t & Ht & <- & Hs)]; [by left|right].
      split.
      * apply elem_of_elements. rewrite <- Hnames.
        apply list_elem_of_fmap. exists t. split; [done|].
        by eapply list_elem_of_lookup_2.
      * destruct (Htasks i t Ht) as [_ Hst]. rewrite Hs in Hst.
        by apply Hst.
    + intros [?|[Hin Hh]]; [by left|right].
      destruct (Htask name Hin) as (i & t & Ht & <-).
      exists i, t. do 2 (split; [done|]).
      destruct (Hend i t Ht) as [Hd _].
      destruct (Htasks i t Ht) as [_ Hst].
      destruct (task_state t) as [| |r]; [done|done|].
      f_equal. by apply Hst.
  - intros k Hk Hdoomed.
    apply elem_of_elements, list_elem_of_lookup in Hk as [i Hi].
    destruct (run_loop_task_failing _ _ _ _ _ i k Hi Hdoomed Hrun)
      as (t & Ht & Hf).
    destruct (Hend i t Ht) as [Hd Hg].
    destruct (Htasks i t Ht) as [Hmc _].
    unfold failing in Hf.
    destruct (task_state t) as [| |r] eqn:Hst; [done|done|].
    destruct Hf as (e & -> & [He|Hc]); [|congruence].
    pose proof (E1 i t e Ht Hst He Hg) as Hin.
    exists (group_errors l'). unfold setup_hook_tail.
    destruct (group_errors l'); [by apply elem_of_nil in Hin|done].
Qed.

Lemma bootstrap_in_queue_order_witness :
  ∃ errors b',
    setup_hook [] 10 (Sample2.bot ["good"; "bad"])
    = Some (Raise (ExceptionGroup "unhandled errors in a TaskGroup" errors),
            b')
    ∧ "app.components.good" ∈ extensions b'.
Proof.
  set (head := setup_hook_head (Sample2.bot ["good"; "bad"])).
  set (names := {[ "app.components.good"; "app.components.bad" ]}
                : gset string).
  assert (Hhead : head = (Return names, head.2))
    by (vm_compute; reflexivity).
  destruct (bootstrap_in_queue_order 10 _ _ _ Hhead)
    as (r & b' & Hrun & Hext & Hfail).
  - intros name Hin. subst names.
    apply elem_of_union in Hin as [Hin|Hin];
      apply elem_of_singleton in Hin; subst name; reflexivity.
  - vm_compute. lia.
  - destruct (Hfail "app.components.bad") as [errors ->].
    + subst names. set_solver.
    + right. vm_compute. reflexivity.
    + exists errors, b'. split; [exact Hrun|].
      apply Hext. right. split; [subst names; set_solver|].
      split; [vm_compute; set_solver|].
      exists Sample.good, 0%nat. repeat split; reflexivity.
Defined.

(** ** The records of a load *)

Lemma substring_all s : String.substring 0 (String.length s) s = s.
Proof. induction s as [|a s IH]; simpl; [done|by rewrite IH]. Qed.

(** [removeprefix] undoes the prefixing of [walk_packages]. *)
Lemma removeprefix_append p s : removeprefix (p +:+ s) p = s.
Proof.
  unfold removeprefix.
  pose proof (startswith_append p s) as Hp. unfold startswith in Hp.
  rewrite Hp. clear Hp. induction p as [|a p IH]; simpl.
  - rewrite Nat.sub_0_r. apply substring_all.
  - exact IH.
Qed.

Lemma removeprefix_other s p : startswith s p = false → removeprefix s p = s.
Proof. unfold removeprefix, startswith. by intros ->. Qed.

(** X16.  Every call of [load_extension] leaves exactly two events,
    whether the load returns or raises, also for an extension that is
    already loaded: the debug record and the tracing span.  Both carry
    the name without the "app.components." prefix, which for a discovered
    extension is the name that the scan of the directory gave; a name
    outside the namespace is recorded in full. *)
Theorem load_extension_records_short_name (name : string) (b : Bot)
    (r : Outcome unit) (b' : Bot) :
  load_extension name b = (r, b') →
  emitted b b' =
    [Log DEBUG "loading extension {}"
       [AStr (removeprefix name components_prefix)] None;
     SentrySpan "bot.load_extension" (removeprefix name components_prefix)]
  ∧ (∀ n, name = components_prefix +:+ n →
       removeprefix name components_prefix = n)
  ∧ (startswith name components_prefix = false →
       removeprefix name components_prefix = name).
Proof.
  intros H. split; [|split].
  - apply emitted_app. revert H.
    unfold load_extension, load_extension_begin, super_load_extension_begin,
      super_load_extension_finish.
    unfold_monad. simpl. intros H.
    repeat (first [progress simplify_eq/= | case_match]);
      by rewrite <- ?(assoc_L app).
  - intros n ->. apply removeprefix_append.
  - apply removeprefix_other.
Qed.

Lemma load_extension_records_short_name_witness :
  emitted (Sample.bot [])
    (load_extension "app.components.bad" (Sample.bot [])).2
  = [Log DEBUG "loading extension {}" [AStr "bad"] None;
     SentrySpan "bot.load_extension" "bad"].
Proof.
  destruct (load_extension_records_short_name "app.components.bad"
              (Sample.bot [])
              (load_extension "app.components.bad" (Sample.bot [])).1
              (load_extension "app.components.bad" (Sample.bot [])).2)
    as (Hev & Hshort & _); [apply surjective_pairing|].
  rewrite Hev, (Hshort "bad" eq_refl). reflexivity.
Defined.

(** ** Login *)

Lemma ghostty_guild_no_login_record b r b1 :
  ghostty_guild b = (r, b1) →
  ∃ l, events b1 = (events b ++ l)%list
       ∧ Forall (λ ev, is_login_record ev = false) l.
Proof.
  unfold ghostty_guild, cached_property, ghostty_guild_body, get_guild,
    guilds_item, guild_name_of, guild_id_of.
  unfold_monad. intros H.
  destruct (ghostty_guild_cache b) eqn:Hc.
  { simplify_eq/=. exists []. by rewrite app_nil_r. }
  run_cases; rewrite <- ?(assoc_L app);
    (eexists; split; [reflexivity|]); repeat constructor.
Qed.

Lemma log_channel_no_login_record b r b1 :
  log_channel b = (r, b1) →
  ∃ l, events b1 = (events b ++ l)%list
       ∧ Forall (λ ev, is_login_record ev = false) l.
Proof.
  unfold log_channel, cached_property, log_channel_body, get_channel,
    assert_isinstance.
  unfold_monad. intros H.
  destruct (log_channel_cache b) eqn:Hc.
  { simplify_eq/=. exists []. by rewrite app_nil_r. }
  run_cases; rewrite <- ?(assoc_L app);
    (eexists; split; [reflexivity|]); repeat constructor.
Qed.

Lemma load_emojis_for_no_login_record (valid : gset string) b r b' :
  load_emojis_for valid b = (r, b') →
  ∃ l, events b' = (events b ++ l)%list
       ∧ Forall (λ ev, is_login_record ev = false) l.
Proof.
  intros Hrun. pose proof (load_emojis_for_cases valid b) as Hc.
  destruct (ghostty_guild b) as [[g|e] b1] eqn:Hg;
    destruct (ghostty_guild_no_login_record _ _ _ Hg) as (l1 & He1 & Hl1).
  2:{ rewrite Hrun in Hc. injection Hc as -> ->. eauto. }
  cbv zeta in Hc. set (b3 := set_ghostty_emojis _ _) in Hc.
  assert (He3 : events b3 = (events b ++ l1 ++ [GuildEmojis g])%list).
  { subst b3. simpl. rewrite He1. by rewrite <- (assoc_L app). }
  assert (Hl3 : Forall (λ ev, is_login_record ev = false)
                  (l1 ++ [GuildEmojis g])).
  { apply Forall_app. split; [done|]. by apply Forall_singleton. }
  case_bool_decide.
  { rewrite Hrun in Hc. injection Hc as -> ->. eauto. }
  destruct (log_channel b3) as [[c|e] b4] eqn:Hl;
    destruct (log_channel_no_login_record _ _ _ Hl) as (l4 & He4 & Hl4).
  2:{ rewrite Hrun in Hc. injection Hc as -> ->.
      exists ((l1 ++ [GuildEmojis g]) ++ l4)%list.
      split; [by rewrite He4, He3, !(assoc_L app)|].
      by apply Forall_app. }
  destruct (send_error (gateway b)).
  - rewrite Hrun in Hc. injection Hc as -> ->.
    exists ((l1 ++ [GuildEmojis g]) ++ l4)%list.
    split; [by rewrite He4, He3, !(assoc_L app)|].
    by apply Forall_app.
  - rewrite Hrun in Hc. injection Hc as -> ->. simpl.
    eexists (((l1 ++ [GuildEmojis g]) ++ l4) ++ [_])%list.
    split; [by rewrite He4, He3, !(assoc_L app)|].
    apply Forall_app. split; [by apply Forall_app|].
    by apply Forall_singleton.
Qed.

(** X17.  [on_ready] stamps the login time first, whatever happens next,
    and ends as [load_emojis] does.  When it returns, the record "logged
    in as" with the client's user is the last thing logged and the emoji
    view answers each of the twelve labels.  When [load_emojis] raises,
    [on_ready] raises the same error with the login time already set, and
    the record is not logged. *)
Theorem on_ready_records_login (str_account : Account → string) (now : Z)
    (s : Session) (r : Outcome unit) (s' : Session) :
  on_ready str_account now s = (r, s') →
  last_login_time s' = Some now
  ∧ client_user s' = client_user s
  ∧ r = (load_emojis (session_bot s)).1
  ∧ (r = Return tt →
     last (events (session_bot s'))
     = Some (Log INFO "logged in as {}" [user_arg str_account s] None)
     ∧ ∀ label, label ∈ EmojiName →
                is_Some (ghostty_emojis (session_bot s') label))
  ∧ (∀ e, r = Raise e →
     session_bot s' = (load_emojis (session_bot s)).2
     ∧ ∀ ev, ev ∈ emitted (session_bot s) (session_bot s') →
             is_login_record ev = false).
Proof.
  unfold on_ready. simpl.
  destruct (load_emojis (session_bot s)) as [[[]|e] b'] eqn:Hrun; simpl.
  - unfold logger, emit, update. intros [= <- <-]. simpl.
    do 3 (split; [done|]). split; [|done]. intros _.
    split; [by rewrite last_snoc|].
    intros label Hin. unfold ghostty_emojis.
    destruct (load_emojis_for_leaves_total _ _ _ Hrun) as [_ Htotal].
    apply elem_of_dom, Htotal. by apply elem_of_list_to_set.
  - intros [= <- <-]. simpl. do 3 (split; [done|]).
    split; [done|]. intros e' _. split; [done|].
    destruct (load_emojis_for_no_login_record _ _ _ _ Hrun) as (l & Hl & Hno).
    intros ev. rewrite (emitted_app _ _ _ Hl).
    apply (proj1 (Forall_forall _ _) Hno).
Qed.

Lemma on_ready_records_login_witness :
  (on_ready account_name 42 Sample2.muted_session).1 = Raise AssertionError
  ∧ last_login_time (on_ready account_name 42 Sample2.muted_session).2
    = Some 42.
Proof.
  destruct (on_ready_records_login account_name 42 Sample2.muted_session
              (on_ready account_name 42 Sample2.muted_session).1
              (on_ready account_name 42 Sample2.muted_session).2)
    as (Htime & _ & Hr & _); [apply surjective_pairing|].
  split; [|exact Htime]. rewrite Hr. vm_compute. reflexivity.
Defined.

(** ** The bootstrap, under any order of the event loop *)

Lemma task_step_only_healthy b1 t b s b' :
  modtree b = modtree b1 → extensions b1 ⊆ extensions b →
  task_step t b = (s, b') →
  match task_state t with
  | Created => True
  | Suspended _ outcome => outcome = None → healthy b1 (task_name t)
  | Done r => r = None → healthy b1 (task_name t)
  end →
  match s with
  | Created => True
  | Suspended _ outcome => outcome = None → healthy b1 (task_name t)
  | Done r => r = None → healthy b1 (task_name t)
  end.
Proof.
  intros Hmt Hsub. unfold task_step.
  destruct (task_state t) as [|remaining outcome|r] eqn:Hst.
  - destruct (must_cancel t); [by intros [= <- <-]|].
    destruct (load_extension_begin (task_name t) b) as [[[n out]|e] b0] eqn:Hb;
      apply load_extension_begin_spec in Hb as (_ & _ & _ & Hr).
    + destruct Hr as (Hnotin & _ & m & Hm & Hx & Hs).
      assert (Hh : out = None → healthy b1 (task_name t)).
      { intros ->. split; [set_solver|]. exists m. rewrite <- Hmt.
        destruct (mod_setup m) as [| |n' out'] eqn:Hsetup; [done| |].
        - by destruct Hs as (? & ? & _).
        - destruct Hs as [_ <-]. eauto. }
      destruct n as [|k]; [|by intros [= <- <-]].
      destruct (super_load_extension_finish (task_name t) out b0)
        as [r bf] eqn:Hf.
      apply super_load_extension_finish_spec in Hf as (_ & _ & Hf).
      destruct out as [e|].
      * destruct Hf as [_ ->]. by intros [= <- <-].
      * destruct Hf as [-> _]. intros [= <- <-]. auto.
    + by intros [= <- <-].
  - destruct (must_cancel t); [by intros [= <- <-]|].
    destruct remaining as [|k]; [|by intros [= <- <-]].
    destruct (super_load_extension_finish (task_name t) outcome b)
      as [r bf] eqn:Hf.
    apply super_load_extension_finish_spec in Hf as (_ & _ & Hf).
    destruct outcome as [e|].
    + destruct Hf as [_ ->]. by intros [= <- <-].
    + destruct Hf as [-> _]. intros [= <- <-]. auto.
  - by intros [= <- <-].
Qed.

Lemma returns_only_healthy_preserved b1 names l n cb :
  loop_frame b1 names l → returns_only_healthy b1 l →
  loop_ready l !! n = Some cb →
  returns_only_healthy b1
    (run_callback cb (set_ready (delete n (loop_ready l)) l)).
Proof.
  intros (Hreg & _ & Hmt & _) Hinv Hcb.
  set (lp := set_ready (delete n (loop_ready l)) l).
  destruct cb as [i|i]; simpl.
  - destruct (run_step_spec i lp) as [[-> _]|(t & s & b' & Ht & Hd & Hs & ->)];
      [exact Hinv|].
    simpl in Ht, Hs. intros j tj Hj. simpl in Hj.
    apply list_lookup_insert_Some in Hj as [(<- & <- & _)|[Hne Hj]].
    + simpl. eapply task_step_only_healthy; [exact Hmt| |exact Hs|].
      * intros name Hin. apply Hreg. by left.
      * by apply (Hinv i).
    + by apply (Hinv j).
  - destruct (loop_tasks lp !! i) as [t|] eqn:Ht.
    2:{ unfold run_on_task_done. rewrite Ht. exact Hinv. }
    destruct (run_on_task_done_tasks i lp t Ht) as (g & Hg & Hk).
    intros j tj' Hj. rewrite Hg in Hj. simpl in Hj.
    destruct (loop_tasks l !! j) as [tj|] eqn:Htj; [|done].
    injection Hj as <-.
    destruct (Hk (if decide (j = i) then leave_group tj else tj))
      as (Hn' & Hs' & _). rewrite Hn', Hs'.
    pose proof (Hinv j tj Htj) as Hj. by destruct (decide (j = i)).
Qed.

(** X18.  Whatever the order in which the event loop runs the tasks, a
    bootstrap that has ended, with or without an error, has unloaded
    nothing, and the extensions that it has made active are discovered
    ones that were healthy at its start: not active, with code that runs
    and a [setup] that returns.  A module whose [setup] ends with an
    exception of any kind is not made active. *)
Theorem bootstrap_loads_only_healthy (sched : list nat) (fuel : nat)
    (b b1 : Bot) (names : gset string) (r : Outcome unit) (b' : Bot) :
  setup_hook_head b = (Return names, b1) →
  setup_hook sched fuel b = Some (r, b') →
  extensions b1 ⊆ extensions b'
  ∧ ∀ name, name ∈ extensions b' → name ∉ extensions b1 →
      name ∈ names ∧ healthy b1 name.
Proof.
  intros Hhead. unfold setup_hook. rewrite Hhead.
  destruct (run_loop sched fuel (create_tasks (elements names) b1))
    as [l'|] eqn:Hrun; [|done].
  simpl. intros [= Htail].
  assert (Hext : extensions b' = extensions (loop_bot l')).
  { unfold setup_hook_tail in Htail. unfold_monad.
    destruct (group_errors l'); by simplify_eq/=. }
  destruct (run_loop_invariant
              (λ l, loop_frame b1 (elements names) l
                    ∧ returns_only_healthy b1 l)
              sched fuel (create_tasks (elements names) b1) l')
    as [[Hframe Hinv] _]; [| |exact Hrun|].
  { intros l n cb [Hf Hi] Hcb. split.
    - by apply loop_frame_preserved.
    - by eapply returns_only_healthy_preserved. }
  { split; [apply create_tasks_frame|]. intros i t Ht.
    apply create_tasks_lookup in Ht as (_ & -> & _). done. }
  destruct Hframe as (Hreg & Hnames & _). unfold registry_tracked in Hreg.
  rewrite Hext. split.
  - intros name Hin. apply Hreg. by left.
  - intros name Hin Hnew.
    apply Hreg in Hin as [?|(i & t & Ht & <- & Hs)]; [done|]. split.
    + apply elem_of_elements. rewrite <- Hnames.
      apply list_elem_of_fmap. exists t. split; [done|].
      by eapply list_elem_of_lookup_2.
    + pose proof (Hinv i t Ht) as Hi. rewrite Hs in Hi. by apply Hi.
Qed.

Lemma bootstrap_loads_only_healthy_witness :
  healthy (setup_hook_head (Sample2.bot ["good"; "interrupted"])).2
    "app.components.good".
Proof.
  set (b := Sample2.bot ["good"; "interrupted"]).
  set (run := default (Return tt, b) (setup_hook [] 10 b)).
  destruct (bootstrap_loads_only_healthy [] 10 b (setup_hook_head b).2
              {[ "app.components.good"; "app.components.interrupted" ]}
              run.1 run.2) as [_ H].
  - vm_compute. reflexivity.
  - vm_compute. reflexivity.
  - apply H; vm_compute; set_solver.
Defined.

(** ** Discovery and the order of the scan *)

(** What a discovery that returns has imported. *)
Lemma discover_from_sys_modules names modules b found b' :
  discover_from names modules b = (Return found, b') →
  sys_modules b' =
    sys_modules b
    ∪ list_to_set (filter (λ n, startswith n components_prefix
                                && bool_decide (is_Some (modtree b !! n)))
                     names).
Proof.
  revert modules b. induction names as [|name rest IH]; intros modules b H.
  - simpl in H. unfold_monad. simplify_eq. set_solver.
  - simpl in H. unfold mbind, M_bind in H.
    destruct (is_valid_extension name b) as [[valid|e] b1] eqn:Hv; [|done].
    pose proof (is_valid_extension_frame _ _ _ _ Hv) as (Hb1 & _).
    assert (Hmt : modtree b1 = modtree b) by (by rewrite Hb1).
    apply IH in H. rewrite H.
    rewrite (list_filter_iff _
               (λ n, startswith n components_prefix
                     && bool_decide (is_Some (modtree b !! n))) rest)
      by (intros n; by rewrite Hmt).
    assert (Hs1 : sys_modules b1 =
              if startswith name components_prefix
                 && bool_decide (is_Some (modtree b !! name))
              then {[name]} ∪ sys_modules b else sys_modules b).
    { pose proof (is_valid_extension_cases name b) as Hc. rewrite Hv in Hc.
      destruct (startswith name components_prefix) eqn:Hpre; simpl in *.
      - destruct (import_error b name); [done|].
        injection Hc as _ ->.
        case_bool_decide; simpl; [|done].
        case_bool_decide; simpl; [set_solver|done].
      - destruct (import_error b name); by injection Hc as _ ->. }
    rewrite Hs1.
    destruct (startswith name components_prefix
              && bool_decide (is_Some (modtree b !! name))) eqn:Heq.
    + rewrite filter_cons_True by (by rewrite Heq). set_solver.
    + rewrite filter_cons_False by (rewrite Heq; intros []). done.
Qed.

(** X19.  What discovery finds does not depend on the order in which the
    scan of the components directory yields the modules: when
    [get_component_extension_names] returns, it returns the same names,
    and has imported the same modules, for every other order of the same
    directory. *)
Theorem discovery_ignores_scan_order (b b2 : Bot) (names : gset string)
    (b' : Bot) :
  get_component_extension_names b = (Return names, b') →
  component_names b2 ≡ₚ component_names b →
  modtree b2 = modtree b → sys_modules b2 = sys_modules b →
  ∃ b2', get_component_extension_names b2 = (Return names, b2')
         ∧ sys_modules b2' = sys_modules b'.
Proof.
  intros H Hperm Hmt Hsys. unfold get_component_extension_names in *.
  unfold_monad.
  assert (Hw : walk_packages b2 ≡ₚ walk_packages b)
    by (unfold walk_packages; by rewrite Hperm).
  assert (Hok : Forall (λ n, import_error b n = None) (walk_packages b)).
  { apply Forall_forall. intros n Hin.
    destruct (import_error b n) as [e|] eqn:He; [exfalso|done].
    destruct (discover_from_raises (walk_packages b) ∅ b n e)
      as (? & ? & ? & _ & _ & Hd); [done| |done|congruence].
    unfold walk_packages in Hin.
    apply list_elem_of_fmap in Hin as (x & -> & _).
    apply startswith_append. }
  assert (Hok2 : Forall (λ n, import_error b2 n = None) (walk_packages b2)).
  { rewrite Hw. eapply Forall_impl; [exact Hok|]. simpl. intros n Hn.
    unfold import_error in *. by rewrite Hmt, Hsys. }
  destruct (discover_from_returns (walk_packages b2) ∅ b2 Hok2) as [b2' H2].
  exists b2'. split.
  - rewrite H2. f_equal. f_equal.
    rewrite (discover_from_result _ _ _ _ _ H).
    apply set_eq. intros n.
    rewrite !elem_of_union, !elem_of_list_to_set, !list_elem_of_filter.
    rewrite Hw. by rewrite (exposes_setup_preserved b b2).
  - rewrite (discover_from_sys_modules _ _ _ _ _ H2).
    rewrite (discover_from_sys_modules _ _ _ _ _ H).
    rewrite Hsys. apply set_eq. intros n.
    rewrite !elem_of_union, !elem_of_list_to_set, !list_elem_of_filter.
    rewrite Hw. by rewrite Hmt.
Qed.

Lemma discovery_ignores_scan_order_witness :
  ∃ b2', get_component_extension_names (Sample2.bot ["plain"; "good"])
         = (Return {[ "app.components.good" ]}, b2')
         ∧ sys_modules b2'
           = sys_modules
               (get_component_extension_names
                  (Sample2.bot ["good"; "plain"])).2.
Proof.
  apply (discovery_ignores_scan_order (Sample2.bot ["good"; "plain"])
           (Sample2.bot ["plain"; "good"])).
  - vm_compute. reflexivity.
  - apply perm_swap.
  - reflexivity.
  - reflexivity.
Defined.
